(** * Essenmelia: the local multi-database persistence and synchronisation layer

    A shallow embedding of the persistence core of [src/App.tsx] (with the
    data types of [src/types.ts]): the pending-action queue and its fold,
    the store adapter over the browser's object stores, the snapshot loader,
    the sync engine, the database switch and merge controller, the startup
    selection of the active database, the snapshot import and export, and the
    comparator of the event list.

    Conventions.
    - A JavaScript string is a [string]; [===] on strings is decided equality.
    - A date-like value (a [Date], or the ISO text that JSON leaves in its
      place) is modelled by the instant it denotes, in milliseconds ([Z]).
    - An optional field ([tags?], [imageUrl?], ...) is an [option].
    - React state is one record; a handler is a function from the state of
      the render it closes over to the state after its updates were applied.
    - Storage effects are explicit: a computation takes the world (the
      object stores, [localStorage], the cached connections) and returns its
      outcome with the world it leaves behind. *)

From stdpp Require Import gmap strings list fin_maps pretty sorting.
From Stdlib Require Import QArith Lqa.

#[local] Open Scope string_scope.
#[local] Open Scope Z_scope.
#[local] Open Scope list_scope.

(** ** Data model ([src/types.ts]) *)

Module ProgressStep.
Record t : Type := mk {
  id : string;
  description : string;
  timestamp : Z;
  completed : bool
}.

#[global] Instance eq_dec : EqDecision t.
Proof. solve_decision. Defined.

Definition with_id (v : string) (s : t) : t :=
  mk v (description s) (timestamp s) (completed s).
Definition with_timestamp (v : Z) (s : t) : t :=
  mk (id s) (description s) v (completed s).
End ProgressStep.

Module Event.
Record t : Type := mk {
  id : string;
  title : string;
  description : string;
  createdAt : Z;
  steps : list ProgressStep.t;
  imageUrl : option string;
  tags : option (list string);
  hasOriginalImage : option bool
}.

#[global] Instance eq_dec : EqDecision t.
Proof. solve_decision. Defined.

(** [{ ...e, field: v }] for the fields the code overwrites. *)
Definition with_id (v : string) (e : t) : t :=
  mk v (title e) (description e) (createdAt e) (steps e) (imageUrl e)
     (tags e) (hasOriginalImage e).
Definition with_createdAt (v : Z) (e : t) : t :=
  mk (id e) (title e) (description e) v (steps e) (imageUrl e)
     (tags e) (hasOriginalImage e).
Definition with_steps (v : list ProgressStep.t) (e : t) : t :=
  mk (id e) (title e) (description e) (createdAt e) v (imageUrl e)
     (tags e) (hasOriginalImage e).
Definition with_tags (v : option (list string)) (e : t) : t :=
  mk (id e) (title e) (description e) (createdAt e) (steps e) (imageUrl e)
     v (hasOriginalImage e).
Definition with_hasOriginalImage (v : option bool) (e : t) : t :=
  mk (id e) (title e) (description e) (createdAt e) (steps e) (imageUrl e)
     (tags e) v.
End Event.

Module StepTemplate.
Record t : Type := mk { id : string; description : string }.

#[global] Instance eq_dec : EqDecision t.
Proof. solve_decision. Defined.

Definition with_id (v : string) (s : t) : t := mk v (description s).
End StepTemplate.

Module StepSetTemplateStep.
Record t : Type := mk { id : string; description : string }.

#[global] Instance eq_dec : EqDecision t.
Proof. solve_decision. Defined.

Definition with_id (v : string) (s : t) : t := mk v (description s).
End StepSetTemplateStep.

Module StepSetTemplate.
Record t : Type := mk {
  id : string;
  name : string;
  steps : list StepSetTemplateStep.t
}.

#[global] Instance eq_dec : EqDecision t.
Proof. solve_decision. Defined.

Definition with_id (v : string) (s : t) : t := mk v (name s) (steps s).
Definition with_steps (v : list StepSetTemplateStep.t) (s : t) : t :=
  mk (id s) (name s) v.
End StepSetTemplate.

(** A [File] picked by the user: an opaque blob, known by its name and type. *)
Record File : Type := mkFile { file_name : string; file_type : string }.

#[global] Instance File_eq_dec : EqDecision File.
Proof. solve_decision. Defined.

(** The [originalImage] of an update: a file, or the marker ['remove']. *)
Inductive ImageUpdate : Type :=
  | ImageFile (f : File)
  | ImageRemove.

#[global] Instance ImageUpdate_eq_dec : EqDecision ImageUpdate.
Proof. solve_decision. Defined.

(** ** The pending-action queue *)

Inductive PendingAction : Type :=
  | ADD_EVENT (event : Event.t) (originalImage : option File)
  | UPDATE_EVENT (event : Event.t) (originalImage : option ImageUpdate)
  | DELETE_EVENT (eventId : string)
  | UPDATE_EVENT_STEPS (eventId : string) (steps : list ProgressStep.t)
  | ADD_TAG (tag : string)
  | DELETE_TAGS (tagsToDelete : list string)
  | RENAME_TAG (oldTag newTag : string)
  | REORDER_TAGS (reorderedTags : list string).

#[global] Instance PendingAction_eq_dec : EqDecision PendingAction.
Proof. solve_decision. Defined.

(** [t => !deleteSet.has(t)] over a tag list, with [deleteSet = new Set(payload)]. *)
Definition stripTags (payload : list string) (ts : list string) : list string :=
  let deleteSet : gset string := list_to_set payload in
  filter (λ t, t ∉ deleteSet) ts.

(** [t => t === oldTag ? newTag : t] over a tag list. *)
Definition renameIn (oldTag newTag : string) (ts : list string) : list string :=
  (λ t, if decide (t = oldTag) then newTag else t) <$> ts.

(** One iteration of the [forEach] of [applyPendingActions]: the [switch]. *)
Definition applyAction (acc : list Event.t * list string) (action : PendingAction)
  : list Event.t * list string :=
  let '(processedEvents, processedTags) := acc in
  match action with
  | ADD_EVENT event _ =>
      if existsb (λ e, bool_decide (Event.id e = Event.id event)) processedEvents
      then (processedEvents, processedTags)
      else (event :: processedEvents, processedTags)
  | UPDATE_EVENT event _ =>
      ((λ e, if decide (Event.id e = Event.id event) then event else e)
         <$> processedEvents, processedTags)
  | DELETE_EVENT eventId =>
      (filter (λ e, Event.id e ≠ eventId) processedEvents, processedTags)
  | UPDATE_EVENT_STEPS eventId steps =>
      ((λ e, if decide (Event.id e = eventId) then Event.with_steps steps e else e)
         <$> processedEvents, processedTags)
  | ADD_TAG tag =>
      if bool_decide (tag ∈ processedTags)
      then (processedEvents, processedTags)
      else (processedEvents, processedTags ++ [tag])
  | DELETE_TAGS payload =>
      ((λ e, Event.with_tags (stripTags payload <$> Event.tags e) e)
         <$> processedEvents,
       stripTags payload processedTags)
  | RENAME_TAG oldTag newTag =>
      ((λ e, Event.with_tags (renameIn oldTag newTag <$> Event.tags e) e)
         <$> processedEvents,
       renameIn oldTag newTag processedTags)
  | REORDER_TAGS payload => (processedEvents, payload)
  end.

(** [a.type === 'UPDATE_EVENT' && a.payload.event.id === eventId]. *)
Definition isUpdateEventOf (eventId : string) (a : PendingAction) : bool :=
  match a with
  | UPDATE_EVENT event _ => bool_decide (Event.id event = eventId)
  | _ => false
  end.

(** [applyPendingActions(baseEvents, baseTags, actions)]: the actions are
    applied in queue order; the result is [(processedEvents, processedTags)]. *)
Definition applyPendingActions (baseEvents : list Event.t) (baseTags : list string)
    (actions : list PendingAction) : list Event.t * list string :=
  foldl applyAction (baseEvents, baseTags) actions.

(** [[...new Set(xs)]]: the distinct elements, in order of first occurrence. *)
Definition dedupe (xs : list string) : list string :=
  foldl (λ acc x, if bool_decide (x ∈ acc) then acc else acc ++ [x]) [] xs.

(** ** The store adapter (IndexedDB) *)

(** The object stores of [STORES]. *)
Inductive Store : Type :=
  | STORE_events
  | STORE_tags
  | STORE_stepTemplates
  | STORE_stepSetTemplates
  | STORE_metadata
  | STORE_originalImages.

#[global] Instance Store_eq_dec : EqDecision Store.
Proof. solve_decision. Defined.

(** What the metadata store holds ([any] in the source): the values the
    module puts there are flags, a number and a string. *)
Inductive MetaValue : Type :=
  | MetaBool (b : bool)
  | MetaNumber (q : Q)
  | MetaString (s : string).

(** One database: its object stores, each a finite map from key to record.
    [events], [stepTemplates] and [stepSetTemplates] are created with
    [keyPath: 'id']; the others take the key beside the value. The data
    databases keep one metadata flag, ['isSeeded']; the settings database
    keeps the display settings in its metadata store. *)
Record Database : Type := mkDatabase {
  db_events : gmap string Event.t;
  db_tags : gmap string (list string);
  db_stepTemplates : gmap string StepTemplate.t;
  db_stepSetTemplates : gmap string StepSetTemplate.t;
  db_metadata : gmap string MetaValue;
  db_originalImages : gmap string File
}.

Definition emptyDatabase : Database := mkDatabase ∅ ∅ ∅ ∅ ∅ ∅.

(** What the code asks of the engine; the engine may reject any of it. *)
Inductive Request : Type :=
  | ListDatabases
  | OpenDb (dbName : string)
  | ReadStore (dbName : string) (store : Store)
  | WriteStore (dbName : string) (store : Store).

#[global] Instance Request_eq_dec : EqDecision Request.
Proof. solve_decision. Defined.

Inductive Error : Type :=
  | StorageError (r : Request)
  | InvalidFileFormat
  | LastDatabaseDeleted.

(** The world outside the component: the databases of the origin, the
    module's cache of open connections ([dbConnections]), [localStorage],
    whether the browser has [indexedDB.databases], and the requests the
    engine rejects. *)
Record World : Type := mkWorld {
  databases : gmap string Database;
  dbConnections : gset string;
  localStorage : gmap string string;
  hasDatabasesApi : bool;
  rejects : Request → bool
}.

Definition setDatabases (v : gmap string Database) (w : World) : World :=
  mkWorld v (dbConnections w) (localStorage w) (hasDatabasesApi w) (rejects w).
Definition setDbConnections (v : gset string) (w : World) : World :=
  mkWorld (databases w) v (localStorage w) (hasDatabasesApi w) (rejects w).
Definition setLocalStorage (v : gmap string string) (w : World) : World :=
  mkWorld (databases w) (dbConnections w) v (hasDatabasesApi w) (rejects w).

(** The database [dbName] as the engine holds it (opening creates it empty). *)
Definition theDb (w : World) (dbName : string) : Database :=
  default emptyDatabase (databases w !! dbName).

Definition setDb (dbName : string) (db : Database) (w : World) : World :=
  setDatabases (<[dbName := db]> (databases w)) w.

(** A promise, run to its settlement: its outcome and the world it leaves.
    A rejected promise keeps the effects that happened before the rejection. *)
Inductive Result (A : Type) : Type :=
  | Ok (a : A)
  | Err (e : Error).
Arguments Ok {A} a.
Arguments Err {A} e.

Definition IO (A : Type) : Type := World → Result A * World.

Definition io_ret {A} (a : A) : IO A := λ w, (Ok a, w).

(** [await m; k]: a rejection of [m] skips [k]. *)
Definition io_bind {A B} (m : IO A) (k : A → IO B) : IO B :=
  λ w, match m w with
       | (Ok a, w') => k a w'
       | (Err e, w') => (Err e, w')
       end.

Notation "'let*' x ':=' m 'in' k" := (io_bind m (λ x, k))
  (at level 10, x pattern, m at level 100, k at level 200).

(** [Promise.all([a, b])]: both run whatever the other's outcome; the result
    is rejected when either is. *)
Definition io_both {A B} (a : IO A) (b : IO B) : IO (A * B) :=
  λ w, let '(ra, w1) := a w in
       let '(rb, w2) := b w1 in
       (match ra, rb with
        | Ok x, Ok y => Ok (x, y)
        | Err e, _ => Err e
        | Ok _, Err e => Err e
        end, w2).

(** [Promise.all(ps)] over promises of no value. *)
Fixpoint io_all (ps : list (IO unit)) : IO unit :=
  match ps with
  | [] => io_ret tt
  | p :: ps' => λ w, let '(r, w') := io_both p (io_all ps') w in
                     (match r with Ok _ => Ok tt | Err e => Err e end, w')
  end.

Definition request (r : Request) : IO unit :=
  λ w, if rejects w r then (Err (StorageError r), w) else (Ok tt, w).

(** [initDB]: a cached connection is reused; otherwise the database is
    opened, which creates it (with all its stores, empty) when it is new. *)
Definition initDB (dbName : string) : IO unit :=
  λ w, if bool_decide (dbName ∈ dbConnections w) then (Ok tt, w)
       else if rejects w (OpenDb dbName) then (Err (StorageError (OpenDb dbName)), w)
       else (Ok tt, setDbConnections ({[dbName]} ∪ dbConnections w)
                      (setDb dbName (theDb w dbName) w)).

(** [getStore] followed by one request on the store: [op] reads and
    rewrites the database inside one transaction (all of it or nothing). *)
Definition withStore {A} (dbName : string) (r : Request) (op : Database → A * Database)
  : IO A :=
  let* _ := initDB dbName in
  let* _ := request r in
  λ w, let '(a, db') := op (theDb w dbName) in (Ok a, setDb dbName db' w).

(** A store of a database, as the adapter addresses it by name. *)
Record StoreRef (T : Type) : Type := mkStoreRef {
  sr_name : Store;
  sr_get : Database → gmap string T;
  sr_set : gmap string T → Database → Database
}.
Arguments mkStoreRef {T}.
Arguments sr_name {T}.
Arguments sr_get {T}.
Arguments sr_set {T}.

Definition eventsStore : StoreRef Event.t :=
  mkStoreRef STORE_events db_events
    (λ v db, mkDatabase v (db_tags db) (db_stepTemplates db) (db_stepSetTemplates db)
                        (db_metadata db) (db_originalImages db)).
Definition tagsStore : StoreRef (list string) :=
  mkStoreRef STORE_tags db_tags
    (λ v db, mkDatabase (db_events db) v (db_stepTemplates db) (db_stepSetTemplates db)
                        (db_metadata db) (db_originalImages db)).
Definition stepTemplatesStore : StoreRef StepTemplate.t :=
  mkStoreRef STORE_stepTemplates db_stepTemplates
    (λ v db, mkDatabase (db_events db) (db_tags db) v (db_stepSetTemplates db)
                        (db_metadata db) (db_originalImages db)).
Definition stepSetTemplatesStore : StoreRef StepSetTemplate.t :=
  mkStoreRef STORE_stepSetTemplates db_stepSetTemplates
    (λ v db, mkDatabase (db_events db) (db_tags db) (db_stepTemplates db) v
                        (db_metadata db) (db_originalImages db)).
Definition metadataStore : StoreRef MetaValue :=
  mkStoreRef STORE_metadata db_metadata
    (λ v db, mkDatabase (db_events db) (db_tags db) (db_stepTemplates db)
                        (db_stepSetTemplates db) v (db_originalImages db)).
Definition originalImagesStore : StoreRef File :=
  mkStoreRef STORE_originalImages db_originalImages
    (λ v db, mkDatabase (db_events db) (db_tags db) (db_stepTemplates db)
                        (db_stepSetTemplates db) (db_metadata db) v).

(** The key of a record in a store created with [keyPath: 'id']. *)
Class KeyPath (T : Type) : Type := keyPath : T → string.
#[global] Instance Event_keyPath : KeyPath Event.t := Event.id.
#[global] Instance StepTemplate_keyPath : KeyPath StepTemplate.t := StepTemplate.id.
#[global] Instance StepSetTemplate_keyPath : KeyPath StepSetTemplate.t := StepSetTemplate.id.

(** [data.forEach(item => store.put(item))]: a later record replaces an
    earlier one stored under the same key. *)
Definition putAll {T} `{KeyPath T} (data : list T) (m : gmap string T) : gmap string T :=
  foldl (λ acc item, <[keyPath item := item]> acc) m data.

(** [store.getAll()]: the records of the store. The engine lists them by
    ascending key; the model lists them in the map's own order, so what is
    said of a listing is said up to the order of its records. *)
Definition getAll {T} (m : gmap string T) : list T := (map_to_list m).*2.

(** [saveDataInStore]: clear the store, then put every item. *)
Definition saveDataInStore {T} `{KeyPath T} (dbName : string) (store : StoreRef T)
    (data : list T) : IO unit :=
  withStore dbName (WriteStore dbName (sr_name store))
    (λ db, (tt, sr_set store (putAll data ∅) db)).

(** [saveDataInStoreByKey]: [store.put(data, key)]. *)
Definition saveDataInStoreByKey {T} (dbName : string) (store : StoreRef T)
    (data : T) (key : string) : IO unit :=
  withStore dbName (WriteStore dbName (sr_name store))
    (λ db, (tt, sr_set store (<[key := data]> (sr_get store db)) db)).

(** [insertDataInStore]: put every item, keeping what the store holds. *)
Definition insertDataInStore {T} `{KeyPath T} (dbName : string) (store : StoreRef T)
    (data : list T) : IO unit :=
  match data with
  | [] => io_ret tt
  | _ => withStore dbName (WriteStore dbName (sr_name store))
           (λ db, (tt, sr_set store (putAll data (sr_get store db)) db))
  end.

(** [saveTagsInStore]: the whole tag list under the key ['allTags']. *)
Definition saveTagsInStore (dbName : string) (tags : list string) : IO unit :=
  saveDataInStoreByKey dbName tagsStore tags "allTags".

Definition getAllDataFromStore {T} (dbName : string) (store : StoreRef T) : IO (list T) :=
  withStore dbName (ReadStore dbName (sr_name store))
    (λ db, (getAll (sr_get store db), db)).

Definition getDataFromStoreByKey {T} (dbName : string) (store : StoreRef T) (key : string)
  : IO (option T) :=
  withStore dbName (ReadStore dbName (sr_name store))
    (λ db, (sr_get store db !! key, db)).

Definition deleteDataFromStoreByKey {T} (dbName : string) (store : StoreRef T)
    (key : string) : IO unit :=
  withStore dbName (WriteStore dbName (sr_name store))
    (λ db, (tt, sr_set store (delete key (sr_get store db)) db)).

(** [getTagsFromStore]: [request.result || []]. *)
Definition getTagsFromStore (dbName : string) : IO (list string) :=
  let* r := getDataFromStoreByKey dbName tagsStore "allTags" in
  io_ret (default [] r).

Definition getMetadata (dbName : string) (key : string) : IO (option MetaValue) :=
  getDataFromStoreByKey dbName metadataStore key.

Definition saveMetadata (dbName : string) (key : string) (value : MetaValue) : IO unit :=
  saveDataInStoreByKey dbName metadataStore value key.

(** ** The state of the component ([useState]) *)

Inductive StatusType : Type := loading | success | error | info.

#[global] Instance StatusType_eq_dec : EqDecision StatusType.
Proof. solve_decision. Defined.

(** [dbStatus]: the transient notification of the sync engine (its [id], a
    clock reading that only tells two notifications apart, is left out). *)
Record DbStatus : Type := mkDbStatus {
  status_message : string;
  status_type : StatusType
}.

(** What the confirmation of a [notification] runs. *)
Inductive OnConfirm : Type := CloseDbManager | ReloadWindow.

Record Notification : Type := mkNotification {
  notification_type : StatusType;
  notification_title : string;
  notification_message : string;
  notification_onConfirm : option OnConfirm
}.

Inductive StatusFilter : Type := all | in_progress | completed.

Record ActiveFilters : Type := mkActiveFilters {
  filter_status : StatusFilter;
  filter_tags : list string
}.

Inductive SortOrder : Type :=
  | createdAt_desc
  | createdAt_asc
  | title_asc
  | title_desc
  | progress_asc
  | progress_desc.

Record AppState : Type := mkAppState {
  activeDbName : string;
  userDbNames : list string;
  events : list Event.t;
  customTags : list string;
  stepTemplates : list StepTemplate.t;
  stepSetTemplates : list StepSetTemplate.t;
  isLoading : bool;
  pendingActions : list PendingAction;
  dbError : option Error;
  actionNotification : option string;
  dbStatus : option DbStatus;
  selectedEvent : option Event.t;
  detailViewPlaceholder : option string;
  eventToEdit : option Event.t;
  eventForStepsEditor : option Event.t;
  activeFilters : ActiveFilters;
  searchQuery : string;
  sortOrder : SortOrder;
  isDbManagerOpen : bool;
  confirmDiscardChanges : option string;
  notification : option Notification;
  importFile : option File
}.

(** The setters of [useState], applied to the state an update finds. *)
Definition setActiveDbName (v : string) (s : AppState) : AppState :=
  mkAppState v (userDbNames s) (events s) (customTags s) (stepTemplates s)
    (stepSetTemplates s) (isLoading s) (pendingActions s) (dbError s)
    (actionNotification s) (dbStatus s) (selectedEvent s) (detailViewPlaceholder s)
    (eventToEdit s) (eventForStepsEditor s) (activeFilters s) (searchQuery s)
    (sortOrder s) (isDbManagerOpen s) (confirmDiscardChanges s) (notification s)
    (importFile s).
Definition setUserDbNames (v : list string) (s : AppState) : AppState :=
  mkAppState (activeDbName s) v (events s) (customTags s) (stepTemplates s)
    (stepSetTemplates s) (isLoading s) (pendingActions s) (dbError s)
    (actionNotification s) (dbStatus s) (selectedEvent s) (detailViewPlaceholder s)
    (eventToEdit s) (eventForStepsEditor s) (activeFilters s) (searchQuery s)
    (sortOrder s) (isDbManagerOpen s) (confirmDiscardChanges s) (notification s)
    (importFile s).
Definition setEvents (v : list Event.t) (s : AppState) : AppState :=
  mkAppState (activeDbName s) (userDbNames s) v (customTags s) (stepTemplates s)
    (stepSetTemplates s) (isLoading s) (pendingActions s) (dbError s)
    (actionNotification s) (dbStatus s) (selectedEvent s) (detailViewPlaceholder s)
    (eventToEdit s) (eventForStepsEditor s) (activeFilters s) (searchQuery s)
    (sortOrder s) (isDbManagerOpen s) (confirmDiscardChanges s) (notification s)
    (importFile s).
Definition setCustomTags (v : list string) (s : AppState) : AppState :=
  mkAppState (activeDbName s) (userDbNames s) (events s) v (stepTemplates s)
    (stepSetTemplates s) (isLoading s) (pendingActions s) (dbError s)
    (actionNotification s) (dbStatus s) (selectedEvent s) (detailViewPlaceholder s)
    (eventToEdit s) (eventForStepsEditor s) (activeFilters s) (searchQuery s)
    (sortOrder s) (isDbManagerOpen s) (confirmDiscardChanges s) (notification s)
    (importFile s).
Definition setStepTemplates (v : list StepTemplate.t) (s : AppState) : AppState :=
  mkAppState (activeDbName s) (userDbNames s) (events s) (customTags s) v
    (stepSetTemplates s) (isLoading s) (pendingActions s) (dbError s)
    (actionNotification s) (dbStatus s) (selectedEvent s) (detailViewPlaceholder s)
    (eventToEdit s) (eventForStepsEditor s) (activeFilters s) (searchQuery s)
    (sortOrder s) (isDbManagerOpen s) (confirmDiscardChanges s) (notification s)
    (importFile s).
Definition setStepSetTemplates (v : list StepSetTemplate.t) (s : AppState) : AppState :=
  mkAppState (activeDbName s) (userDbNames s) (events s) (customTags s)
    (stepTemplates s) v (isLoading s) (pendingActions s) (dbError s)
    (actionNotification s) (dbStatus s) (selectedEvent s) (detailViewPlaceholder s)
    (eventToEdit s) (eventForStepsEditor s) (activeFilters s) (searchQuery s)
    (sortOrder s) (isDbManagerOpen s) (confirmDiscardChanges s) (notification s)
    (importFile s).
Definition setIsLoading (v : bool) (s : AppState) : AppState :=
  mkAppState (activeDbName s) (userDbNames s) (events s) (customTags s)
    (stepTemplates s) (stepSetTemplates s) v (pendingActions s) (dbError s)
    (actionNotification s) (dbStatus s) (selectedEvent s) (detailViewPlaceholder s)
    (eventToEdit s) (eventForStepsEditor s) (activeFilters s) (searchQuery s)
    (sortOrder s) (isDbManagerOpen s) (confirmDiscardChanges s) (notification s)
    (importFile s).
Definition setPendingActions (v : list PendingAction) (s : AppState) : AppState :=
  mkAppState (activeDbName s) (userDbNames s) (events s) (customTags s)
    (stepTemplates s) (stepSetTemplates s) (isLoading s) v (dbError s)
    (actionNotification s) (dbStatus s) (selectedEvent s) (detailViewPlaceholder s)
    (eventToEdit s) (eventForStepsEditor s) (activeFilters s) (searchQuery s)
    (sortOrder s) (isDbManagerOpen s) (confirmDiscardChanges s) (notification s)
    (importFile s).
Definition setDbError (v : option Error) (s : AppState) : AppState :=
  mkAppState (activeDbName s) (userDbNames s) (events s) (customTags s)
    (stepTemplates s) (stepSetTemplates s) (isLoading s) (pendingActions s) v
    (actionNotification s) (dbStatus s) (selectedEvent s) (detailViewPlaceholder s)
    (eventToEdit s) (eventForStepsEditor s) (activeFilters s) (searchQuery s)
    (sortOrder s) (isDbManagerOpen s) (confirmDiscardChanges s) (notification s)
    (importFile s).
Definition setActionNotification (v : option string) (s : AppState) : AppState :=
  mkAppState (activeDbName s) (userDbNames s) (events s) (customTags s)
    (stepTemplates s) (stepSetTemplates s) (isLoading s) (pendingActions s)
    (dbError s) v (dbStatus s) (selectedEvent s) (detailViewPlaceholder s)
    (eventToEdit s) (eventForStepsEditor s) (activeFilters s) (searchQuery s)
    (sortOrder s) (isDbManagerOpen s) (confirmDiscardChanges s) (notification s)
    (importFile s).
Definition setDbStatus (v : option DbStatus) (s : AppState) : AppState :=
  mkAppState (activeDbName s) (userDbNames s) (events s) (customTags s)
    (stepTemplates s) (stepSetTemplates s) (isLoading s) (pendingActions s)
    (dbError s) (actionNotification s) v (selectedEvent s) (detailViewPlaceholder s)
    (eventToEdit s) (eventForStepsEditor s) (activeFilters s) (searchQuery s)
    (sortOrder s) (isDbManagerOpen s) (confirmDiscardChanges s) (notification s)
    (importFile s).
Definition setSelectedEvent (v : option Event.t) (s : AppState) : AppState :=
  mkAppState (activeDbName s) (userDbNames s) (events s) (customTags s)
    (stepTemplates s) (stepSetTemplates s) (isLoading s) (pendingActions s)
    (dbError s) (actionNotification s) (dbStatus s) v (detailViewPlaceholder s)
    (eventToEdit s) (eventForStepsEditor s) (activeFilters s) (searchQuery s)
    (sortOrder s) (isDbManagerOpen s) (confirmDiscardChanges s) (notification s)
    (importFile s).
Definition setDetailViewPlaceholder (v : option string) (s : AppState) : AppState :=
  mkAppState (activeDbName s) (userDbNames s) (events s) (customTags s)
    (stepTemplates s) (stepSetTemplates s) (isLoading s) (pendingActions s)
    (dbError s) (actionNotification s) (dbStatus s) (selectedEvent s) v
    (eventToEdit s) (eventForStepsEditor s) (activeFilters s) (searchQuery s)
    (sortOrder s) (isDbManagerOpen s) (confirmDiscardChanges s) (notification s)
    (importFile s).
Definition setEventToEdit (v : option Event.t) (s : AppState) : AppState :=
  mkAppState (activeDbName s) (userDbNames s) (events s) (customTags s)
    (stepTemplates s) (stepSetTemplates s) (isLoading s) (pendingActions s)
    (dbError s) (actionNotification s) (dbStatus s) (selectedEvent s)
    (detailViewPlaceholder s) v (eventForStepsEditor s) (activeFilters s)
    (searchQuery s) (sortOrder s) (isDbManagerOpen s) (confirmDiscardChanges s)
    (notification s) (importFile s).
Definition setEventForStepsEditor (v : option Event.t) (s : AppState) : AppState :=
  mkAppState (activeDbName s) (userDbNames s) (events s) (customTags s)
    (stepTemplates s) (stepSetTemplates s) (isLoading s) (pendingActions s)
    (dbError s) (actionNotification s) (dbStatus s) (selectedEvent s)
    (detailViewPlaceholder s) (eventToEdit s) v (activeFilters s) (searchQuery s)
    (sortOrder s) (isDbManagerOpen s) (confirmDiscardChanges s) (notification s)
    (importFile s).
Definition setActiveFilters (v : ActiveFilters) (s : AppState) : AppState :=
  mkAppState (activeDbName s) (userDbNames s) (events s) (customTags s)
    (stepTemplates s) (stepSetTemplates s) (isLoading s) (pendingActions s)
    (dbError s) (actionNotification s) (dbStatus s) (selectedEvent s)
    (detailViewPlaceholder s) (eventToEdit s) (eventForStepsEditor s) v
    (searchQuery s) (sortOrder s) (isDbManagerOpen s) (confirmDiscardChanges s)
    (notification s) (importFile s).
Definition setSearchQuery (v : string) (s : AppState) : AppState :=
  mkAppState (activeDbName s) (userDbNames s) (events s) (customTags s)
    (stepTemplates s) (stepSetTemplates s) (isLoading s) (pendingActions s)
    (dbError s) (actionNotification s) (dbStatus s) (selectedEvent s)
    (detailViewPlaceholder s) (eventToEdit s) (eventForStepsEditor s)
    (activeFilters s) v (sortOrder s) (isDbManagerOpen s) (confirmDiscardChanges s)
    (notification s) (importFile s).
Definition setSortOrder (v : SortOrder) (s : AppState) : AppState :=
  mkAppState (activeDbName s) (userDbNames s) (events s) (customTags s)
    (stepTemplates s) (stepSetTemplates s) (isLoading s) (pendingActions s)
    (dbError s) (actionNotification s) (dbStatus s) (selectedEvent s)
    (detailViewPlaceholder s) (eventToEdit s) (eventForStepsEditor s)
    (activeFilters s) (searchQuery s) v (isDbManagerOpen s)
    (confirmDiscardChanges s) (notification s) (importFile s).
Definition setIsDbManagerOpen (v : bool) (s : AppState) : AppState :=
  mkAppState (activeDbName s) (userDbNames s) (events s) (customTags s)
    (stepTemplates s) (stepSetTemplates s) (isLoading s) (pendingActions s)
    (dbError s) (actionNotification s) (dbStatus s) (selectedEvent s)
    (detailViewPlaceholder s) (eventToEdit s) (eventForStepsEditor s)
    (activeFilters s) (searchQuery s) (sortOrder s) v (confirmDiscardChanges s)
    (notification s) (importFile s).
Definition setConfirmDiscardChanges (v : option string) (s : AppState) : AppState :=
  mkAppState (activeDbName s) (userDbNames s) (events s) (customTags s)
    (stepTemplates s) (stepSetTemplates s) (isLoading s) (pendingActions s)
    (dbError s) (actionNotification s) (dbStatus s) (selectedEvent s)
    (detailViewPlaceholder s) (eventToEdit s) (eventForStepsEditor s)
    (activeFilters s) (searchQuery s) (sortOrder s) (isDbManagerOpen s) v
    (notification s) (importFile s).
Definition setNotification (v : option Notification) (s : AppState) : AppState :=
  mkAppState (activeDbName s) (userDbNames s) (events s) (customTags s)
    (stepTemplates s) (stepSetTemplates s) (isLoading s) (pendingActions s)
    (dbError s) (actionNotification s) (dbStatus s) (selectedEvent s)
    (detailViewPlaceholder s) (eventToEdit s) (eventForStepsEditor s)
    (activeFilters s) (searchQuery s) (sortOrder s) (isDbManagerOpen s)
    (confirmDiscardChanges s) v (importFile s).
Definition setImportFile (v : option File) (s : AppState) : AppState :=
  mkAppState (activeDbName s) (userDbNames s) (events s) (customTags s)
    (stepTemplates s) (stepSetTemplates s) (isLoading s) (pendingActions s)
    (dbError s) (actionNotification s) (dbStatus s) (selectedEvent s)
    (detailViewPlaceholder s) (eventToEdit s) (eventForStepsEditor s)
    (activeFilters s) (searchQuery s) (sortOrder s) (isDbManagerOpen s)
    (confirmDiscardChanges s) (notification s) v.

(** [s |> f |> g]: the updates of a handler, in the order it issues them. *)
Notation "s |> f" := (f s) (at level 45, left associativity, only parsing).

(** ** Constants and helpers of the module *)

Definition DB_PREFIX : string := "essenmelia-db".
Definition SETTINGS_DB_NAME : string := "essenmelia-db-settings".

(** A string is falsy exactly when it is empty. *)
Definition truthy (s : string) : bool := negb (bool_decide (s = "")).

(** The truth value of what a read of the metadata store gives: nothing
    ([undefined]), [false], zero and the empty string are falsy. *)
Definition metaTruthy (v : option MetaValue) : bool :=
  match v with
  | None => false
  | Some (MetaBool b) => b
  | Some (MetaNumber q) => negb (Qeq_bool q 0)
  | Some (MetaString s) => truthy s
  end.

(** [s.replace(pat, '')] with a non-empty [pat]: the first occurrence goes. *)
Fixpoint removeFirst (pat s : string) : string :=
  if String.prefix pat s then String.substring (String.length pat)
                                (String.length s - String.length pat)%nat s
  else match s with
       | EmptyString => EmptyString
       | String c s' => String c (removeFirst pat s')
       end.

(** The double-quote character, as a string. *)
Definition dquote : string := String (Ascii.ascii_of_nat 34) EmptyString.

(** [new Date(v)]: the same instant. *)
Definition newDateOf (v : Z) : Z := v.

Definition reviveEventDates (event : Event.t) : Event.t :=
  event
  |> Event.with_createdAt (newDateOf (Event.createdAt event))
  |> Event.with_steps
       ((λ step, ProgressStep.with_timestamp (newDateOf (ProgressStep.timestamp step)) step)
          <$> Event.steps event).

(** The in-memory tuple of one database, as [loadData] returns it. *)
Module Snapshot.
Record t : Type := mk {
  events : list Event.t;
  tags : list string;
  stepTemplates : list StepTemplate.t;
  stepSetTemplates : list StepSetTemplate.t
}.
End Snapshot.

(** [localStorage.getItem(k) === 'true']. *)
Definition flagSet (w : World) (k : string) : bool :=
  bool_decide (localStorage w !! k = Some "true").

Definition setItem (k v : string) (w : World) : World :=
  setLocalStorage (<[k := v]> (localStorage w)) w.

Definition removeItem (k : string) (w : World) : World :=
  setLocalStorage (delete k (localStorage w)) w.

(** [discoverDatabases]: the names the engine lists that carry the prefix,
    the settings database apart; nothing when the listing is unsupported or
    fails. *)
Definition discoverDatabases (w : World) : list string :=
  if negb (hasDatabasesApi w) then []
  else if rejects w ListDatabases then []
  else filter (λ n, String.prefix DB_PREFIX n = true ∧ n ≠ SETTINGS_DB_NAME)
         (map_to_list (databases w)).*1.

(** ** Sample data for the worked instances *)

(** The state of the component at its first render ([useState]). *)
Definition initialState : AppState :=
mkAppState "" [] [] [] [] [] true [] None None None None None None None
  (mkActiveFilters all []) "" createdAt_desc false None None None.

(** Sample values for the three reserved names (any three distinct names
    do), and two user databases. *)
Definition sampleDefaultName : string := "essenmelia-db-default".
Definition sampleDemoName : string := "essenmelia-db-demo".
Definition sampleTempName : string := "essenmelia-temp-storage".
Definition sampleWorkName : string := "essenmelia-db-work".
Definition sampleHomeName : string := "essenmelia-db-home".

Definition sampleTutorial : Event.t :=
Event.mk "event-tutorial-1" "Tour" "" 0 [] None (Some ["教程"]) None.

(** An event of the work database, tagged "Work", one step of two done. *)
Definition sampleReport : Event.t :=
Event.mk "event-1" "Report" "Quarterly report" 1700000000000
  [ ProgressStep.mk "step-1" "Draft" 1700000100000 true;
    ProgressStep.mk "step-2" "Review" 1700000200000 false ]
  None (Some ["Work"]) None.

(** A finished event, created earlier than [sampleReport]. *)
Definition sampleArchive : Event.t :=
Event.mk "event-0" "Archive" "" 1600000000000
  [ ProgressStep.mk "step-0" "File" 1600000100000 true ] None None None.

(** An event added while the component could not write. *)
Definition sampleTrip : Event.t :=
Event.mk "event-2" "Trip" "" 1700000500000 [] None (Some []) (Some false).

(** [sampleReport] after an edit of its title. *)
Definition sampleReportEdited : Event.t :=
Event.mk "event-1" "Report v2" "Quarterly report" 1700000000000
  [ ProgressStep.mk "step-1" "Draft" 1700000100000 true;
    ProgressStep.mk "step-2" "Review" 1700000200000 false ]
  None (Some ["Work"]) (Some false).

Definition sampleTemplate : StepTemplate.t := StepTemplate.mk "template-1" "Plan".

Definition sampleSet : StepSetTemplate.t :=
StepSetTemplate.mk "set-1" "Release"
  [ StepSetTemplateStep.mk "set-1-step-1" "Test";
    StepSetTemplateStep.mk "set-1-step-2" "Deploy" ].

(** A seeded user database holding [sampleReport], one tag and templates. *)
Definition sampleWorkDb : Database :=
mkDatabase {[ "event-1" := sampleReport ]} {[ "allTags" := ["Work"] ]}
  {[ "template-1" := sampleTemplate ]} {[ "set-1" := sampleSet ]}
  {[ "isSeeded" := MetaBool true ]} ∅.

(** A world with the work database, after an earlier launch; the engine
    rejects the requests [rejected] says. *)
Definition sampleWorld (rejected : Request → bool) : World :=
mkWorld {[ sampleWorkName := sampleWorkDb ]} ∅
  {[ "hasLaunchedBefore" := "true" ]} true rejected.

(** A browser profile that never ran the application. *)
Definition firstLaunchWorld : World := mkWorld ∅ ∅ ∅ true (λ _, false).

(** Two actions queued while degraded: an added event and a renamed tag. *)
Definition sampleQueue : list PendingAction :=
[ ADD_EVENT sampleTrip None; RENAME_TAG "Work" "Job" ].

(** Degraded on the home database (its last load failed), two actions
    pending, a template edited in memory. *)
Definition sampleDegraded : AppState :=
initialState
|> setIsLoading false
|> setActiveDbName sampleHomeName
|> setDbError (Some (StorageError (OpenDb sampleHomeName)))
|> setEvents [sampleTrip]
|> setStepTemplates [StepTemplate.mk "template-9" "Edited while degraded"]
|> setPendingActions sampleQueue.

(** Healthy on the work database with one action left from loading. *)
Definition sampleQueued : AppState :=
initialState
|> setIsLoading false
|> setActiveDbName sampleWorkName
|> setEvents [sampleReport]
|> setCustomTags ["Work"]
|> setPendingActions [ADD_EVENT sampleTrip None].

(** Degraded, with an update of [sampleReport] already queued. *)
Definition sampleEditing : AppState :=
initialState
|> setIsLoading false
|> setActiveDbName sampleWorkName
|> setDbError (Some (StorageError (WriteStore sampleWorkName STORE_events)))
|> setEvents [sampleReport]
|> setCustomTags ["Work"]
|> setEventToEdit (Some sampleReport)
|> setPendingActions [ UPDATE_EVENT sampleReport None; ADD_TAG "Urgent" ].

(** Volatile mode, empty, with a file chosen for import. *)
Definition sampleVolatile : AppState :=
initialState
|> setIsLoading false
|> setActiveDbName sampleTempName
|> setImportFile (Some (mkFile "backup.json" "application/json")).

(** Healthy on a database not yet created, with a file chosen for import. *)
Definition sampleImporting : AppState :=
initialState
|> setIsLoading false
|> setActiveDbName sampleHomeName
|> setImportFile (Some (mkFile "backup.json" "application/json")).

(** The engine rejects every write to the events store of the work database. *)
Definition rejectEventWrites (r : Request) : bool :=
bool_decide (r = WriteStore sampleWorkName STORE_events).

Section App.

Set Default Proof Using "Type".

(** The three reserved names come from [components/DatabaseManagerModal],
    which is not among the sources: they are parameters here. *)
Variable DEFAULT_DB_NAME : string.
Variable DEMO_DB_NAME : string.
Variable TEMP_STORAGE_DB_NAME_EXPORT : string.

(** The built-in datasets of the module ([tutorialEvent], [demoEvents],
    [demoStepTemplates], [demoStepSetTemplates]) are data; they are taken
    as given. *)
Variable tutorialEvent : Event.t.
Variable demoEvents : list Event.t.
Variable demoStepTemplates : list StepTemplate.t.
Variable demoStepSetTemplates : list StepSetTemplate.t.

Definition demoTags : list string :=
  dedupe (concat ((λ e, default [] (Event.tags e)) <$> demoEvents)).

Definition isTempStorageMode (s : AppState) : bool :=
  bool_decide (activeDbName s = TEMP_STORAGE_DB_NAME_EXPORT).

(** [isLoading || isTempStorageMode || dbError]: the component cannot write
    at once, so a mutation is queued. *)
Definition mustQueue (s : AppState) : bool :=
  isLoading s || isTempStorageMode s || bool_decide (dbError s ≠ None).

Definition showActionNotification (message : string) (s : AppState) : AppState :=
  s |> setActionNotification (Some message).

Definition getDisplayName (fullName : string) : string :=
  if bool_decide (fullName = DEFAULT_DB_NAME) then "我的数据库"
  else if bool_decide (fullName = DEMO_DB_NAME) then "演示数据库"
  else if bool_decide (fullName = TEMP_STORAGE_DB_NAME_EXPORT) then "临时存储"
  else removeFirst (DB_PREFIX +:+ "-") fullName.

(** *** Saving and loading a snapshot *)

Definition saveDataToDb (dbName : string) (eventsToSave : list Event.t)
    (tagsToSave : list string) (templatesToSave : list StepTemplate.t)
    (setsToSave : list StepSetTemplate.t) : IO unit :=
  if bool_decide (dbName = DEMO_DB_NAME)
     || bool_decide (dbName = TEMP_STORAGE_DB_NAME_EXPORT)
  then io_ret tt
  else io_all [ saveDataInStore dbName eventsStore eventsToSave;
                saveTagsInStore dbName tagsToSave;
                saveDataInStore dbName stepTemplatesStore templatesToSave;
                saveDataInStore dbName stepSetTemplatesStore setsToSave ].

(** The four reads of a seeded database, issued together. *)
Definition readSnapshot (dbToLoad : string) : IO Snapshot.t :=
  let* (dbEvents, (dbTags, (dbStepTemplates, dbStepSetTemplates))) :=
    io_both (getAllDataFromStore dbToLoad eventsStore)
      (io_both (getTagsFromStore dbToLoad)
         (io_both (getAllDataFromStore dbToLoad stepTemplatesStore)
                  (getAllDataFromStore dbToLoad stepSetTemplatesStore))) in
  io_ret (Snapshot.mk dbEvents dbTags dbStepTemplates dbStepSetTemplates).

Definition loadData (dbToLoad : string) : IO Snapshot.t :=
  if bool_decide (dbToLoad = DEMO_DB_NAME)
  then io_ret (Snapshot.mk demoEvents demoTags demoStepTemplates demoStepSetTemplates)
  else
    let* _ := initDB dbToLoad in
    let* isSeeded := getMetadata dbToLoad "isSeeded" in
    if negb (metaTruthy isSeeded) && bool_decide (dbToLoad = DEFAULT_DB_NAME) then
      let startupEvents := [tutorialEvent] in
      let startupTags := ["教程"] in
      let* _ := io_all [ saveDataInStore dbToLoad eventsStore startupEvents;
                         saveTagsInStore dbToLoad startupTags;
                         saveDataInStore dbToLoad stepTemplatesStore [];
                         saveDataInStore dbToLoad stepSetTemplatesStore [] ] in
      let* _ := saveMetadata dbToLoad "isSeeded" (MetaBool true) in
      io_ret (Snapshot.mk startupEvents startupTags [] [])
    else if negb (metaTruthy isSeeded) then
      let* _ := io_all [ saveDataInStore dbToLoad eventsStore [];
                         saveTagsInStore dbToLoad [];
                         saveDataInStore dbToLoad stepTemplatesStore [];
                         saveDataInStore dbToLoad stepSetTemplatesStore [] ] in
      let* _ := saveMetadata dbToLoad "isSeeded" (MetaBool true) in
      io_ret (Snapshot.mk [] [] [] [])
    else readSnapshot dbToLoad.

(** *** Startup: the choice of the active database *)

(** [initializeApp], from [hasLaunchedBefore] to the choice of [activeDb]:
    the chosen name, the names kept for the database manager, and the
    writes to [localStorage]. *)
Definition initializeApp_activeDb (w : World) : string * list string * World :=
  let hasLaunchedBefore := flagSet w "hasLaunchedBefore" in
  let detectedDbNames := discoverDatabases w in
  if negb hasLaunchedBefore then
    let activeDb := DEFAULT_DB_NAME in
    (activeDb,
     if bool_decide (DEFAULT_DB_NAME ∈ detectedDbNames) then detectedDbNames
     else DEFAULT_DB_NAME :: detectedDbNames,
     w |> setItem "activeDbName" activeDb |> setItem "hasLaunchedBefore" "true")
  else
    match detectedDbNames with
    | [] => (TEMP_STORAGE_DB_NAME_EXPORT, detectedDbNames, w |> removeItem "activeDbName")
    | first :: _ =>
        let storedActiveDb := localStorage w !! "activeDbName" in
        match storedActiveDb with
        | Some stored =>
            if negb (truthy stored) || negb (bool_decide (stored ∈ detectedDbNames)) then
              let activeDb :=
                match find (λ name, bool_decide (name = DEFAULT_DB_NAME)) detectedDbNames with
                | Some found => if truthy found then found else first
                | None => first
                end in
              (activeDb, detectedDbNames, w |> setItem "activeDbName" activeDb)
            else (stored, detectedDbNames, w)
        | None =>
            let activeDb :=
              match find (λ name, bool_decide (name = DEFAULT_DB_NAME)) detectedDbNames with
              | Some found => if truthy found then found else first
              | None => first
              end in
            (activeDb, detectedDbNames, w |> setItem "activeDbName" activeDb)
        end
    end.

(** The [try] block of [initializeApp]: load, and flush a queue that is
    already there. It yields the snapshot to adopt and whether it flushed. *)
Definition initializeApp_load (activeDb : string) (s : AppState)
  : IO (Snapshot.t * bool) :=
  let* data := loadData activeDb in
  let finalEvents := reviveEventDates <$> Snapshot.events data in
  let finalTags := Snapshot.tags data in
  match pendingActions s with
  | [] => io_ret (Snapshot.mk finalEvents finalTags (Snapshot.stepTemplates data)
                    (Snapshot.stepSetTemplates data), false)
  | _ =>
      let '(processedEvents, processedTags) :=
        applyPendingActions finalEvents finalTags (pendingActions s) in
      let* _ := saveDataToDb activeDb processedEvents processedTags
                  (Snapshot.stepTemplates data) (Snapshot.stepSetTemplates data) in
      io_ret (Snapshot.mk processedEvents processedTags (Snapshot.stepTemplates data)
                (Snapshot.stepSetTemplates data), true)
  end.

(** [initializeApp] (the welcome modal and the global settings, which live
    in a database of their own, are left out). *)
Definition initializeApp (s : AppState) (w : World) : AppState * World :=
  let s0 := s |> setIsLoading true |> setDbError None in
  let '(activeDb, detectedDbNames, w1) := initializeApp_activeDb w in
  let s1 := s0 |> setUserDbNames detectedDbNames |> setActiveDbName activeDb in
  if bool_decide (activeDb = TEMP_STORAGE_DB_NAME_EXPORT) then
    (s1 |> setEvents [] |> setCustomTags [] |> setStepTemplates []
        |> setStepSetTemplates []
        |> setDbStatus (Some (mkDbStatus "无数据库。更改将是临时的。" info))
        |> setIsLoading false, w1)
  else
    match initializeApp_load activeDb s w1 with
    | (Ok (data, flushed), w2) =>
        ((if flushed
          then s1 |> setPendingActions []
                  |> showActionNotification "临时更改已成功保存。"
          else s1)
         |> setEvents (Snapshot.events data)
         |> setCustomTags (Snapshot.tags data)
         |> setStepTemplates (Snapshot.stepTemplates data)
         |> setStepSetTemplates (Snapshot.stepSetTemplates data)
         |> setIsLoading false, w2)
    | (Err e, w2) =>
        (s1 |> setDbError (Some e) |> setEvents [] |> setCustomTags []
            |> setDbStatus (Some (mkDbStatus "数据库加载失败。更改将临时保存。" error))
            |> setIsLoading false, w2)
    end.

(** *** The sync engine *)

(** The side write of one action: the original image of its event. *)
Definition syncImage (dbName : string) (action : PendingAction) : IO unit :=
  match action with
  | ADD_EVENT event (Some image) =>
      saveDataInStoreByKey dbName originalImagesStore image (Event.id event)
  | UPDATE_EVENT event (Some ImageRemove) =>
      deleteDataFromStoreByKey dbName originalImagesStore (Event.id event)
  | UPDATE_EVENT event (Some (ImageFile image)) =>
      saveDataInStoreByKey dbName originalImagesStore image (Event.id event)
  | DELETE_EVENT eventId =>
      deleteDataFromStoreByKey dbName originalImagesStore eventId
  | _ => io_ret tt
  end.

(** The [try] block of [performSync]: one combined write. *)
Definition performSync_write (s : AppState) (processedEvents : list Event.t)
    (processedTags : list string) : IO unit :=
  if bool_decide (activeDbName s ≠ DEMO_DB_NAME) then
    io_all (saveDataInStore (activeDbName s) eventsStore processedEvents
            :: saveTagsInStore (activeDbName s) processedTags
            :: (syncImage (activeDbName s) <$> pendingActions s))
  else io_ret tt.

Definition performSync (s : AppState) (w : World) : AppState * World :=
  let s1 :=
    s |> setDbStatus
           (Some (mkDbStatus ("正在同步 " +:+ pretty (length (pendingActions s))
                              +:+ " 项更改...") loading)) in
  let '(processedEvents, processedTags) :=
    applyPendingActions (events s) (customTags s) (pendingActions s) in
  match performSync_write s processedEvents processedTags w with
  | (Ok _, w') =>
      (s1 |> setEvents processedEvents
          |> setCustomTags processedTags
          |> setPendingActions []
          |> setDbError None
          |> setDbStatus (Some (mkDbStatus "同步完成!" success)), w')
  | (Err e, w') =>
      (s1 |> setDbError (Some e)
          |> setDbStatus (Some (mkDbStatus "同步失败！更改未被保存。" error)), w')
  end.

(** The sync effect, when its debounce timer fires: nothing to do while
    loading, volatile, degraded or with an empty queue. *)
Definition syncEffect (s : AppState) (w : World) : AppState * World :=
  if isLoading s || isTempStorageMode s || bool_decide (dbError s ≠ None)
     || bool_decide (pendingActions s = [])
  then
    if negb (isLoading s) && negb (isTempStorageMode s) && bool_decide (dbError s = None)
       && bool_decide (status_message <$> dbStatus s = Some "正在连接数据库...")
    then (s |> setDbStatus None, w)
    else (s, w)
  else performSync s w.

(** *** Mutations *)

(** [handleAddTag], called from the render [s]; [acc] is the state its
    functional updates find. *)
Definition handleAddTag (s : AppState) (tag : string) (acc : AppState) : AppState :=
  if bool_decide (tag ∈ customTags s) then acc
  else if mustQueue s then
    acc |> (λ a, setCustomTags (customTags a ++ [tag]) a)
        |> (λ a, setPendingActions (pendingActions a ++ [ADD_TAG tag]) a)
  else acc |> (λ a, setCustomTags (customTags a ++ [tag]) a).

(** The event [handleUpdateEvent] stores: [hasOriginalImage] is recomputed. *)
Definition finalEventOf (s : AppState) (updatedEvent : Event.t)
    (originalImage : option ImageUpdate) : Event.t :=
  let isImageChanged :=
    bool_decide (originalImage ≠ None)
    || bool_decide (Event.imageUrl updatedEvent ≠ (eventToEdit s ≫= Event.imageUrl)) in
  updatedEvent
  |> Event.with_hasOriginalImage
       (Some (if isImageChanged
              then match originalImage with Some (ImageFile _) => true | _ => false end
              else default false (eventToEdit s ≫= Event.hasOriginalImage))).

Definition handleUpdateEvent (updatedEvent : Event.t) (originalImage : option ImageUpdate)
    (s : AppState) (w : World) : AppState * World :=
  let finalEvent := finalEventOf s updatedEvent originalImage in
  let updatedTags := default [] (Event.tags finalEvent) in
  let newTagsToCreate := filter (λ tag, tag ∉ customTags s) updatedTags in
  let s1 := foldl (λ acc tag, handleAddTag s tag acc) s newTagsToCreate in
  let s2 :=
    match newTagsToCreate with
    | [] => s1
    | _ => s1 |> showActionNotification
                   ("已添加新标签: " +:+ String.concat ", " newTagsToCreate
                    +:+ (if mustQueue s then " (已临时保存)" else ""))
    end in
  let replace := λ e, if decide (Event.id e = Event.id finalEvent) then finalEvent else e in
  let '(s3, w') :=
    if mustQueue s then
      (s2 |> (λ a, setEvents (replace <$> events a) a)
          |> (λ a, setPendingActions
                     (filter (λ a', ¬ isUpdateEventOf (Event.id finalEvent) a')
                        (pendingActions a)
                      ++ [UPDATE_EVENT finalEvent originalImage]) a)
          |> showActionNotification "更新已临时保存", w)
    else
      (s2 |> setEvents (replace <$> events s),
       match originalImage with
       | Some (ImageFile image) =>
           (saveDataInStoreByKey (activeDbName s) originalImagesStore image
              (Event.id finalEvent) w).2
       | Some ImageRemove =>
           (deleteDataFromStoreByKey (activeDbName s) originalImagesStore
              (Event.id finalEvent) w).2
       | None => w
       end) in
  let s4 :=
    if bool_decide (Event.id <$> selectedEvent s = Some (Event.id finalEvent))
    then s3 |> setSelectedEvent (Some finalEvent) |> setDetailViewPlaceholder None
    else s3 in
  let s5 :=
    if bool_decide (Event.id <$> eventToEdit s = Some (Event.id finalEvent))
    then s4 |> setEventToEdit None else s4 in
  let s6 :=
    if bool_decide (Event.id <$> eventForStepsEditor s = Some (Event.id finalEvent))
    then s5 |> setEventForStepsEditor (Some finalEvent) else s5 in
  (s6, w').

Definition handleDeleteTags (tagsToDelete : list string) (s : AppState) : AppState :=
  let newTags := stripTags tagsToDelete (customTags s) in
  let newEvents :=
    (λ e, Event.with_tags (stripTags tagsToDelete <$> Event.tags e) e) <$> events s in
  (if mustQueue s then
     s |> setEvents newEvents
       |> setCustomTags newTags
       |> (λ a, setPendingActions (pendingActions a ++ [DELETE_TAGS tagsToDelete]) a)
       |> showActionNotification "标签删除已暂存"
   else
     s |> setEvents newEvents |> setCustomTags newTags)
  |> (λ a, setActiveFilters
             (mkActiveFilters (filter_status (activeFilters a))
                (stripTags tagsToDelete (filter_tags (activeFilters a)))) a).

(** *** Export and import of a snapshot *)

(** The message of an error, as a notification shows it; the engine's own
    messages are not the module's and are taken as given. *)
Variable engineMessage : Request → string.

Definition errorMessage (e : Error) : string :=
  match e with
  | StorageError r => engineMessage r
  | InvalidFileFormat => "文件格式无效。"
  | LastDatabaseDeleted => "The last database was deleted."
  end.

(** The exported document. JSON writes a date as ISO text (the same
    instant) and leaves an absent optional field absent. *)
Record ExportDoc : Type := mkExportDoc {
  doc_version : Z;
  doc_exportedAt : Z;
  doc_data : Snapshot.t
}.

(** [handleExportData] at clock reading [now]: the state, the world and
    the document handed to the browser for download, if any. *)
Definition handleExportData (now : Z) (s : AppState) (w : World)
  : AppState * World * option ExportDoc :=
  if bool_decide (activeDbName s = DEMO_DB_NAME) && negb (isTempStorageMode s) then
    (s |> setNotification
            (Some (mkNotification error "导出受限" "无法导出演示数据库。" None)), w, None)
  else
    let payload : IO Snapshot.t :=
      if isTempStorageMode s || bool_decide (dbError s ≠ None) then
        io_ret (Snapshot.mk (events s) (customTags s) (stepTemplates s)
                  (stepSetTemplates s))
      else readSnapshot (activeDbName s) in
    match payload w with
    | (Ok exportDataPayload, w') =>
        (s |> setNotification
                (Some (mkNotification success "导出成功" "您的数据已开始下载。" None)),
         w', Some (mkExportDoc 1 now exportDataPayload))
    | (Err e, w') =>
        (s |> setNotification
                (Some (mkNotification error "导出失败"
                         ("导出数据时发生错误: " +:+ errorMessage e) None)), w', None)
    end.

(** What [JSON.parse] makes of the chosen file: not JSON at all, or a
    value whose [data] and its four fields may each be missing. Records
    that are present are taken to be well-formed. *)
Record ImportData : Type := mkImportData {
  iEvents : option (list Event.t);
  iTags : option (list string);
  iStepT : option (list StepTemplate.t);
  iStepSetT : option (list StepSetTemplate.t)
}.

Inductive ImportedJson : Type :=
  | NotJson
  | JsonValue (data : option ImportData).

(** The file an export writes, read back. *)
Definition jsonOfExport (doc : ExportDoc) : ImportedJson :=
  JsonValue (Some (mkImportData (Some (Snapshot.events (doc_data doc)))
                     (Some (Snapshot.tags (doc_data doc)))
                     (Some (Snapshot.stepTemplates (doc_data doc)))
                     (Some (Snapshot.stepSetTemplates (doc_data doc))))).

(** What an import reads from its environment: [stamp k] is the text
    [`${Date.now()}-${Math.random().toString(36).substring(2, 9)}`] of the
    [k]-th call of [generateNewId], and [dateNow d] the instant of the [d]-th
    [new Date()]. *)
Record Oracle : Type := mkOracle {
stamp : nat → string;
dateNow : nat → Z
}.

(** A computation that reads the oracle: from the numbers of stamps and of
    dates read so far to its value and the numbers read after it. *)
Definition Gen (A : Type) : Type := nat * nat → A * (nat * nat).

Definition generateNewId (o : Oracle) (prefix : string) : Gen string :=
λ st, (prefix +:+ "-" +:+ stamp o st.1, (S st.1, st.2)).

(** [new Date()]. *)
Definition newDate (o : Oracle) : Gen Z := λ st, (dateNow o st.2, (st.1, S st.2)).

(** [xs.map(f)] where [f] reads the oracle, element after element. *)
Fixpoint gen_map {A B} (f : A → Gen B) (xs : list A) : Gen (list B) :=
  match xs with
  | [] => λ n, ([], n)
  | x :: xs' => λ n, let '(y, n1) := f x n in
                     let '(ys, n2) := gen_map f xs' n1 in
                     (y :: ys, n2)
  end.

Definition importStep (o : Oracle) (step : ProgressStep.t) : Gen ProgressStep.t :=
  λ n, let '(newId, n1) := generateNewId o "step" n in
       let '(now, n2) := newDate o n1 in
       (step |> ProgressStep.with_id newId |> ProgressStep.with_timestamp now, n2).

Definition importEvent (o : Oracle) (event : Event.t) : Gen Event.t :=
  λ n, let '(newId, n1) := generateNewId o "event" n in
       let '(now, n2) := newDate o n1 in
       let '(newSteps, n3) := gen_map (importStep o) (Event.steps event) n2 in
       (event |> Event.with_id newId |> Event.with_createdAt now
              |> Event.with_steps newSteps, n3).

Definition importStepTemplate (o : Oracle) (template : StepTemplate.t)
  : Gen StepTemplate.t :=
  λ n, let '(newId, n1) := generateNewId o "template" n in
       (template |> StepTemplate.with_id newId, n1).

Definition importSetStep (o : Oracle) (step : StepSetTemplateStep.t)
  : Gen StepSetTemplateStep.t :=
  λ n, let '(newId, n1) := generateNewId o "set-step" n in
       (step |> StepSetTemplateStep.with_id newId, n1).

Definition importStepSetTemplate (o : Oracle) (set : StepSetTemplate.t)
  : Gen StepSetTemplate.t :=
  λ n, let '(newId, n1) := generateNewId o "set" n in
       let '(newSteps, n2) := gen_map (importSetStep o) (StepSetTemplate.steps set) n1 in
       (set |> StepSetTemplate.with_id newId |> StepSetTemplate.with_steps newSteps, n2).

(** The regenerated records of an import, from the readings [n0] on. *)
Definition regenerate (o : Oracle) (n0 : nat * nat) (iEvents : list Event.t)
    (iStepT : list StepTemplate.t) (iStepSetT : list StepSetTemplate.t)
  : list Event.t * list StepTemplate.t * list StepSetTemplate.t :=
  let '(newEvents, n1) := gen_map (importEvent o) iEvents n0 in
  let '(newStepTemplates, n2) := gen_map (importStepTemplate o) iStepT n1 in
  let '(newStepSetTemplates, _) := gen_map (importStepSetTemplate o) iStepSetT n2 in
  (newEvents, newStepTemplates, newStepSetTemplates).

Definition importFailed (e : Error) (s : AppState) : AppState :=
  s |> setImportFile None
    |> setNotification
         (Some (mkNotification error "导入失败"
                  ("导入数据时发生错误: " +:+ errorMessage e) None)).

(** [executeImport], once the reader has loaded the file: [content] is
    what the file parses to, [o] and [n0] the oracle and its readings so
    far. A file that is not JSON, or has no [data], fails like a bad format
    (with the engine's message in place of the module's). *)
Definition executeImport (o : Oracle) (n0 : nat * nat) (content : ImportedJson)
    (s : AppState) (w : World) : AppState * World :=
  match importFile s with
  | None => (s, w)
  | Some _ =>
      match content with
      | JsonValue (Some (mkImportData (Some iEvents) (Some iTags) (Some iStepT)
                           (Some iStepSetT))) =>
          let s0 := s |> setImportFile None in
          let '(newEvents, newStepTemplates, newStepSetTemplates) :=
            regenerate o n0 iEvents iStepT iStepSetT in
          let newTags := iTags in
          let mergedEvents := events s ++ (reviveEventDates <$> newEvents) in
          let mergedTags := dedupe (customTags s ++ newTags) in
          let mergedStepTemplates := stepTemplates s ++ newStepTemplates in
          let mergedStepSetTemplates := stepSetTemplates s ++ newStepSetTemplates in
          let adopt := λ (message : string) (a : AppState),
            a |> setEvents mergedEvents
              |> setCustomTags mergedTags
              |> setStepTemplates mergedStepTemplates
              |> setStepSetTemplates mergedStepSetTemplates
              |> setNotification
                   (Some (mkNotification success "数据已添加" message
                            (Some CloseDbManager))) in
          if isTempStorageMode s || bool_decide (dbError s ≠ None) then
            (adopt "数据已成功添加到您的临时会话中。" s0, w)
          else
            match io_all [ insertDataInStore (activeDbName s) eventsStore newEvents;
                           insertDataInStore (activeDbName s) stepTemplatesStore
                             newStepTemplates;
                           insertDataInStore (activeDbName s) stepSetTemplatesStore
                             newStepSetTemplates;
                           saveTagsInStore (activeDbName s) mergedTags ] w with
            | (Ok _, w') => (adopt "数据已成功添加到当前数据库。" s0, w')
            | (Err e, w') => (importFailed e s0, w')
            end
      | _ => (importFailed InvalidFileFormat s, w)
      end
  end.

(** *** The database switch and merge controller *)

(** The [try] block of [handleSwitchDb]: the snapshot to adopt and the
    status that announces it. *)
Definition handleSwitchDb_load (newDbName : string) (s : AppState)
  : IO (Snapshot.t * DbStatus) :=
  let cameFromPassiveTemp := bool_decide (dbError s ≠ None) in
  let hasUnsyncedChanges := bool_decide (pendingActions s ≠ []) in
  if cameFromPassiveTemp && hasUnsyncedChanges then
    let* targetDbData := loadData newDbName in
    let '(processedEvents, processedTags) :=
      applyPendingActions (reviveEventDates <$> Snapshot.events targetDbData)
        (Snapshot.tags targetDbData) (pendingActions s) in
    let* _ := saveDataToDb newDbName processedEvents processedTags
                (Snapshot.stepTemplates targetDbData)
                (Snapshot.stepSetTemplates targetDbData) in
    io_ret (Snapshot.mk processedEvents processedTags
              (Snapshot.stepTemplates targetDbData)
              (Snapshot.stepSetTemplates targetDbData),
            mkDbStatus "临时更改已成功合并！" success)
  else
    let* loadedData := loadData newDbName in
    io_ret (Snapshot.mk (reviveEventDates <$> Snapshot.events loadedData)
              (Snapshot.tags loadedData) (Snapshot.stepTemplates loadedData)
              (Snapshot.stepSetTemplates loadedData),
            mkDbStatus "数据库切换成功！" success).

Definition handleSwitchDb (newDbName : string) (s : AppState) (w : World)
  : AppState * World :=
  if bool_decide (newDbName = activeDbName s) then
    (s |> setIsDbManagerOpen false, w)
  else
    let cameFromPassiveTemp := bool_decide (dbError s ≠ None) in
    let hasUnsyncedChanges := bool_decide (pendingActions s ≠ []) in
    if (bool_decide (newDbName = DEMO_DB_NAME)
        || bool_decide (newDbName = TEMP_STORAGE_DB_NAME_EXPORT))
       && cameFromPassiveTemp && hasUnsyncedChanges then
      (s |> setConfirmDiscardChanges (Some newDbName) |> setIsDbManagerOpen false, w)
    else if bool_decide (newDbName = TEMP_STORAGE_DB_NAME_EXPORT) then
      (s |> setActiveDbName TEMP_STORAGE_DB_NAME_EXPORT
         |> setEvents [] |> setCustomTags [] |> setStepTemplates []
         |> setStepSetTemplates [] |> setPendingActions [] |> setDbError None
         |> setDbStatus
              (Some (mkDbStatus "已进入临时模式。切换数据库将丢失当前更改。" info))
         |> setIsDbManagerOpen false
         |> setActiveFilters (mkActiveFilters all [])
         |> setSearchQuery "",
       w |> removeItem "activeDbName")
    else
      let s1 :=
        s |> setDbStatus
               (Some (mkDbStatus ("正在连接到 " +:+ getDisplayName newDbName +:+ "...")
                        loading))
          |> setIsDbManagerOpen false
          |> setSelectedEvent None
          |> setDetailViewPlaceholder None in
      match handleSwitchDb_load newDbName s w with
      | (Ok (dataToSet, status), w') =>
          (s1 |> setDbStatus (Some status)
              |> setEvents (Snapshot.events dataToSet)
              |> setCustomTags (Snapshot.tags dataToSet)
              |> setStepTemplates (Snapshot.stepTemplates dataToSet)
              |> setStepSetTemplates (Snapshot.stepSetTemplates dataToSet)
              |> setActiveDbName newDbName
              |> setDbError None
              |> setPendingActions []
              |> setActiveFilters (mkActiveFilters all [])
              |> setSearchQuery "",
           w' |> setItem "activeDbName" newDbName)
      | (Err e, w') =>
          (s1 |> setDbError (Some e)
              |> setNotification
                   (Some (mkNotification error "数据库连接失败"
                            ("无法连接到数据库 " +:+ dquote
                             +:+ getDisplayName newDbName +:+ dquote
                             +:+ "。您的更改仍然是临时的。") None))
              |> setDbStatus None
              |> setIsDbManagerOpen true, w')
      end.

(** *** The event list: search, filters and sort order *)

(** The string built-ins of the engine the list relies on, and its
    [Array.prototype.sort], are taken as given. *)
Variable trim : string → string.
Variable toLowerCase : string → string.
Variable localeCompare : string → string → Z.
Variable arraySort : (Event.t → Event.t → Q) → list Event.t → list Event.t.

(** [s.includes(pat)]. *)
Fixpoint includes (pat s : string) : bool :=
String.prefix pat s
|| match s with
   | EmptyString => false
   | String _ s' => includes pat s'
   end.

Definition completedSteps (event : Event.t) : list ProgressStep.t :=
filter (λ step, ProgressStep.completed step = true) (Event.steps event).

(** [getProgress]: the percentage of completed steps, an exact rational
    here (a floating-point number in the engine). *)
Definition getProgress (event : Event.t) : Q :=
match Event.steps event with
| [] => 0%Q
| _ => (inject_Z (Z.of_nat (length (completedSteps event)))
        / inject_Z (Z.of_nat (length (Event.steps event))) * 100)%Q
end.

(** The comparator handed to [sort], by sort order. *)
Definition compareEvents (order : SortOrder) (a b : Event.t) : Q :=
match order with
| createdAt_asc => inject_Z (Event.createdAt a - Event.createdAt b)
| title_asc => inject_Z (localeCompare (Event.title a) (Event.title b))
| title_desc => inject_Z (localeCompare (Event.title b) (Event.title a))
| progress_asc => (getProgress a - inject_Z (Event.createdAt b))%Q
| progress_desc => (getProgress b - getProgress a)%Q
| createdAt_desc => inject_Z (Event.createdAt b - Event.createdAt a)
end.

Definition matchesStatus (status : StatusFilter) (event : Event.t) : bool :=
let totalSteps := length (Event.steps event) in
let completedCount := length (completedSteps event) in
match status with
| all => true
| in_progress => bool_decide (totalSteps = 0%nat) || bool_decide (completedCount < totalSteps)%nat
| completed => negb (bool_decide (totalSteps = 0%nat))
               && bool_decide (completedCount = totalSteps)
end.

Definition filteredEvents (s : AppState) : list Event.t :=
let afterSearch :=
  if bool_decide (trim (searchQuery s) ≠ "") then
    let lowercasedQuery := toLowerCase (searchQuery s) in
    filter (λ event,
              includes lowercasedQuery (toLowerCase (Event.title event))
              || includes lowercasedQuery (toLowerCase (Event.description event)) = true)
      (events s)
  else events s in
let afterStatus :=
  filter (λ event, matchesStatus (filter_status (activeFilters s)) event = true)
    afterSearch in
let afterTags :=
  match filter_tags (activeFilters s) with
  | [] => afterStatus
  | wanted =>
      filter (λ event, Forall (λ tag, tag ∈ default [] (Event.tags event)) wanted)
        afterStatus
  end in
arraySort (compareEvents (sortOrder s)) afterTags.

(** The comparator the ascending progress order calls for. *)
Definition compareProgressAsc (a b : Event.t) : Q := (getProgress a - getProgress b)%Q.

(** What a two-element array becomes under a sort that decides from the
    signs of the comparator's two answers alone: [swaps] tells, from the
    sign of [cmp x y] and of [cmp y x], whether the elements change places. *)
Definition sortsPairsBy (swaps : comparison → comparison → bool)
  (sort : (Event.t → Event.t → Q) → list Event.t → list Event.t) : Prop :=
∀ cmp x y,
  sort cmp [x; y] = if swaps (cmp x y ?= 0)%Q (cmp y x ?= 0)%Q then [y; x] else [x; y].

(** A stable insertion sort, one way an engine may sort: an element moves
    left past every element the comparator puts strictly after it. *)
Fixpoint insertSorted (cmp : Event.t → Event.t → Q) (x : Event.t) (sorted : list Event.t)
: list Event.t :=
match sorted with
| [] => [x]
| y :: rest =>
    match (cmp x y ?= 0)%Q with
    | Gt => y :: insertSorted cmp x rest
    | _ => x :: y :: rest
    end
end.

Definition insertionSort (cmp : Event.t → Event.t → Q) (l : list Event.t) : list Event.t :=
foldr (insertSorted cmp) [] l.

(** *** The startup precedence, as the specification words it *)

(** The previously active name if it is still a discovered database,
    otherwise the default name if present, otherwise the first discovered
    name, otherwise volatile mode. *)
Definition startupPrecedence (stored : option string) (discovered : list string) : string :=
match stored with
| Some name =>
    if bool_decide (name ∈ discovered) then name
    else if bool_decide (DEFAULT_DB_NAME ∈ discovered) then DEFAULT_DB_NAME
    else match discovered with
         | first :: _ => first
         | [] => TEMP_STORAGE_DB_NAME_EXPORT
         end
| None =>
    if bool_decide (DEFAULT_DB_NAME ∈ discovered) then DEFAULT_DB_NAME
    else match discovered with
         | first :: _ => first
         | [] => TEMP_STORAGE_DB_NAME_EXPORT
         end
end.

(** *** Notions the statements below use *)

(** [leaves w w' dbName db']: from [w] to [w'] the database [dbName] became
    [db'], and nothing else that can be observed changed. *)
Definition leaves (w w' : World) (dbName : string) (db' : Database) : Prop :=
theDb w' dbName = db'
∧ (∀ n, n ≠ dbName → theDb w' n = theDb w n)
∧ rejects w' = rejects w
∧ localStorage w' = localStorage w.

(** The engine serves every request on [dbName]. *)
Definition serves (w : World) (dbName : string) : Prop :=
rejects w (OpenDb dbName) = false
∧ ∀ store, rejects w (ReadStore dbName store) = false
           ∧ rejects w (WriteStore dbName store) = false.

(** [keeps f m]: whatever its outcome, [m] leaves the part [f] of every
    database as it found it. *)
Definition keeps {X A} (f : Database → X) (m : IO A) : Prop :=
∀ w r w', m w = (r, w') → ∀ n, f (theDb w' n) = f (theDb w n).


(** The snapshot a database holds, as the four reads list it. *)
Definition storedSnapshot (db : Database) : Snapshot.t :=
Snapshot.mk (getAll (db_events db)) (default [] (db_tags db !! "allTags"))
  (getAll (db_stepTemplates db)) (getAll (db_stepSetTemplates db)).

(** The database carries the ['isSeeded'] marker. *)
Definition seeded (db : Database) : Prop :=
metaTruthy (db_metadata db !! "isSeeded") = true.

(** The database after [saveDataToDb] wrote a snapshot into it. *)
Definition savedDb (eventsToSave : list Event.t) (tagsToSave : list string)
  (templatesToSave : list StepTemplate.t) (setsToSave : list StepSetTemplate.t)
  (db : Database) : Database :=
mkDatabase (putAll eventsToSave ∅) (<["allTags" := tagsToSave]> (db_tags db))
  (putAll templatesToSave ∅) (putAll setsToSave ∅) (db_metadata db) (db_originalImages db).

(** What [loadData] seeds a database with on its first load. *)
Definition seedSnapshot (dbName : string) : Snapshot.t :=
if bool_decide (dbName = DEFAULT_DB_NAME)
then Snapshot.mk [tutorialEvent] ["教程"] [] []
else Snapshot.mk [] [] [] [].

(** The database after its first load. *)
Definition seededDb (dbName : string) (db : Database) : Database :=
let db' := savedDb (Snapshot.events (seedSnapshot dbName)) (Snapshot.tags (seedSnapshot dbName))
             [] [] db in
sr_set metadataStore (<["isSeeded" := MetaBool true]> (db_metadata db')) db'.

(** The baseline [loadData] finds in, or gives to, a database. *)
Definition baselineOf (dbName : string) (db : Database) : Snapshot.t * Database :=
if bool_decide (seeded db) then (storedSnapshot db, db)
else (seedSnapshot dbName, seededDb dbName db).

(** What one imported step becomes: a generated id, a fresh timestamp, the
    rest copied. *)
Definition regeneratedStep (o : Oracle) (step step' : ProgressStep.t) : Prop :=
(∃ k, ProgressStep.id step' = "step" +:+ "-" +:+ stamp o k)
∧ (∃ d, ProgressStep.timestamp step' = dateNow o d)
∧ ProgressStep.description step' = ProgressStep.description step
∧ ProgressStep.completed step' = ProgressStep.completed step.

Definition regeneratedEvent (o : Oracle) (event event' : Event.t) : Prop :=
(∃ k, Event.id event' = "event" +:+ "-" +:+ stamp o k)
∧ (∃ d, Event.createdAt event' = dateNow o d)
∧ Event.title event' = Event.title event
∧ Event.description event' = Event.description event
∧ Event.imageUrl event' = Event.imageUrl event
∧ Event.tags event' = Event.tags event
∧ Event.hasOriginalImage event' = Event.hasOriginalImage event
∧ Forall2 (regeneratedStep o) (Event.steps event) (Event.steps event').

Definition regeneratedTemplate (o : Oracle) (template template' : StepTemplate.t) : Prop :=
(∃ k, StepTemplate.id template' = "template" +:+ "-" +:+ stamp o k)
∧ StepTemplate.description template' = StepTemplate.description template.

Definition regeneratedSetStep (o : Oracle) (step step' : StepSetTemplateStep.t) : Prop :=
(∃ k, StepSetTemplateStep.id step' = "set-step" +:+ "-" +:+ stamp o k)
∧ StepSetTemplateStep.description step' = StepSetTemplateStep.description step.

Definition regeneratedSet (o : Oracle) (set set' : StepSetTemplate.t) : Prop :=
(∃ k, StepSetTemplate.id set' = "set" +:+ "-" +:+ stamp o k)
∧ StepSetTemplate.name set' = StepSetTemplate.name set
∧ Forall2 (regeneratedSetStep o) (StepSetTemplate.steps set) (StepSetTemplate.steps set').

(** The ids of a regenerated collection never collide. *)
Definition distinctIds (newEvents : list Event.t) (newStepTemplates : list StepTemplate.t)
  (newStepSetTemplates : list StepSetTemplate.t) : Prop :=
NoDup (Event.id <$> newEvents)
∧ Forall (λ e, NoDup (ProgressStep.id <$> Event.steps e)) newEvents
∧ NoDup (StepTemplate.id <$> newStepTemplates)
∧ NoDup (StepSetTemplate.id <$> newStepSetTemplates)
∧ Forall (λ t, NoDup (StepSetTemplateStep.id <$> StepSetTemplate.steps t)) newStepSetTemplates.

(** The database after an import inserted its records and rewrote the tags. *)
Definition importedDb (newEvents : list Event.t) (newStepTemplates : list StepTemplate.t)
  (newStepSetTemplates : list StepSetTemplate.t) (mergedTags : list string)
  (db : Database) : Database :=
mkDatabase (putAll newEvents (db_events db)) (<["allTags" := mergedTags]> (db_tags db))
  (putAll newStepTemplates (db_stepTemplates db))
  (putAll newStepSetTemplates (db_stepSetTemplates db))
  (db_metadata db) (db_originalImages db).

(** Stamps that never repeat: the text of a clock reading, then the number
    of the call. *)
Definition countingOracle : Oracle :=
mkOracle (λ k, "1700000000000-" +:+ pretty k) (λ d, 1700000000000 + Z.of_nat d).

(** An environment that hands out the same clock reading and the same
    random text at every call. *)
Definition repeatingOracle : Oracle :=
mkOracle (λ _, "1700000000000-i") (λ _, 1700000000000).

(** An exported document with two events. *)
Definition sampleDoc : ExportDoc :=
mkExportDoc 1 1690000000000
  (Snapshot.mk [sampleReport; sampleArchive] ["Work"] [sampleTemplate] [sampleSet]).

(** ** The rest of the component's state

    The state variables of the selection, of the form that adds an event
    and of the database manager, which the handlers below read and write.
    A [Set] of strings is the list of its elements in insertion order. *)
Record UiState : Type := mkUiState {
  selectedEventIds : list string;
  confirmDeleteSelection : bool;
  newEventTitle : string;
  newEventDescription : string;
  newEventImage : option string;
  newEventOriginalImage : option File;
  newEventTags : list string;
  isProcessingImage : bool;
  isAddEventModalOpen : bool;
  newDbNameInput : string;
  isCreateDbModalOpen : bool;
  dbToDelete : option string;
  isFormatConfirmModalOpen : bool
}.

Definition setSelectedEventIds (v : list string) (u : UiState) : UiState :=
  mkUiState v (confirmDeleteSelection u) (newEventTitle u) (newEventDescription u)
    (newEventImage u) (newEventOriginalImage u) (newEventTags u) (isProcessingImage u)
    (isAddEventModalOpen u) (newDbNameInput u) (isCreateDbModalOpen u) (dbToDelete u)
    (isFormatConfirmModalOpen u).
Definition setConfirmDeleteSelection (v : bool) (u : UiState) : UiState :=
  mkUiState (selectedEventIds u) v (newEventTitle u) (newEventDescription u)
    (newEventImage u) (newEventOriginalImage u) (newEventTags u) (isProcessingImage u)
    (isAddEventModalOpen u) (newDbNameInput u) (isCreateDbModalOpen u) (dbToDelete u)
    (isFormatConfirmModalOpen u).
Definition setNewEventTitle (v : string) (u : UiState) : UiState :=
  mkUiState (selectedEventIds u) (confirmDeleteSelection u) v (newEventDescription u)
    (newEventImage u) (newEventOriginalImage u) (newEventTags u) (isProcessingImage u)
    (isAddEventModalOpen u) (newDbNameInput u) (isCreateDbModalOpen u) (dbToDelete u)
    (isFormatConfirmModalOpen u).
Definition setNewEventDescription (v : string) (u : UiState) : UiState :=
  mkUiState (selectedEventIds u) (confirmDeleteSelection u) (newEventTitle u) v
    (newEventImage u) (newEventOriginalImage u) (newEventTags u) (isProcessingImage u)
    (isAddEventModalOpen u) (newDbNameInput u) (isCreateDbModalOpen u) (dbToDelete u)
    (isFormatConfirmModalOpen u).
Definition setNewEventImage (v : option string) (u : UiState) : UiState :=
  mkUiState (selectedEventIds u) (confirmDeleteSelection u) (newEventTitle u)
    (newEventDescription u) v (newEventOriginalImage u) (newEventTags u)
    (isProcessingImage u) (isAddEventModalOpen u) (newDbNameInput u)
    (isCreateDbModalOpen u) (dbToDelete u) (isFormatConfirmModalOpen u).
Definition setNewEventOriginalImage (v : option File) (u : UiState) : UiState :=
  mkUiState (selectedEventIds u) (confirmDeleteSelection u) (newEventTitle u)
    (newEventDescription u) (newEventImage u) v (newEventTags u) (isProcessingImage u)
    (isAddEventModalOpen u) (newDbNameInput u) (isCreateDbModalOpen u) (dbToDelete u)
    (isFormatConfirmModalOpen u).
Definition setNewEventTags (v : list string) (u : UiState) : UiState :=
  mkUiState (selectedEventIds u) (confirmDeleteSelection u) (newEventTitle u)
    (newEventDescription u) (newEventImage u) (newEventOriginalImage u) v
    (isProcessingImage u) (isAddEventModalOpen u) (newDbNameInput u)
    (isCreateDbModalOpen u) (dbToDelete u) (isFormatConfirmModalOpen u).
Definition setIsProcessingImage (v : bool) (u : UiState) : UiState :=
  mkUiState (selectedEventIds u) (confirmDeleteSelection u) (newEventTitle u)
    (newEventDescription u) (newEventImage u) (newEventOriginalImage u) (newEventTags u)
    v (isAddEventModalOpen u) (newDbNameInput u) (isCreateDbModalOpen u) (dbToDelete u)
    (isFormatConfirmModalOpen u).
Definition setIsAddEventModalOpen (v : bool) (u : UiState) : UiState :=
  mkUiState (selectedEventIds u) (confirmDeleteSelection u) (newEventTitle u)
    (newEventDescription u) (newEventImage u) (newEventOriginalImage u) (newEventTags u)
    (isProcessingImage u) v (newDbNameInput u) (isCreateDbModalOpen u) (dbToDelete u)
    (isFormatConfirmModalOpen u).
Definition setNewDbNameInput (v : string) (u : UiState) : UiState :=
  mkUiState (selectedEventIds u) (confirmDeleteSelection u) (newEventTitle u)
    (newEventDescription u) (newEventImage u) (newEventOriginalImage u) (newEventTags u)
    (isProcessingImage u) (isAddEventModalOpen u) v (isCreateDbModalOpen u)
    (dbToDelete u) (isFormatConfirmModalOpen u).
Definition setIsCreateDbModalOpen (v : bool) (u : UiState) : UiState :=
  mkUiState (selectedEventIds u) (confirmDeleteSelection u) (newEventTitle u)
    (newEventDescription u) (newEventImage u) (newEventOriginalImage u) (newEventTags u)
    (isProcessingImage u) (isAddEventModalOpen u) (newDbNameInput u) v (dbToDelete u)
    (isFormatConfirmModalOpen u).
Definition setDbToDelete (v : option string) (u : UiState) : UiState :=
  mkUiState (selectedEventIds u) (confirmDeleteSelection u) (newEventTitle u)
    (newEventDescription u) (newEventImage u) (newEventOriginalImage u) (newEventTags u)
    (isProcessingImage u) (isAddEventModalOpen u) (newDbNameInput u)
    (isCreateDbModalOpen u) v (isFormatConfirmModalOpen u).
Definition setIsFormatConfirmModalOpen (v : bool) (u : UiState) : UiState :=
  mkUiState (selectedEventIds u) (confirmDeleteSelection u) (newEventTitle u)
    (newEventDescription u) (newEventImage u) (newEventOriginalImage u) (newEventTags u)
    (isProcessingImage u) (isAddEventModalOpen u) (newDbNameInput u)
    (isCreateDbModalOpen u) (dbToDelete u) v.

(** *** The other mutations of events and tags *)

(** [a.type === 'UPDATE_EVENT_STEPS' && a.payload.eventId === eventId]. *)
Definition isUpdateStepsOf (eventId : string) (a : PendingAction) : bool :=
  match a with
  | UPDATE_EVENT_STEPS eventId' _ => bool_decide (eventId' = eventId)
  | _ => false
  end.

(** [handleUpdateEventSteps]. The updater of [setEvents] also refreshes the
    open detail view and the steps editor, once for each event it rewrites:
    the last one rewritten stays. *)
Definition handleUpdateEventSteps (eventId : string) (newSteps : list ProgressStep.t)
    (s : AppState) : AppState :=
  let updateLogic := λ a : AppState,
    let updated :=
      (λ e, if decide (Event.id e = eventId) then Event.with_steps newSteps e else e)
        <$> events a in
    let a1 := a |> setEvents updated in
    match last (filter (λ e, Event.id e = eventId) updated) with
    | Some updatedEvent =>
        let a2 :=
          if bool_decide (Event.id <$> selectedEvent s = Some eventId)
          then a1 |> setSelectedEvent (Some updatedEvent) else a1 in
        if bool_decide (Event.id <$> eventForStepsEditor s = Some eventId)
        then a2 |> setEventForStepsEditor (Some updatedEvent) else a2
    | None => a1
    end in
  if mustQueue s then
    s |> updateLogic
      |> (λ a, setPendingActions
                 (filter (λ a', ¬ isUpdateStepsOf eventId a') (pendingActions a)
                  ++ [UPDATE_EVENT_STEPS eventId newSteps]) a)
      |> showActionNotification "步骤更新已临时保存"
  else s |> updateLogic.

(** [handleDeleteEvent]; when it writes at once, the removal of the
    original image is not awaited and its failure goes unnoticed. *)
Definition handleDeleteEvent (eventId : string) (s : AppState) (w : World)
  : AppState * World :=
  let remove := λ a : AppState,
    setEvents (filter (λ e, Event.id e ≠ eventId) (events a)) a in
  let '(s1, w') :=
    if mustQueue s then
      (s |> remove
         |> (λ a, setPendingActions (pendingActions a ++ [DELETE_EVENT eventId]) a)
         |> showActionNotification "删除操作已暂存", w)
    else
      (s |> remove,
       (deleteDataFromStoreByKey (activeDbName s) originalImagesStore eventId w).2) in
  (if bool_decide (Event.id <$> selectedEvent s = Some eventId)
   then s1 |> setSelectedEvent None
           |> setDetailViewPlaceholder (Some "您正在查看的事件已被删除。")
   else s1, w').

(** [handleRenameTag]: whether the new name was accepted, and the state. *)
Definition handleRenameTag (oldTag newTag : string) (s : AppState) : bool * AppState :=
  if bool_decide (trim newTag = "")
     || (bool_decide (newTag ∈ customTags s) && bool_decide (newTag ≠ oldTag))
  then (false, s)
  else
    let newTags := renameIn oldTag newTag (customTags s) in
    let newEvents :=
      (λ e, Event.with_tags (renameIn oldTag newTag <$> Event.tags e) e) <$> events s in
    (true,
     (if mustQueue s then
        s |> setEvents newEvents
          |> setCustomTags newTags
          |> (λ a, setPendingActions (pendingActions a ++ [RENAME_TAG oldTag newTag]) a)
          |> showActionNotification "标签重命名已暂存"
      else
        s |> setEvents newEvents |> setCustomTags newTags)
     |> (λ a, setActiveFilters
                (mkActiveFilters (filter_status (activeFilters a))
                   (renameIn oldTag newTag (filter_tags (activeFilters a)))) a)).

Definition handleReorderTags (reorderedTags : list string) (s : AppState) : AppState :=
  if mustQueue s then
    s |> setCustomTags reorderedTags
      |> (λ a, setPendingActions (pendingActions a ++ [REORDER_TAGS reorderedTags]) a)
      |> showActionNotification "标签排序已暂存"
  else s |> setCustomTags reorderedTags.

Definition closeAddEventModal (u : UiState) : UiState :=
  u |> setNewEventTitle "" |> setNewEventDescription "" |> setNewEventImage None
    |> setNewEventTags [] |> setNewEventOriginalImage None
    |> setIsAddEventModalOpen false.

(** The event [handleAddEvent] builds from the form: [now] is the reading
    of [Date.now()] its id is made of, [created] the instant of its
    [new Date()]. *)
Definition newEventOf (now created : Z) (u : UiState) : Event.t :=
  Event.mk ("event-" +:+ pretty now) (newEventTitle u) (newEventDescription u) created []
    (match newEventImage u with
     | Some url => if truthy url then Some url else None
     | None => None
     end)
    (Some (newEventTags u))
    (Some (bool_decide (newEventOriginalImage u ≠ None))).

Definition handleAddEvent (now created : Z) (s : AppState) (u : UiState) (w : World)
  : AppState * UiState * World :=
  if bool_decide (trim (newEventTitle u) = "") || isProcessingImage u then (s, u, w)
  else
    let newTagsToCreate := filter (λ tag, tag ∉ customTags s) (newEventTags u) in
    let s1 := foldl (λ acc tag, handleAddTag s tag acc) s newTagsToCreate in
    let s2 :=
      match newTagsToCreate with
      | [] => s1
      | _ => s1 |> showActionNotification
                     ("已添加新标签: " +:+ String.concat ", " newTagsToCreate
                      +:+ (if mustQueue s then " (已临时保存)" else ""))
      end in
    let newEvent := newEventOf now created u in
    let '(s3, w') :=
      if mustQueue s then
        (s2 |> (λ a, setEvents (newEvent :: events a) a)
            |> (λ a, setPendingActions
                       (pendingActions a
                        ++ [ADD_EVENT newEvent (newEventOriginalImage u)]) a)
            |> showActionNotification "事件已临时保存", w)
      else
        (s2 |> setEvents (newEvent :: events s),
         match newEventOriginalImage u with
         | Some image =>
             (saveDataInStoreByKey (activeDbName s) originalImagesStore image
                (Event.id newEvent) w).2
         | None => w
         end) in
    (s3, closeAddEventModal u, w').

(** *** The selection *)

Definition handleCardLongPress (event : Event.t) (u : UiState) : UiState :=
  u |> setSelectedEventIds [Event.id event].

(** [handleCardClick]: in selection mode a click toggles the card, else it
    opens the event. *)
Definition handleCardClick (event : Event.t) (s : AppState) (u : UiState)
  : AppState * UiState :=
  match selectedEventIds u with
  | [] => (s |> setSelectedEvent (Some event) |> setDetailViewPlaceholder None, u)
  | _ =>
      (s, u |> (λ a, setSelectedEventIds
                       (if bool_decide (Event.id event ∈ selectedEventIds a)
                        then filter (λ i, i ≠ Event.id event) (selectedEventIds a)
                        else selectedEventIds a ++ [Event.id event]) a))
  end.

(** The filter of [filterPendingActions]: an action on an event that is
    being deleted goes. *)
Definition keptBy (idsToDelete : list string) (a : PendingAction) : bool :=
  match a with
  | DELETE_EVENT payload => bool_decide (payload ∉ idsToDelete)
  | ADD_EVENT event _ | UPDATE_EVENT event _ => bool_decide (Event.id event ∉ idsToDelete)
  | UPDATE_EVENT_STEPS eventId _ => bool_decide (eventId ∉ idsToDelete)
  | _ => true
  end.

Definition filterPendingActions (idsToDelete : list string) (actions : list PendingAction)
  : list PendingAction :=
  filter (λ a, keptBy idsToDelete a) actions.

(** [executeDeleteSelection]; when it writes at once, the removals of the
    original images are not awaited. *)
Definition executeDeleteSelection (s : AppState) (u : UiState) (w : World)
  : AppState * UiState * World :=
  let idsToDelete := selectedEventIds u in
  let s0 :=
    match selectedEvent s with
    | Some e =>
        if bool_decide (Event.id e ∈ idsToDelete)
        then s |> setSelectedEvent None
               |> setDetailViewPlaceholder (Some "您正在查看的事件已在所选项目中被删除。")
        else s
    | None => s
    end in
  let updateEventsState := λ a : AppState,
    setEvents (filter (λ e, Event.id e ∉ idsToDelete) (events a)) a in
  let '(s1, w') :=
    if mustQueue s then
      (s0 |> updateEventsState
          |> (λ a, setPendingActions
                     (filterPendingActions idsToDelete (pendingActions a)
                      ++ (DELETE_EVENT <$> idsToDelete)) a)
          |> showActionNotification
               (pretty (length idsToDelete) +:+ " 个删除操作已暂存"), w)
    else
      (s0 |> updateEventsState,
       foldl (λ w0 id, (deleteDataFromStoreByKey (activeDbName s) originalImagesStore
                          id w0).2) w idsToDelete) in
  (s1, u |> setSelectedEventIds [] |> setConfirmDeleteSelection false, w').

(** *** Notions for the statements on the queue *)

(** [e1] and [e2] are the same event, except that when their id is [X] they
    may differ: in their steps only when [strict], in anything but the id
    otherwise. *)
Definition agreeExcept (strict : bool) (X : string) (e1 e2 : Event.t) : Prop :=
Event.id e1 = Event.id e2
∧ (Event.id e1 ≠ X → e1 = e2)
∧ (strict = true → Event.with_steps [] e1 = Event.with_steps [] e2).

(** The in-memory snapshot is what the queue makes of the base. *)
Definition tracks (baseEvents : list Event.t) (baseTags : list string) (s : AppState) : Prop :=
applyPendingActions baseEvents baseTags (pendingActions s) = (events s, customTags s).

(** The actions a later update of [X] supersedes: the updates of the event
    [X], or (when [strict]) the updates of its steps. *)
Definition supersededBy (strict : bool) (X : string) (a : PendingAction) : bool :=
if strict then isUpdateStepsOf X a else isUpdateEventOf X a.

(** The events that stay when the events of the ids [D] are deleted. *)
Definition visible (D : list string) (l : list Event.t) : list Event.t :=
filter (λ e, Event.id e ∉ D) l.

(** *** The automatic save *)

(** The display settings, state variables of the component as well. *)
Inductive OverviewBlockSize : Type := sm | md | lg.

Definition blockSizeText (size : OverviewBlockSize) : string :=
  match size with sm => "sm" | md => "md" | lg => "lg" end.

Record Settings : Type := mkSettings {
  cardDensity : Q;
  collapseCardImages : bool;
  overviewBlockSize : OverviewBlockSize;
  isDeveloperMode : bool
}.

(** [saveData]: the snapshot in memory is written to the active database
    unless the component is loading, in volatile mode or on the
    demonstration database; then, whatever the mode, the display settings
    are written to the metadata store of the settings database. A failure
    of either half is logged and goes no further. *)
Definition saveData (g : Settings) (s : AppState) (w : World) : World :=
  let w1 :=
    if negb (isLoading s) && truthy (activeDbName s) && negb (isTempStorageMode s)
       && bool_decide (activeDbName s ≠ DEMO_DB_NAME)
    then (io_all [ saveDataInStore (activeDbName s) eventsStore (events s);
                   saveTagsInStore (activeDbName s) (customTags s);
                   saveDataInStore (activeDbName s) stepTemplatesStore (stepTemplates s);
                   saveDataInStore (activeDbName s) stepSetTemplatesStore
                     (stepSetTemplates s) ] w).2
    else w in
  (io_all [ saveMetadata SETTINGS_DB_NAME "cardDensity" (MetaNumber (cardDensity g));
            saveMetadata SETTINGS_DB_NAME "collapseCardImages"
              (MetaBool (collapseCardImages g));
            saveMetadata SETTINGS_DB_NAME "overviewBlockSize"
              (MetaString (blockSizeText (overviewBlockSize g)));
            saveMetadata SETTINGS_DB_NAME "developerMode"
              (MetaBool (isDeveloperMode g)) ] w1).2.

(** The effect that saves half a second after the state settled: it holds
    back while actions are pending. *)
Definition autoSaveEffect (g : Settings) (s : AppState) (w : World) : World :=
  match pendingActions s with
  | [] => saveData g s w
  | _ => w
  end.

(** The metadata of the settings database after [saveData] wrote the
    settings into it. *)
Definition savedSettings (g : Settings) (m : gmap string MetaValue)
  : gmap string MetaValue :=
<["developerMode" := MetaBool (isDeveloperMode g)]>
  (<["overviewBlockSize" := MetaString (blockSizeText (overviewBlockSize g))]>
     (<["collapseCardImages" := MetaBool (collapseCardImages g)]>
        (<["cardDensity" := MetaNumber (cardDensity g)]> m))).

(** A database without its metadata store. *)
Definition dataStores (db : Database)
  : gmap string Event.t * gmap string (list string) * gmap string StepTemplate.t
    * gmap string StepSetTemplate.t * gmap string File :=
(db_events db, db_tags db, db_stepTemplates db, db_stepSetTemplates db,
 db_originalImages db).

(** *** Sample data for the worked instances of the handlers *)

Definition sampleDraftStep : ProgressStep.t :=
ProgressStep.mk "step-1" "Draft" 1700000100000 true.

(** The rest of the state at the first render. *)
Definition initialUi : UiState :=
mkUiState [] false "" "" None None [] false false "" false None false.

(** The display settings at the first render. *)
Definition initialSettings : Settings := mkSettings 75 false md false.

(** Degraded on the work database: the steps of [sampleReport] were
    emptied, then a tag was added. *)
Definition sampleStepsQueued : AppState :=
initialState
|> setIsLoading false
|> setActiveDbName sampleWorkName
|> setDbError (Some (StorageError (WriteStore sampleWorkName STORE_events)))
|> setEvents [Event.with_steps [] sampleReport]
|> setCustomTags ["Work"; "Urgent"]
|> setPendingActions [UPDATE_EVENT_STEPS "event-1" []; ADD_TAG "Urgent"].

(** [sampleEditing], with the tag its queue adds. *)
Definition sampleEditingTracked : AppState :=
sampleEditing |> setCustomTags ["Work"; "Urgent"].

(** Degraded on the work database: an event was added and given a step,
    then a tag was added. *)
Definition sampleSelecting : AppState :=
initialState
|> setIsLoading false
|> setActiveDbName sampleWorkName
|> setDbError (Some (StorageError (WriteStore sampleWorkName STORE_events)))
|> setEvents [Event.with_steps [sampleDraftStep] sampleTrip; sampleReport]
|> setCustomTags ["Work"; "Urgent"]
|> setPendingActions [ ADD_EVENT sampleTrip None;
                       UPDATE_EVENT_STEPS "event-2" [sampleDraftStep];
                       ADD_TAG "Urgent" ].

(** *** The filters of the event list *)

Definition handleStatusFilterChange (status : StatusFilter) (s : AppState) : AppState :=
  s |> (λ a, setActiveFilters (mkActiveFilters status (filter_tags (activeFilters a))) a).

(** [handleTagFilterChange]: the tag leaves the filter when it is in it,
    and joins it (last) when it is not. *)
Definition handleTagFilterChange (tag : string) (s : AppState) : AppState :=
  s |> (λ a,
          let newTags := dedupe (filter_tags (activeFilters a)) in
          setActiveFilters
            (mkActiveFilters (filter_status (activeFilters a))
               (if bool_decide (tag ∈ newTags)
                then filter (λ t, t ≠ tag) newTags
                else newTags ++ [tag])) a).

Definition handleResetTagFilters (s : AppState) : AppState :=
  s |> (λ a, setActiveFilters (mkActiveFilters (filter_status (activeFilters a)) []) a).

(** What the search, when there is one, asks of an event. *)
Definition matchesSearch (s : AppState) (event : Event.t) : Prop :=
trim (searchQuery s) ≠ "" →
includes (toLowerCase (searchQuery s)) (toLowerCase (Event.title event))
|| includes (toLowerCase (searchQuery s)) (toLowerCase (Event.description event)) = true.

(** Two events in memory, the list filtered to the completed ones. *)
Definition sampleCompletedOnly : AppState :=
initialState
|> setIsLoading false
|> setActiveDbName sampleWorkName
|> setEvents [sampleReport; sampleArchive]
|> setActiveFilters (mkActiveFilters completed []).

(** *** Notions for the statements on the store adapter *)

(** A store reference reads back what it was given (as the six references
    of the module do). *)
Definition lawful {T} (store : StoreRef T) : Prop :=
∀ v db, sr_get store (sr_set store v db) = v.

(** [holds P m]: a run of [m] from a world where [P] holds ends, whatever
    its outcome, in a world where [P] holds. *)
Definition holds {A} (P : World → Prop) (m : IO A) : Prop :=
∀ w r w', m w = (r, w') → P w → P w'.

(** [P] does not care what the databases hold nor which connections are
    open, as long as no database goes away. *)
Definition storageBlind (P : World → Prop) : Prop :=
(∀ n db w, P w → P (setDb n db w)) ∧ (∀ c w, P w → P (setDbConnections c w)).

(** Healthy on the work database, two events in memory, nothing pending. *)
Definition sampleHealthy : AppState :=
initialState
|> setIsLoading false
|> setActiveDbName sampleWorkName
|> setEvents [sampleTrip; sampleReport]
|> setCustomTags ["Work"].

(** The engine refuses to open the home database. *)
Definition rejectOpenHome (r : Request) : bool :=
bool_decide (r = OpenDb sampleHomeName).

(** A reload of the page: the module starts again without any connection
    ([dbConnections] is a module variable); the databases and
    [localStorage] stay. *)
Definition reload (w : World) : World := setDbConnections ∅ w.

(** *** The database manager *)

(** [indexedDB.deleteDatabase(name)], carried out: the database is gone. *)
Definition deleteDatabase (name : string) (w : World) : World :=
  setDatabases (delete name (databases w)) w.

(** [dbConnections.get(name)?.close(); dbConnections.delete(name)]. *)
Definition closeConnection (name : string) (w : World) : World :=
  setDbConnections (dbConnections w ∖ {[name]}) w.

(** [handleImportRequest]: the demonstration database takes no import. *)
Definition handleImportRequest (file : File) (s : AppState) : AppState :=
  if bool_decide (activeDbName s = DEMO_DB_NAME) && negb (isTempStorageMode s) then
    s |> setNotification
           (Some (mkNotification error "导入受限" "无法向演示数据库导入数据。" None))
  else s |> setImportFile (Some file).

(** [executeDiscardAndSwitch]: the pending changes are given up, then
    volatile mode or the demonstration database is entered. *)
Definition executeDiscardAndSwitch (targetDbName : string) (s : AppState) (w : World)
  : AppState * World :=
  let s0 :=
    s |> setConfirmDiscardChanges None |> setPendingActions [] |> setDbError None
      |> setSelectedEvent None |> setDetailViewPlaceholder None
      |> setActiveFilters (mkActiveFilters all []) |> setSearchQuery "" in
  if bool_decide (targetDbName = TEMP_STORAGE_DB_NAME_EXPORT) then
    (s0 |> setActiveDbName TEMP_STORAGE_DB_NAME_EXPORT
        |> setEvents [] |> setCustomTags [] |> setStepTemplates []
        |> setStepSetTemplates []
        |> setDbStatus
             (Some (mkDbStatus "已进入临时模式。切换数据库将丢失当前更改。" info)), w)
  else if bool_decide (targetDbName = DEMO_DB_NAME) then
    let s1 :=
      s0 |> setDbStatus
              (Some (mkDbStatus ("正在连接到 " +:+ getDisplayName targetDbName +:+ "...")
                       loading)) in
    match loadData DEMO_DB_NAME w with
    | (Ok demoData, w') =>
        (s1 |> setEvents (reviveEventDates <$> Snapshot.events demoData)
            |> setCustomTags (Snapshot.tags demoData)
            |> setStepTemplates (Snapshot.stepTemplates demoData)
            |> setStepSetTemplates (Snapshot.stepSetTemplates demoData)
            |> setActiveDbName DEMO_DB_NAME
            |> setDbStatus (Some (mkDbStatus "数据库切换成功！" success)),
         w' |> setItem "activeDbName" DEMO_DB_NAME)
    | (Err _, w') =>
        (s1 |> setNotification
                 (Some (mkNotification error "切换失败" "无法加载演示数据库。" None))
            |> setDbStatus None, w')
    end
  else (s0, w).

(** [handleCreateNewDb]. *)
Definition handleCreateNewDb (s : AppState) (u : UiState) (w : World)
  : AppState * UiState * World :=
  let name := trim (newDbNameInput u) in
  if negb (truthy name) then
    (s |> setNotification
            (Some (mkNotification error "名称无效" "数据库名称不能为空。" None)), u, w)
  else
    let fullName := DB_PREFIX +:+ "-" +:+ name in
    if bool_decide (fullName ∈ userDbNames s) || bool_decide (name = "demo") then
      (s |> setNotification
              (Some (mkNotification error "名称重复" "该名称的数据库已存在。" None)), u, w)
    else
      match initDB fullName w with
      | (Ok _, w') =>
          (s |> setUserDbNames (userDbNames s ++ [fullName])
             |> setNotification
                  (Some (mkNotification success "创建成功"
                           ("数据库 " +:+ dquote +:+ getDisplayName fullName +:+ dquote
                            +:+ " 已创建。") None)),
           u |> setIsCreateDbModalOpen false |> setNewDbNameInput "", w')
      | (Err e, w') =>
          (s |> setNotification
                  (Some (mkNotification error "创建失败"
                           ("创建数据库时发生错误: " +:+ errorMessage e) None)), u, w')
      end.

(** The first half of [handleDeleteDb]: when the database to delete is
    the active one, the component leaves it, for the default database or
    else the first of the others, or for volatile mode when it was the last. *)
Definition handleDeleteDb_leave (nameToDelete : string) (s : AppState) (w : World)
  : AppState * World :=
  let newDbNames := filter (λ n, n ≠ nameToDelete) (userDbNames s) in
  let enterVolatile :=
    (s |> setActiveDbName TEMP_STORAGE_DB_NAME_EXPORT
       |> setEvents [] |> setCustomTags [] |> setStepTemplates []
       |> setStepSetTemplates [] |> setPendingActions []
       |> setDbError (Some LastDatabaseDeleted)
       |> setDbStatus
            (Some (mkDbStatus "最后数据库已删除。您的更改现在是临时的。" info)),
     w |> removeItem "activeDbName") in
  if bool_decide (nameToDelete = activeDbName s) then
    let nextDb :=
      match find (λ name, bool_decide (name = DEFAULT_DB_NAME)) newDbNames with
      | Some found => if truthy found then Some found else head newDbNames
      | None => head newDbNames
      end in
    match nextDb with
    | Some next => if truthy next then handleSwitchDb next s w else enterVolatile
    | None => enterVolatile
    end
  else (s, w).

(** [handleDeleteDb], which listens for two events of the deletion
    request, [onsuccess] and [onerror]; [refused] tells whether the request
    ends in [onerror] (it is not one of [Request]). *)
Definition handleDeleteDb (refused : bool) (s : AppState) (u : UiState) (w : World)
  : AppState * UiState * World :=
  match dbToDelete u with
  | None => (s, u, w)
  | Some nameToDelete =>
      if negb (truthy nameToDelete) then (s, u, w)
      else
        let u1 := u |> setDbToDelete None in
        let newDbNames := filter (λ n, n ≠ nameToDelete) (userDbNames s) in
        let '(s1, w1) := handleDeleteDb_leave nameToDelete s w in
        let w2 := closeConnection nameToDelete w1 in
        if refused then
          (s1 |> setNotification
                   (Some (mkNotification error "删除失败" "无法删除数据库。" None)), u1, w2)
        else
          (s1 |> setUserDbNames newDbNames
              |> setNotification
                   (Some (mkNotification success "删除成功"
                            ("数据库 " +:+ dquote +:+ getDisplayName nameToDelete
                             +:+ dquote +:+ " 已被删除。") None)),
           u1, deleteDatabase nameToDelete w2)
  end.

(** How a request to delete a database ends for [handleFormatApp], which
    listens for three events: the database is deleted ([onsuccess]), the
    engine refuses ([onerror], the promise is rejected), or the deletion is
    held up by a connection another tab keeps open ([onblocked]: the
    promise is fulfilled although the database is still there). *)
Inductive DeleteOutcome : Type :=
  | Deleted
  | DeleteFailed
  | DeleteBlocked.

#[global] Instance DeleteOutcome_eq_dec : EqDecision DeleteOutcome.
Proof. solve_decision. Defined.

(** [handleFormatApp]; [outcome] tells how the deletion of each database
    ends and [message] is the engine's word for the first refusal. Every
    deletion is requested before any outcome is looked at, so the ones the
    engine carries out are carried out also when another one is refused. *)
Definition handleFormatApp (outcome : string → DeleteOutcome) (message : string)
    (s : AppState) (u : UiState) (w : World) : AppState * UiState * World :=
  let u1 := u |> setIsFormatConfirmModalOpen false in
  if isTempStorageMode s then
    (s |> setEvents [] |> setCustomTags [] |> setStepTemplates []
       |> setStepSetTemplates [] |> setPendingActions []
       |> setNotification
            (Some (mkNotification success "会话已重置" "您的临时会话已重置为初始状态。"
                     None)), u1, w)
  else
    let w1 := setDbConnections ∅ w in
    let dbNamesToDelete := dedupe (SETTINGS_DB_NAME :: DEMO_DB_NAME :: userDbNames s) in
    let w2 :=
      foldl (λ w0 name, match outcome name with
                        | Deleted => deleteDatabase name w0
                        | DeleteFailed | DeleteBlocked => w0
                        end) w1 dbNamesToDelete in
    if existsb (λ name, bool_decide (outcome name = DeleteFailed)) dbNamesToDelete then
      (s |> setNotification
              (Some (mkNotification error "格式化失败"
                       ("格式化时发生错误: " +:+ message) None)), u1, w2)
    else
      (s |> setNotification
              (Some (mkNotification success "格式化成功"
                       "所有数据已被清除。应用将重新加载。" (Some ReloadWindow))),
       u1, setLocalStorage ∅ w2).

(** The work database is the only one listed, and is chosen for deletion. *)
Definition sampleLastDb : AppState := sampleHealthy |> setUserDbNames [sampleWorkName].

Definition sampleDeleting : UiState := initialUi |> setDbToDelete (Some sampleWorkName).

(** *** Notions for the statements on import and export *)

(** The file does not parse to a document with all four collections. *)
Definition malformed (content : ImportedJson) : Prop :=
match content with
| JsonValue (Some (mkImportData (Some _) (Some _) (Some _) (Some _))) => False
| _ => True
end.

(** The application data the component holds in memory. *)
Definition inMemory (s : AppState) : Snapshot.t :=
Snapshot.mk (events s) (customTags s) (stepTemplates s) (stepSetTemplates s).

(** *** The card grid *)

(** [gridConfig]: the number of columns of the card grid, from the density
    setting and the width of the window. Both are numbers; [NaN], which
    compares false with everything, is left out. *)
Definition gridConfig (cardDensity windowWidth : Q) : Z :=
  if Qle_bool 1280 windowWidth then
    if Qle_bool 95 cardDensity then 5
    else if Qle_bool 68 cardDensity then 4
    else if Qle_bool 40 cardDensity then 3
    else if Qle_bool 20 cardDensity then 2
    else 1
  else if Qle_bool 768 windowWidth then
    if Qle_bool 85 cardDensity then 4
    else if Qle_bool 55 cardDensity then 3
    else if Qle_bool 25 cardDensity then 2
    else 1
  else
    if Qle_bool 50 cardDensity then 2
    else 1.

(** *** Notions for the statements on the fold *)

(** The ids of the events the queue adds, and the ids it deletes. *)
Definition addedIds (actions : list PendingAction) : list string :=
omap (λ a, match a with ADD_EVENT event _ => Some (Event.id event) | _ => None end) actions.

Definition deletedIds (actions : list PendingAction) : list string :=
omap (λ a, match a with DELETE_EVENT eventId => Some eventId | _ => None end) actions.

(** [tauto], once the variables the goal does not mention are out of its
    way (it would otherwise make the proof depend on every parameter of the
    section). *)
Ltac prop_tauto :=
repeat match goal with
       | x : ?T |- _ => lazymatch type of T with
                        | Prop => fail
                        | _ => clear x
                        end
       end;
tauto.

(** ** Properties of the fold *)

Lemma applyPendingActions_nil baseEvents baseTags :
applyPendingActions baseEvents baseTags [] = (baseEvents, baseTags).
Proof. reflexivity. Qed.

Lemma applyPendingActions_cons baseEvents baseTags action actions :
applyPendingActions baseEvents baseTags (action :: actions)
= applyPendingActions (applyAction (baseEvents, baseTags) action).1
    (applyAction (baseEvents, baseTags) action).2 actions.
Proof.
unfold applyPendingActions. by rewrite <- surjective_pairing.
Qed.

Lemma applyPendingActions_app baseEvents baseTags actions1 actions2 :
applyPendingActions baseEvents baseTags (actions1 ++ actions2)
= applyPendingActions (applyPendingActions baseEvents baseTags actions1).1
    (applyPendingActions baseEvents baseTags actions1).2 actions2.
Proof.
unfold applyPendingActions. by rewrite foldl_app, <- surjective_pairing.
Qed.

Lemma hasEventId_spec (eventId : string) (l : list Event.t) :
existsb (λ e, bool_decide (Event.id e = eventId)) l = true ↔ eventId ∈ Event.id <$> l.
Proof.
induction l as [|e l IH]; simpl.
- split; [done | by intros ?%elem_of_nil].
- rewrite orb_true_iff, IH, elem_of_cons, bool_decide_eq_true.
  split; (intros [<-|?]; [by left | by right]).
Qed.

Lemma elem_of_stripTags (payload ts : list string) (t : string) :
t ∈ stripTags payload ts ↔ t ∈ ts ∧ t ∉ payload.
Proof.
unfold stripTags. rewrite list_elem_of_filter, elem_of_list_to_set. prop_tauto.
Qed.

Lemma stripTags_filter (payload ts : list string) :
stripTags payload ts = filter (λ t, t ∉ payload) ts.
Proof.
unfold stripTags. apply list_filter_iff. intros t. by rewrite elem_of_list_to_set.
Qed.



(** C5: an add-event action prepends its event unless the base already has
    an event of that id, in which case the fold returns the base as it is;
    so replaying the same add-event action a second time changes nothing. *)
Theorem add_event_idempotent (baseEvents : list Event.t) (baseTags : list string)
  (event : Event.t) (image image' : option File) :
((∀ e, e ∈ baseEvents → Event.id e ≠ Event.id event) →
   applyPendingActions baseEvents baseTags [ADD_EVENT event image]
   = (event :: baseEvents, baseTags))
∧ ((∃ e, e ∈ baseEvents ∧ Event.id e = Event.id event) →
     applyPendingActions baseEvents baseTags [ADD_EVENT event image]
     = (baseEvents, baseTags))
∧ applyPendingActions baseEvents baseTags [ADD_EVENT event image; ADD_EVENT event image']
  = applyPendingActions baseEvents baseTags [ADD_EVENT event image]
∧ (∀ e, e ∈ (applyPendingActions baseEvents baseTags
               [ADD_EVENT event image; ADD_EVENT event image']).1
        ↔ e ∈ (applyPendingActions baseEvents baseTags [ADD_EVENT event image]).1).
Proof.
assert (Hrun : ∀ evs img, applyPendingActions evs baseTags [ADD_EVENT event img]
  = if existsb (λ e, bool_decide (Event.id e = Event.id event)) evs
    then (evs, baseTags) else (event :: evs, baseTags)).
{ intros evs img. unfold applyPendingActions. simpl. by destruct (existsb _ evs). }
assert (Htwice : applyPendingActions baseEvents baseTags
                   [ADD_EVENT event image; ADD_EVENT event image']
                 = applyPendingActions baseEvents baseTags [ADD_EVENT event image]).
{ rewrite applyPendingActions_cons. change (applyAction (baseEvents, baseTags) (ADD_EVENT event image))
    with (applyPendingActions baseEvents baseTags [ADD_EVENT event image]).
  rewrite (Hrun baseEvents image).
  destruct (existsb _ baseEvents) eqn:Hex; simpl.
  - by rewrite Hrun, Hex.
  - rewrite Hrun. simpl. by rewrite bool_decide_eq_true_2. }
split_and!.
- intros Hfresh. rewrite Hrun.
  destruct (existsb _ baseEvents) eqn:Hex; [|done].
  apply hasEventId_spec, list_elem_of_fmap in Hex as (e & Heq & Hin).
  by destruct (Hfresh e Hin).
- intros (e & Hin & Heq). rewrite Hrun.
  destruct (existsb _ baseEvents) eqn:Hex; [done|].
  assert (Event.id event ∈ Event.id <$> baseEvents) as Hin'%hasEventId_spec.
  { rewrite <- Heq. by apply list_elem_of_fmap_2. }
  congruence.
- exact Htwice.
- intros e. by rewrite Htwice.
Qed.
(** C6: a delete-tags action removes the named tags from the tag collection
    and from the tag set of every event, in one pass of the fold: no deleted
    name is left anywhere, the other tags keep their places, the events keep
    their number, order and every other field; [handleDeleteTags] updates
    the in-memory snapshot in the very same way. *)
Theorem delete_tags_strips_everywhere (baseEvents : list Event.t) (baseTags names : list string) :
let result := applyPendingActions baseEvents baseTags [DELETE_TAGS names] in
(* the tag collection *)
result.2 = filter (λ t, t ∉ names) baseTags
∧ (∀ t, t ∈ result.2 → t ∉ names)
(* the events: one for one, in place *)
∧ length result.1 = length baseEvents
∧ (∀ i e, baseEvents !! i = Some e →
     ∃ e', result.1 !! i = Some e'
           ∧ Event.id e' = Event.id e
           ∧ Event.title e' = Event.title e
           ∧ Event.description e' = Event.description e
           ∧ Event.createdAt e' = Event.createdAt e
           ∧ Event.steps e' = Event.steps e
           ∧ Event.imageUrl e' = Event.imageUrl e
           ∧ Event.hasOriginalImage e' = Event.hasOriginalImage e
           ∧ Event.tags e' = (filter (λ t, t ∉ names)) <$> Event.tags e)
∧ (∀ e' ts t, e' ∈ result.1 → Event.tags e' = Some ts → t ∈ ts → t ∉ names)
(* the handler applies the same update to the state *)
∧ (∀ s, events (handleDeleteTags names s)
        = (applyPendingActions (events s) (customTags s) [DELETE_TAGS names]).1
        ∧ customTags (handleDeleteTags names s)
          = (applyPendingActions (events s) (customTags s) [DELETE_TAGS names]).2).
Proof.
cbv zeta. unfold applyPendingActions. simpl.
split_and!.
- apply stripTags_filter.
- intros t Hin%elem_of_stripTags. prop_tauto.
- by rewrite length_fmap.
- intros i e Hi. eexists. rewrite list_lookup_fmap, Hi. simpl.
  split_and!; try reflexivity.
  destruct (Event.tags e); simpl; [|done]. by rewrite stripTags_filter.
- intros e' ts t Hin Htags Ht.
  apply list_elem_of_fmap in Hin as (e & -> & _). simpl in Htags.
  destruct (Event.tags e) as [ts0|]; simplify_eq/=.
  apply elem_of_stripTags in Ht. prop_tauto.
- intros s. unfold handleDeleteTags. by destruct (mustQueue s).
Qed.

(** ** Properties of the queue and of the sync engine *)

Lemma handleAddTag_queue (s : AppState) (newTags : list string) (acc : AppState) :
mustQueue s = true →
(∀ tag, tag ∈ newTags → tag ∉ customTags s) →
pendingActions (foldl (λ acc tag, handleAddTag s tag acc) acc newTags)
= pendingActions acc ++ (ADD_TAG <$> newTags).
Proof.
intros Hq. revert acc. induction newTags as [|tag newTags IH]; intros acc Hnew; simpl.
- by rewrite app_nil_r.
- rewrite IH by (intros; apply Hnew; by right).
  unfold handleAddTag. rewrite bool_decide_eq_false_2 by (apply Hnew; by left).
  rewrite Hq. simpl. by rewrite <- app_assoc.
Qed.

Lemma filter_isUpdateEventOf_addTags (eventId : string) (tags : list string) :
filter (λ a, isUpdateEventOf eventId a) (ADD_TAG <$> tags) = []
∧ filter (λ a, ¬ isUpdateEventOf eventId a) (ADD_TAG <$> tags) = ADD_TAG <$> tags.
Proof.
induction tags as [|t tags [IH1 IH2]]; [done|]. rewrite fmap_cons. split.
- rewrite filter_cons_False; [done|]. simpl. prop_tauto.
- rewrite filter_cons_True; [by rewrite IH2|]. simpl. prop_tauto.
Qed.

Lemma filter_not_then_filter {A} (P : A → Prop) `{∀ x, Decision (P x)} (l : list A) :
filter P (filter (λ x, ¬ P x) l) = [].
Proof.
induction l as [|x l IH]; [done|].
rewrite filter_cons. destruct (decide (¬ P x)); [|done].
rewrite filter_cons. by destruct (decide (P x)).
Qed.

(** C4: enqueuing an update-event for event id X leaves exactly one
    update-event action for X in the queue, the one just enqueued with the
    latest payload; every earlier queued update-event for X is removed, and
    the other queued actions keep their order. *)
Theorem update_event_replaces_queued (updatedEvent : Event.t)
  (originalImage : option ImageUpdate) (s : AppState) (w : World) :
mustQueue s = true →
let finalEvent := finalEventOf s updatedEvent originalImage in
let queue' := pendingActions (handleUpdateEvent updatedEvent originalImage s w).1 in
Event.id finalEvent = Event.id updatedEvent
∧ filter (λ a, isUpdateEventOf (Event.id updatedEvent) a) queue'
  = [UPDATE_EVENT finalEvent originalImage]
∧ last queue' = Some (UPDATE_EVENT finalEvent originalImage)
∧ ∃ newTags,
    queue' = filter (λ a, ¬ isUpdateEventOf (Event.id updatedEvent) a) (pendingActions s)
             ++ (ADD_TAG <$> newTags)
             ++ [UPDATE_EVENT finalEvent originalImage].
Proof.
intros Hq finalEvent queue'.
assert (Hid : Event.id finalEvent = Event.id updatedEvent) by done.
set (newTags := filter (λ tag, tag ∉ customTags s) (default [] (Event.tags finalEvent))).
assert (Hqueue : queue'
  = filter (λ a, ¬ isUpdateEventOf (Event.id updatedEvent) a) (pendingActions s)
    ++ (ADD_TAG <$> newTags) ++ [UPDATE_EVENT finalEvent originalImage]).
{ subst queue'. unfold handleUpdateEvent. rewrite Hq.
  fold finalEvent. fold newTags.
  assert (Hs1 : pendingActions (foldl (λ acc tag, handleAddTag s tag acc) s newTags)
                = pendingActions s ++ (ADD_TAG <$> newTags)).
  { apply handleAddTag_queue; [done|]. intros tag Hin.
    by apply list_elem_of_filter in Hin as [? _]. }
  assert (Hgoal : ∀ s2, pendingActions s2 = pendingActions s ++ (ADD_TAG <$> newTags) →
    pendingActions
      (s2 |> (λ a, setEvents ((λ e, if decide (Event.id e = Event.id finalEvent)
                                    then finalEvent else e) <$> events a) a)
          |> (λ a, setPendingActions
                     (filter (λ a', ¬ isUpdateEventOf (Event.id finalEvent) a')
                        (pendingActions a) ++ [UPDATE_EVENT finalEvent originalImage]) a)
          |> showActionNotification "更新已临时保存")
    = filter (λ a, ¬ isUpdateEventOf (Event.id updatedEvent) a) (pendingActions s)
      ++ (ADD_TAG <$> newTags) ++ [UPDATE_EVENT finalEvent originalImage]).
  { intros s2 Hs2. simpl. rewrite Hs2, filter_app.
    rewrite (proj2 (filter_isUpdateEventOf_addTags _ _)). by rewrite <- app_assoc. }
  destruct newTags as [|t ts] eqn:Hnt; simpl;
    repeat case_bool_decide; simpl; first [ by apply (Hgoal s) | by apply Hgoal ]. }
split_and!.
- done.
- rewrite Hqueue, !filter_app, filter_not_then_filter.
  rewrite (proj1 (filter_isUpdateEventOf_addTags _ _)). simpl.
  rewrite filter_cons_True; [done|]. simpl. by rewrite bool_decide_eq_true_2.
- rewrite Hqueue, !app_assoc. apply last_snoc.
- by exists newTags.
Qed.

(** ** The store adapter: what a request leaves behind *)

Lemma leaves_refl (w : World) (dbName : string) : leaves w w dbName (theDb w dbName).
Proof. by repeat split. Qed.

Lemma leaves_trans (w w1 w2 : World) (dbName : string) (db1 db2 : Database) :
leaves w w1 dbName db1 → leaves w1 w2 dbName db2 → leaves w w2 dbName db2.
Proof.
intros (_ & Hf1 & Hr1 & Hl1) (Hd2 & Hf2 & Hr2 & Hl2). repeat split.
- done.
- intros n Hn. by rewrite Hf2, Hf1.
- congruence.
- congruence.
Qed.

Lemma leaves_serves (w w' : World) (dbName n : string) (db' : Database) :
leaves w w' dbName db' → serves w n → serves w' n.
Proof. intros (_ & _ & Hr & _) Hs. unfold serves. by rewrite Hr. Qed.

Lemma theDb_setDb (w : World) (n n' : string) (db : Database) :
theDb (setDb n db w) n' = if decide (n = n') then db else theDb w n'.
Proof.
unfold theDb, setDb. simpl. destruct (decide (n = n')) as [->|Hne].
- by rewrite lookup_insert_eq.
- by rewrite lookup_insert_ne.
Qed.

Lemma initDB_leaves (dbName : string) (w w' : World) (r : Result unit) :
initDB dbName w = (r, w') → ∀ n, leaves w w' n (theDb w n).
Proof.
unfold initDB. intros Hrun n.
destruct (bool_decide (dbName ∈ dbConnections w)); [simplify_eq; apply leaves_refl|].
destruct (rejects w (OpenDb dbName)); simplify_eq; [apply leaves_refl|].
assert (Hsame : ∀ n', theDb (setDbConnections ({[dbName]} ∪ dbConnections w)
                               (setDb dbName (theDb w dbName) w)) n' = theDb w n').
{ intros n'. change (theDb (setDb dbName (theDb w dbName) w) n' = theDb w n').
  rewrite theDb_setDb. by destruct (decide (dbName = n')) as [->|]. }
repeat split; auto.
Qed.

Lemma initDB_served (dbName : string) (w : World) :
rejects w (OpenDb dbName) = false → ∃ w', initDB dbName w = (Ok tt, w').
Proof.
intros Hopen. unfold initDB. rewrite Hopen.
destruct (bool_decide (dbName ∈ dbConnections w)); eauto.
Qed.

(** A request on a store that comes back fulfilled did what [op] says, in
    one piece. *)
Lemma withStore_Ok {A} (dbName : string) (r : Request) (op : Database → A * Database)
  (w w' : World) (a : A) :
withStore dbName r op w = (Ok a, w') →
a = (op (theDb w dbName)).1 ∧ leaves w w' dbName (op (theDb w dbName)).2.
Proof.
unfold withStore, io_bind, request. intros Hrun.
destruct (initDB dbName w) as [[[]|e] w1] eqn:Hinit; [|done].
apply initDB_leaves with (n := dbName) in Hinit as (Hd & Hf & Hr & Hl).
destruct (rejects w1 r); [done|].
destruct (op (theDb w1 dbName)) as [a' db'] eqn:Hop. simplify_eq.
rewrite Hd in Hop. rewrite Hop. simpl. split; [done|]. repeat split.
- rewrite theDb_setDb. by rewrite decide_True.
- intros n Hn. rewrite theDb_setDb. rewrite decide_False by done. by apply Hf.
- done.
- done.
Qed.

(** A rejected request leaves every database as it was. *)
Lemma withStore_Err {A} (dbName : string) (r : Request) (op : Database → A * Database)
  (w w' : World) (e : Error) :
withStore dbName r op w = (Err e, w') → ∀ n, leaves w w' n (theDb w n).
Proof.
unfold withStore, io_bind, request. intros Hrun n.
destruct (initDB dbName w) as [[[]|e'] w1] eqn:Hinit.
- apply initDB_leaves with (n := n) in Hinit.
  destruct (rejects w1 r); [by simplify_eq|].
  by destruct (op (theDb w1 dbName)).
- simplify_eq. by apply initDB_leaves with (n := n) in Hinit.
Qed.

(** A request the engine serves is fulfilled. *)
Lemma withStore_served {A} (dbName : string) (r : Request) (op : Database → A * Database)
  (w : World) :
rejects w (OpenDb dbName) = false → rejects w r = false →
∃ w', withStore dbName r op w = (Ok (op (theDb w dbName)).1, w')
      ∧ leaves w w' dbName (op (theDb w dbName)).2.
Proof.
intros Hopen Hr.
assert (∃ a w', withStore dbName r op w = (Ok a, w')) as (a & w' & Hrun).
{ unfold withStore, io_bind, request.
  destruct (initDB_served dbName w Hopen) as [w1 Hinit]. rewrite Hinit.
  apply initDB_leaves with (n := dbName) in Hinit as (_ & _ & Hr1 & _).
  rewrite Hr1, Hr. destruct (op (theDb w1 dbName)). eauto. }
exists w'. destruct (withStore_Ok _ _ _ _ _ _ Hrun) as [-> Hl]. by split.
Qed.

(** [Promise.all] is fulfilled exactly when every promise is, each run in
    the world the one before it left. *)
Lemma io_all_cons_Ok (p : IO unit) (ps : list (IO unit)) (w w' : World) :
io_all (p :: ps) w = (Ok tt, w') ↔ ∃ w1, p w = (Ok tt, w1) ∧ io_all ps w1 = (Ok tt, w').
Proof.
simpl. unfold io_both.
destruct (p w) as [[[]|e] w1]; destruct (io_all ps w1) as [[[]|e'] w2] eqn:Hps; split.
all: try (intros [= <-]; eauto).
all: try (intros (w3 & [= <-] & Hps'); rewrite Hps in Hps'; by simplify_eq).
all: try done.
all: by intros (w3 & ? & ?).
Qed.

Lemma io_bind_Ok {A B} (m : IO A) (k : A → IO B) (w w' : World) (b : B) :
io_bind m k w = (Ok b, w') ↔ ∃ a w1, m w = (Ok a, w1) ∧ k a w1 = (Ok b, w').
Proof.
unfold io_bind. destruct (m w) as [[a|e] w1]; split.
- eauto.
- by intros (? & ? & ? & ?); simplify_eq.
- done.
- by intros (? & ? & ? & ?).
Qed.

Lemma io_both_Ok {A B} (a : IO A) (b : IO B) (w w' : World) (x : A) (y : B) :
io_both a b w = (Ok (x, y), w') ↔ ∃ w1, a w = (Ok x, w1) ∧ b w1 = (Ok y, w').
Proof.
unfold io_both.
destruct (a w) as [[x'|e] w1]; destruct (b w1) as [[y'|e'] w2] eqn:Hb; split.
all: try (intros [= <- <- <-]; eauto).
all: try (intros (w3 & [= <- <-] & Hb'); rewrite Hb in Hb'; by simplify_eq).
all: try done.
all: by intros (w3 & ? & ?).
Qed.

Lemma keeps_ret {X A} (f : Database → X) (a : A) : keeps f (io_ret a).
Proof. by intros w r w' [= <- <-]. Qed.

Lemma keeps_bind {X A B} (f : Database → X) (m : IO A) (k : A → IO B) :
keeps f m → (∀ a, keeps f (k a)) → keeps f (io_bind m k).
Proof.
intros Hm Hk w r w' Hrun n. unfold io_bind in Hrun.
destruct (m w) as [[a|e] w1] eqn:Hmw.
- rewrite (Hk a _ _ _ Hrun n). by apply (Hm _ _ _ Hmw).
- simplify_eq. by apply (Hm _ _ _ Hmw).
Qed.

Lemma keeps_both {X A B} (f : Database → X) (a : IO A) (b : IO B) :
keeps f a → keeps f b → keeps f (io_both a b).
Proof.
intros Ha Hb w r w' Hrun n. unfold io_both in Hrun.
destruct (a w) as [ra w1] eqn:Haw. destruct (b w1) as [rb w2] eqn:Hbw.
simplify_eq. rewrite (Hb _ _ _ Hbw n). by apply (Ha _ _ _ Haw).
Qed.

Lemma keeps_all {X} (f : Database → X) (ps : list (IO unit)) :
Forall (keeps f) ps → keeps f (io_all ps).
Proof.
induction 1 as [|p ps Hp _ IH]; [apply keeps_ret|].
intros w r w' Hrun n. simpl in Hrun.
destruct (io_both p (io_all ps) w) as [r' w''] eqn:Hboth. simplify_eq.
by apply (keeps_both f p (io_all ps) Hp IH _ _ _ Hboth).
Qed.

Lemma keeps_withStore {X A} (f : Database → X) (dbName : string) (r : Request)
  (op : Database → A * Database) :
(∀ db, f (op db).2 = f db) → keeps f (withStore dbName r op).
Proof.
intros Hop w [a|e] w' Hrun n.
- apply withStore_Ok in Hrun as [_ (Hd & Hf & _)].
  destruct (decide (n = dbName)) as [->|Hne]; [by rewrite Hd, Hop | by rewrite Hf].
- pose proof (withStore_Err _ _ _ _ _ _ Hrun n) as (Heq & _). by rewrite Heq.
Qed.

Lemma keeps_syncImage {X} (f : Database → X) (dbName : string) (action : PendingAction) :
(∀ v db, f (sr_set originalImagesStore v db) = f db) → keeps f (syncImage dbName action).
Proof.
intros Hf. destruct action as [ev [img|]|ev [[img|]|]|eid|? ?|?|?|? ?|?]; simpl;
  first [ apply keeps_ret | apply keeps_withStore; intros db; apply Hf ].
Qed.


(** C2: when the write of a sync flush fails, the queue is exactly what it
    was (no action removed or reordered), the degraded flag is raised with
    the error, a failure status is reported and the in-memory snapshot is
    left as it was; and while the flag is up the sync engine does not run,
    so the queue stays as it is. *)
Theorem sync_failure_keeps_queue (s : AppState) (w w' : World) (e : Error) :
performSync_write s (applyPendingActions (events s) (customTags s) (pendingActions s)).1
  (applyPendingActions (events s) (customTags s) (pendingActions s)).2 w = (Err e, w') →
pendingActions (performSync s w).1 = pendingActions s
∧ dbError (performSync s w).1 = Some e
∧ status_type <$> dbStatus (performSync s w).1 = Some error
∧ events (performSync s w).1 = events s
∧ customTags (performSync s w).1 = customTags s
∧ (performSync s w).2 = w'
∧ ∀ w'', syncEffect (performSync s w).1 w'' = ((performSync s w).1, w'').
Proof.
intros Hfail. unfold performSync.
destruct (applyPendingActions (events s) (customTags s) (pendingActions s))
  as [processedEvents processedTags]. simpl in Hfail. rewrite Hfail.
split_and!; try done.
intros w''. unfold syncEffect. simpl. by rewrite !orb_true_r, !andb_false_r.
Qed.

(** C3, as amended: when the write of a sync flush succeeds, the fold of
    the events and tags in memory with the queue (not of what the database
    holds, which the flush does not read) becomes the in-memory baseline,
    the queue is emptied, the degraded flag is cleared and a success status
    is reported; and the active database (the demo dataset apart, which is
    never written) then holds that same snapshot: its events store is the
    folded events put into the emptied store, its tag list the folded
    tags. *)
Theorem sync_success_adopts (s : AppState) (w w' : World) :
performSync_write s (applyPendingActions (events s) (customTags s) (pendingActions s)).1
  (applyPendingActions (events s) (customTags s) (pendingActions s)).2 w = (Ok tt, w') →
(events (performSync s w).1, customTags (performSync s w).1)
  = applyPendingActions (events s) (customTags s) (pendingActions s)
∧ pendingActions (performSync s w).1 = []
∧ dbError (performSync s w).1 = None
∧ status_type <$> dbStatus (performSync s w).1 = Some success
∧ (performSync s w).2 = w'
∧ (activeDbName s ≠ DEMO_DB_NAME →
     db_events (theDb w' (activeDbName s)) = putAll (events (performSync s w).1) ∅
     ∧ db_tags (theDb w' (activeDbName s)) !! "allTags"
       = Some (customTags (performSync s w).1)).
Proof.
intros Hok. unfold performSync.
destruct (applyPendingActions (events s) (customTags s) (pendingActions s))
  as [processedEvents processedTags]. simpl in Hok. rewrite Hok.
split_and!; try done.
intros Hdemo. simpl. unfold performSync_write in Hok.
rewrite bool_decide_eq_true_2 in Hok by done.
apply io_all_cons_Ok in Hok as (w1 & H1 & Hok).
apply io_all_cons_Ok in Hok as (w2 & H2 & Hok).
apply withStore_Ok in H1 as [_ (D1 & _)]. apply withStore_Ok in H2 as [_ (D2 & _)].
rewrite D1 in D2. simpl in D2.
assert (Hkeep : Forall (keeps (λ db, (db_events db, db_tags db)))
                  (syncImage (activeDbName s) <$> pendingActions s)).
{ apply Forall_fmap, Forall_forall. intros a _. by apply keeps_syncImage. }
pose proof (keeps_all _ _ Hkeep _ _ _ Hok (activeDbName s)) as Hsame.
rewrite D2 in Hsame. simpl in Hsame. injection Hsame as -> ->.
split; [done | apply lookup_insert_eq].
Qed.

(** ** Object stores keyed by [id] *)

Lemma putAll_snoc {T} `{KeyPath T} (data : list T) (x : T) (m : gmap string T) :
putAll (data ++ [x]) m = <[keyPath x := x]> (putAll data m).
Proof. unfold putAll. by rewrite foldl_snoc. Qed.

Lemma lookup_putAll_fresh {T} `{KeyPath T} (data : list T) (m : gmap string T) (k : string) :
k ∉ keyPath <$> data → putAll data m !! k = m !! k.
Proof.
induction data as [|x data IH] using rev_ind; [done|].
rewrite fmap_app, elem_of_app. simpl. rewrite list_elem_of_singleton. intros Hk.
rewrite putAll_snoc, lookup_insert_ne by (intros Heq; apply Hk; by right).
apply IH. prop_tauto.
Qed.

(** Reading back what was put into an emptied store gives the records that
    were put, when no two of them share a key. *)
Lemma getAll_putAll {T} `{KeyPath T} (data : list T) :
NoDup (keyPath <$> data) → getAll (putAll data ∅) ≡ₚ data.
Proof.
unfold getAll. induction data as [|x data IH] using rev_ind; intros Hnd.
- unfold putAll. simpl. by rewrite map_to_list_empty.
- rewrite fmap_app in Hnd. apply NoDup_app in Hnd as (Hnd & Hfresh & _).
  rewrite putAll_snoc, map_to_list_insert.
  + rewrite fmap_cons. simpl. rewrite IH by done. by rewrite Permutation_app_comm.
  + rewrite lookup_putAll_fresh; [apply lookup_empty|].
    intros Hin. apply (Hfresh _ Hin). simpl. by left.
Qed.





Lemma reviveEventDates_id (event : Event.t) : reviveEventDates event = event.
Proof.
assert (Hs : ∀ sts : list ProgressStep.t,
  (λ step, ProgressStep.with_timestamp (newDateOf (ProgressStep.timestamp step)) step)
    <$> sts = sts).
{ induction sts as [|[] sts IH]; [done|]. by rewrite fmap_cons, IH. }
destruct event as [i t d c sts img tgs orig]. unfold reviveEventDates.
unfold Event.with_steps, Event.with_createdAt. simpl. by rewrite Hs.
Qed.

Lemma reviveEventDates_fmap (evs : list Event.t) : reviveEventDates <$> evs = evs.
Proof.
induction evs as [|e evs IH]; [done|]. by rewrite fmap_cons, reviveEventDates_id, IH.
Qed.

(** ** Saving, loading and switching, when the engine serves the database *)

Lemma io_bind_run {A B} (m : IO A) (k : A → IO B) (w w1 : World) (a : A) :
m w = (Ok a, w1) → io_bind m k w = k a w1.
Proof. intros Hm. unfold io_bind. by rewrite Hm. Qed.

Lemma serves_write (w : World) (dbName : string) (store : Store) :
serves w dbName → rejects w (WriteStore dbName store) = false.
Proof. intros [_ Hs]. apply Hs. Qed.

Lemma serves_read (w : World) (dbName : string) (store : Store) :
serves w dbName → rejects w (ReadStore dbName store) = false.
Proof. intros [_ Hs]. apply Hs. Qed.

Lemma serves_open (w : World) (dbName : string) :
serves w dbName → rejects w (OpenDb dbName) = false.
Proof. by intros [? _]. Qed.

(** The four writes of a snapshot, served: the database holds the snapshot. *)
Lemma saveSnapshot_served (dbName : string) (eventsToSave : list Event.t)
  (tagsToSave : list string) (templatesToSave : list StepTemplate.t)
  (setsToSave : list StepSetTemplate.t) (w : World) :
serves w dbName →
∃ w', io_all [ saveDataInStore dbName eventsStore eventsToSave;
               saveTagsInStore dbName tagsToSave;
               saveDataInStore dbName stepTemplatesStore templatesToSave;
               saveDataInStore dbName stepSetTemplatesStore setsToSave ] w = (Ok tt, w')
      ∧ leaves w w' dbName
          (savedDb eventsToSave tagsToSave templatesToSave setsToSave (theDb w dbName)).
Proof.
intros Hs.
destruct (withStore_served dbName (WriteStore dbName STORE_events)
            (λ db, (tt, sr_set eventsStore (putAll eventsToSave ∅) db)) w)
  as (w1 & H1 & L1); [by apply serves_open | by apply serves_write|].
pose proof (leaves_serves _ _ _ dbName _ L1 Hs) as Hs1.
destruct (withStore_served dbName (WriteStore dbName STORE_tags)
            (λ db, (tt, sr_set tagsStore (<["allTags" := tagsToSave]> (sr_get tagsStore db)) db))
            w1)
  as (w2 & H2 & L2); [by apply serves_open | by apply serves_write|].
pose proof (leaves_serves _ _ _ dbName _ L2 Hs1) as Hs2.
destruct (withStore_served dbName (WriteStore dbName STORE_stepTemplates)
            (λ db, (tt, sr_set stepTemplatesStore (putAll templatesToSave ∅) db)) w2)
  as (w3 & H3 & L3); [by apply serves_open | by apply serves_write|].
pose proof (leaves_serves _ _ _ dbName _ L3 Hs2) as Hs3.
destruct (withStore_served dbName (WriteStore dbName STORE_stepSetTemplates)
            (λ db, (tt, sr_set stepSetTemplatesStore (putAll setsToSave ∅) db)) w3)
  as (w4 & H4 & L4); [by apply serves_open | by apply serves_write|].
exists w4. split.
- apply io_all_cons_Ok. exists w1. split; [exact H1|].
  apply io_all_cons_Ok. exists w2. split; [exact H2|].
  apply io_all_cons_Ok. exists w3. split; [exact H3|].
  apply io_all_cons_Ok. exists w4. split; [exact H4|]. done.
- pose proof (leaves_trans _ _ _ _ _ _ (leaves_trans _ _ _ _ _ _
                (leaves_trans _ _ _ _ _ _ L1 L2) L3) L4) as L.
  destruct L1 as (D1 & _), L2 as (D2 & _), L3 as (D3 & _).
  rewrite D3, D2, D1 in L. exact L.
Qed.



Lemma read_served {A} (dbName : string) (store : Store) (f : Database → A) (w : World) :
serves w dbName →
∃ w', withStore dbName (ReadStore dbName store) (λ db, (f db, db)) w
      = (Ok (f (theDb w dbName)), w')
      ∧ leaves w w' dbName (theDb w dbName) ∧ serves w' dbName.
Proof.
intros Hs.
destruct (withStore_served dbName (ReadStore dbName store) (λ db, (f db, db)) w)
  as (w' & H & L); [by apply serves_open | by apply serves_read|].
exists w'. split_and!; [done.. | by eapply leaves_serves].
Qed.

Lemma readSnapshot_served (dbToLoad : string) (w : World) :
serves w dbToLoad →
∃ w', readSnapshot dbToLoad w = (Ok (storedSnapshot (theDb w dbToLoad)), w')
      ∧ leaves w w' dbToLoad (theDb w dbToLoad).
Proof.
intros Hs.
destruct (read_served dbToLoad STORE_events (λ db, getAll (db_events db)) w Hs)
  as (w1 & H1 & L1 & Hs1).
destruct (read_served dbToLoad STORE_tags (λ db, db_tags db !! "allTags") w1 Hs1)
  as (w2 & H2 & L2 & Hs2).
destruct (read_served dbToLoad STORE_stepTemplates (λ db, getAll (db_stepTemplates db)) w2 Hs2)
  as (w3 & H3 & L3 & Hs3).
destruct (read_served dbToLoad STORE_stepSetTemplates
            (λ db, getAll (db_stepSetTemplates db)) w3 Hs3)
  as (w4 & H4 & L4 & _).
pose proof (proj1 L1) as D1. pose proof (proj1 L2) as D2. pose proof (proj1 L3) as D3.
rewrite D1 in D2. rewrite D2 in D3.
rewrite D1 in H2, L2. rewrite D2 in H3, L3. rewrite D3 in H4, L4.
exists w4. split.
- unfold readSnapshot. apply io_bind_Ok.
  eexists (_, (_, (_, _))), w4. split; [|reflexivity].
  apply io_both_Ok. exists w1. split; [exact H1|].
  apply io_both_Ok. exists w2. split.
  { unfold getTagsFromStore. apply io_bind_Ok. eexists _, w2. split; [exact H2|reflexivity]. }
  apply io_both_Ok. exists w3. split; [exact H3 | exact H4].
- exact (leaves_trans _ _ _ _ _ _ (leaves_trans _ _ _ _ _ _
           (leaves_trans _ _ _ _ _ _ L1 L2) L3) L4).
Qed.

Lemma seedDb_served (dbToLoad : string) (startupEvents : list Event.t)
  (startupTags : list string) (w : World) :
serves w dbToLoad →
∃ w', io_bind (io_all [ saveDataInStore dbToLoad eventsStore startupEvents;
                        saveTagsInStore dbToLoad startupTags;
                        saveDataInStore dbToLoad stepTemplatesStore [];
                        saveDataInStore dbToLoad stepSetTemplatesStore [] ])
        (λ _, io_bind (saveMetadata dbToLoad "isSeeded" (MetaBool true))
                (λ _, io_ret (Snapshot.mk startupEvents startupTags [] []))) w
      = (Ok (Snapshot.mk startupEvents startupTags [] []), w')
      ∧ leaves w w' dbToLoad
          (let db' := savedDb startupEvents startupTags [] [] (theDb w dbToLoad) in
           sr_set metadataStore (<["isSeeded" := MetaBool true]> (db_metadata db')) db').
Proof.
intros Hs.
destruct (saveSnapshot_served dbToLoad startupEvents startupTags [] [] w Hs)
  as (w1 & H1 & L1).
pose proof (leaves_serves _ _ _ dbToLoad _ L1 Hs) as Hs1.
destruct (withStore_served dbToLoad (WriteStore dbToLoad STORE_metadata)
            (λ db, (tt, sr_set metadataStore
                          (<["isSeeded" := MetaBool true]> (sr_get metadataStore db)) db)) w1)
  as (w2 & H2 & L2); [by apply serves_open | by apply serves_write|].
rewrite (proj1 L1) in L2. exists w2. split.
- apply io_bind_Ok. exists tt, w1. split; [exact H1|].
  apply io_bind_Ok. exists tt, w2. split; [exact H2 | reflexivity].
- exact (leaves_trans _ _ _ _ _ _ L1 L2).
Qed.

(** A load the engine serves returns the baseline of the database. *)
Lemma loadData_served (dbToLoad : string) (w : World) :
dbToLoad ≠ DEMO_DB_NAME → serves w dbToLoad →
∃ w1, loadData dbToLoad w = (Ok (baselineOf dbToLoad (theDb w dbToLoad)).1, w1)
      ∧ leaves w w1 dbToLoad (baselineOf dbToLoad (theDb w dbToLoad)).2.
Proof.
intros Hdemo Hs. unfold loadData. rewrite bool_decide_eq_false_2 by done.
destruct (initDB_served dbToLoad w (serves_open _ _ Hs)) as [w0 Hinit].
pose proof (initDB_leaves _ _ _ _ Hinit dbToLoad) as L0.
pose proof (leaves_serves _ _ _ dbToLoad _ L0 Hs) as Hs0.
rewrite (io_bind_run _ _ _ _ _ Hinit).
destruct (read_served dbToLoad STORE_metadata (λ db, db_metadata db !! "isSeeded") w0 Hs0)
  as (w1 & H1 & L1 & Hs1).
unfold getMetadata, getDataFromStoreByKey. simpl sr_name. simpl sr_get.
rewrite (io_bind_run _ _ _ _ _ H1).
pose proof (leaves_trans _ _ _ _ _ _ L0 L1) as L01.
pose proof (proj1 L0) as D0. rewrite D0 in L01 |- *.
pose proof (proj1 L01) as D1.
unfold baselineOf, seeded.
destruct (metaTruthy (db_metadata (theDb w dbToLoad) !! "isSeeded")) eqn:Hseed; simpl.
- destruct (readSnapshot_served dbToLoad w1 Hs1) as (w2 & H2 & L2).
  rewrite D1 in H2, L2. exists w2. split; [done|].
  exact (leaves_trans _ _ _ _ _ _ L01 L2).
- unfold seedSnapshot, seededDb, seedSnapshot.
  destruct (bool_decide (dbToLoad = DEFAULT_DB_NAME)); simpl.
  + destruct (seedDb_served dbToLoad [tutorialEvent] ["教程"] w1 Hs1) as (w2 & H2 & L2).
    rewrite D1 in L2. exists w2. split; [exact H2|].
    exact (leaves_trans _ _ _ _ _ _ L01 L2).
  + destruct (seedDb_served dbToLoad [] [] w1 Hs1) as (w2 & H2 & L2).
    rewrite D1 in L2. exists w2. split; [exact H2|].
    exact (leaves_trans _ _ _ _ _ _ L01 L2).
Qed.

Lemma theDb_setItem (w : World) (k v n : string) : theDb (setItem k v w) n = theDb w n.
Proof. reflexivity. Qed.





(** ** Startup *)

Lemma discoverDatabases_truthy (w : World) (n : string) :
n ∈ discoverDatabases w → truthy n = true.
Proof.
unfold discoverDatabases.
destruct (negb (hasDatabasesApi w)); [by intros ?%elem_of_nil|].
destruct (rejects w ListDatabases); [by intros ?%elem_of_nil|].
intros [[Hprefix _] _]%list_elem_of_filter. by destruct n.
Qed.

Lemma find_default_spec (names : list string) :
match find (λ name, bool_decide (name = DEFAULT_DB_NAME)) names with
| Some found => found = DEFAULT_DB_NAME ∧ DEFAULT_DB_NAME ∈ names
| None => DEFAULT_DB_NAME ∉ names
end.
Proof.
induction names as [|n names IH]; simpl; [apply not_elem_of_nil|].
case_bool_decide as Hn.
- split; [done|]. rewrite Hn. by left.
- destruct (find _ names).
  + destruct IH as [Hfound ?]. split; [done | by right].
  + intros [?|?]%elem_of_cons; [congruence | done].
Qed.

(** C8, as amended: once the application has launched before, the active
    database is chosen by the fixed precedence (the stored name if it is
    still discovered, else the default name if discovered, else the first
    discovered name, else volatile mode); on a first launch the default
    name is chosen whatever is stored or discovered. The component adopts
    the chosen name. *)
Theorem startup_choice (s : AppState) (w : World) :
(initializeApp_activeDb w).1.1
= (if flagSet w "hasLaunchedBefore"
   then startupPrecedence (localStorage w !! "activeDbName") (discoverDatabases w)
   else DEFAULT_DB_NAME)
∧ activeDbName (initializeApp s w).1 = (initializeApp_activeDb w).1.1.
Proof.
split.
- unfold initializeApp_activeDb, startupPrecedence.
  destruct (flagSet w "hasLaunchedBefore"); simpl; [|done].
  pose proof (discoverDatabases_truthy w) as Htruthy.
  pose proof (find_default_spec (discoverDatabases w)) as Hfind.
  destruct (discoverDatabases w) as [|first names] eqn:Hd.
  { by destruct (localStorage w !! "activeDbName"). }
  assert (Hfallback :
    match find (λ name, bool_decide (name = DEFAULT_DB_NAME)) (first :: names) with
    | Some found => if truthy found then found else first
    | None => first
    end = if bool_decide (DEFAULT_DB_NAME ∈ first :: names) then DEFAULT_DB_NAME else first).
  { destruct (find _ (first :: names)) as [found|].
    - destruct Hfind as [Hfound Hin]. rewrite Hfound.
      rewrite (Htruthy DEFAULT_DB_NAME Hin).
      rewrite bool_decide_eq_true_2 by done. done.
    - by rewrite bool_decide_eq_false_2. }
  destruct (localStorage w !! "activeDbName") as [stored|]; [|exact Hfallback].
  destruct (decide (stored ∈ first :: names)) as [Hin|Hin].
  + rewrite (bool_decide_eq_true_2 (stored ∈ first :: names)) by done.
    by rewrite (Htruthy stored Hin).
  + rewrite (bool_decide_eq_false_2 (stored ∈ first :: names)) by done.
    rewrite orb_true_r. exact Hfallback.
- unfold initializeApp.
  destruct (initializeApp_activeDb w) as [[activeDb detectedDbNames] w1]. simpl.
  case_bool_decide; [done|].
  by destruct (initializeApp_load activeDb s w1) as [[[data []]|e] w2].
Qed.

(** ** The sort order of the event list *)

Lemma getProgress_bounds (event : Event.t) : (0 <= getProgress event <= 100)%Q.
Proof.
unfold getProgress.
destruct (Event.steps event) as [|step steps] eqn:Hsteps; [split; discriminate|].
assert (Hle : (length (completedSteps event) <= length (step :: steps))%nat).
{ unfold completedSteps. rewrite Hsteps. apply length_filter. }
set (c := Z.of_nat (length (completedSteps event))).
set (t := Z.of_nat (length (step :: steps))).
assert (Hc : 0 <= c) by apply Nat2Z.is_nonneg.
assert (Ht : 0 < t) by (subst t; simpl length; lia).
assert (Hct : c <= t) by (subst c t; lia).
destruct t as [|t|t]; try lia.
unfold Qle, Qdiv, Qmult, Qinv. simpl. split; nia.
Qed.

(** C9: the comparator of the ascending progress order is the progress of
    its first argument minus the creation instant of its second. For events
    created later than 100 ms after the epoch it is negative both ways,
    whereas the comparator the order calls for is positive on (b, a) when a
    has made less progress than b; and whatever way the engine's sort
    decides a pair from the comparator's answers, one of the two
    arrangements of a and b comes out with b before a. *)
Theorem progress_asc_misorders (swaps : comparison → comparison → bool) (a b : Event.t) :
sortsPairsBy swaps arraySort →
100 < Event.createdAt a → 100 < Event.createdAt b →
(getProgress a < getProgress b)%Q →
compareEvents progress_asc a b = (getProgress a - inject_Z (Event.createdAt b))%Q
∧ (compareEvents progress_asc a b < 0)%Q
∧ (compareEvents progress_asc b a < 0)%Q
∧ (compareProgressAsc a b < 0)%Q
∧ (0 < compareProgressAsc b a)%Q
∧ ∃ l, (l = [a; b] ∨ l = [b; a])
       ∧ arraySort (compareEvents progress_asc) l = [b; a]
       ∧ ∀ s, events s = l → trim (searchQuery s) = "" →
              activeFilters s = mkActiveFilters all [] → sortOrder s = progress_asc →
              filteredEvents s = [b; a].
Proof.
intros Hsort Ha Hb Hlt.
assert (Hneg : ∀ x y, 100 < Event.createdAt y → (compareEvents progress_asc x y < 0)%Q).
{ intros x y Hy. simpl. destruct (getProgress_bounds x) as [_ Hx].
  rewrite Zlt_Qlt in Hy. change (inject_Z 100) with 100%Q in Hy. lra. }
assert (Hab := Hneg a b Hb). assert (Hba := Hneg b a Ha).
assert (Hcab : Qcompare (compareEvents progress_asc a b) 0 = Lt) by (by apply Qlt_alt).
assert (Hcba : Qcompare (compareEvents progress_asc b a) 0 = Lt) by (by apply Qlt_alt).
split_and!; [done | done | done | | |].
- unfold compareProgressAsc. lra.
- unfold compareProgressAsc. lra.
- assert (Hfiltered : ∀ l s, events s = l → trim (searchQuery s) = "" →
    activeFilters s = mkActiveFilters all [] → sortOrder s = progress_asc →
    filteredEvents s = arraySort (compareEvents progress_asc) l).
  { intros l s He Hq Hf Ho. unfold filteredEvents.
    rewrite He, Hq, Hf, Ho. rewrite bool_decide_eq_false_2 by (intros H; by apply H).
    simpl. f_equal. clear. induction l as [|e l IH]; [done|].
    rewrite filter_cons_True by done. by rewrite IH. }
  destruct (swaps Lt Lt) eqn:Hswap.
  + exists [a; b]. split; [by left|].
    assert (Hres : arraySort (compareEvents progress_asc) [a; b] = [b; a]).
    { rewrite Hsort. by rewrite Hcab, Hcba, Hswap. }
    split; [done|]. intros s ????. by rewrite (Hfiltered [a; b]).
  + exists [b; a]. split; [by right|].
    assert (Hres : arraySort (compareEvents progress_asc) [b; a] = [b; a]).
    { rewrite Hsort. by rewrite Hcab, Hcba, Hswap. }
    split; [done|]. intros s ????. by rewrite (Hfiltered [b; a]).
Qed.

(** ** Import *)

Lemma gen_map_Forall2 {A B} (f : A → Gen B) (R : A → B → Prop) :
(∀ x st y st', f x st = (y, st') → R x y) →
∀ xs st ys st', gen_map f xs st = (ys, st') → Forall2 R xs ys.
Proof.
intros Hf. induction xs as [|x xs IH]; intros st ys st' Hrun; simpl in Hrun.
- simplify_eq. constructor.
- destruct (f x st) as [y st1] eqn:Hfx.
  destruct (gen_map f xs st1) as [ys' st2] eqn:Hrest. simplify_eq.
  constructor; [by eapply Hf | by eapply IH].
Qed.

(** The elements of [gen_map f xs] take their keys from the stamps in the
    order they are read, each element at least one. *)
Lemma gen_map_keys {A B} (f : A → Gen B) (key : B → string) (G : nat → string) :
(∀ x st y st', f x st = (y, st') → key y = G st.1 ∧ (st.1 < st'.1)%nat) →
∀ xs st ys st', gen_map f xs st = (ys, st') →
  (st.1 ≤ st'.1)%nat ∧ key <$> ys `sublist_of` G <$> seq st.1 (st'.1 - st.1).
Proof.
intros Hf. induction xs as [|x xs IH]; intros st ys st' Hrun; simpl in Hrun.
- simplify_eq. split; [done|]. apply sublist_nil_l.
- destruct (f x st) as [y st1] eqn:Hfx.
  destruct (gen_map f xs st1) as [ys' st2] eqn:Hrest. simplify_eq.
  destruct (Hf _ _ _ _ Hfx) as [Hkey Hlt].
  destruct (IH _ _ _ Hrest) as [Hle Hsub].
  split; [lia|].
  replace (st'.1 - st.1)%nat with (S (st1.1 - S st.1) + (st'.1 - st1.1))%nat by lia.
  rewrite seq_app, fmap_app. simpl. rewrite Hkey.
  apply sublist_skip.
  replace (st.1 + S (st1.1 - S st.1))%nat with st1.1 by lia.
  by apply sublist_inserts_l.
Qed.

Lemma gen_map_keys_NoDup {A B} (f : A → Gen B) (key : B → string) (G : nat → string) :
(∀ x st y st', f x st = (y, st') → key y = G st.1 ∧ (st.1 < st'.1)%nat) →
(∀ i j, G i = G j → i = j) →
∀ xs st ys st', gen_map f xs st = (ys, st') → NoDup (key <$> ys).
Proof.
intros Hf Hinj xs st ys st' Hrun.
destruct (gen_map_keys f key G Hf _ _ _ _ Hrun) as [_ Hsub].
refine (sublist_NoDup _ _ _ Hsub).
apply NoDup_fmap_2; [|apply NoDup_seq]. intros i j. apply Hinj.
Qed.

Lemma gen_map_counter {A B} (f : A → Gen B) :
(∀ x st y st', f x st = (y, st') → (st.1 < st'.1)%nat) →
∀ xs st ys st', gen_map f xs st = (ys, st') → (st.1 ≤ st'.1)%nat.
Proof.
intros Hf xs st ys st' Hrun.
apply (gen_map_keys f (λ _, "") (λ _, "") (λ x st y st' H, conj eq_refl (Hf x st y st' H))
         _ _ _ _ Hrun).
Qed.

Lemma prefixed_stamp_inj (o : Oracle) (prefix : string) :
(∀ i j, stamp o i = stamp o j → i = j) →
∀ i j, prefix +:+ "-" +:+ stamp o i = prefix +:+ "-" +:+ stamp o j → i = j.
Proof.
intros Hinj i j Heq. apply Hinj.
by apply (String.app_inj "-"), (String.app_inj prefix).
Qed.

Lemma importStep_spec (o : Oracle) (step step' : ProgressStep.t) (st st' : nat * nat) :
importStep o step st = (step', st') →
regeneratedStep o step step'
∧ ProgressStep.id step' = "step" +:+ "-" +:+ stamp o st.1
∧ (st.1 < st'.1)%nat.
Proof.
unfold importStep. simpl. intros [= <- <-]. simpl.
split; [|split; [done | lia]].
split_and!; [by exists st.1 | by exists st.2 | done | done].
Qed.

Lemma importEvent_spec (o : Oracle) (event event' : Event.t) (st st' : nat * nat) :
importEvent o event st = (event', st') →
regeneratedEvent o event event'
∧ Event.id event' = "event" +:+ "-" +:+ stamp o st.1
∧ (st.1 < st'.1)%nat
∧ ((∀ i j, stamp o i = stamp o j → i = j) →
     NoDup (ProgressStep.id <$> Event.steps event')).
Proof.
unfold importEvent. simpl.
destruct (gen_map (importStep o) (Event.steps event) (S st.1, S st.2))
  as [newSteps st3] eqn:Hsteps.
intros [= <- <-]. simpl.
pose proof (gen_map_Forall2 (importStep o) (regeneratedStep o)
              (λ x s y s' H, proj1 (importStep_spec o x y s s' H)) _ _ _ _ Hsteps) as Hall.
pose proof (gen_map_counter (importStep o)
              (λ x s y s' H, proj2 (proj2 (importStep_spec o x y s s' H))) _ _ _ _ Hsteps)
  as Hle. simpl in Hle.
split_and!.
- split_and!; [by exists st.1 | by exists st.2 | done..].
- done.
- lia.
- intros Hinj.
  apply (gen_map_keys_NoDup (importStep o) ProgressStep.id
           (λ k, "step" +:+ "-" +:+ stamp o k)
           (λ x s y s' H, proj2 (importStep_spec o x y s s' H))
           (prefixed_stamp_inj o "step" Hinj) _ _ _ _ Hsteps).
Qed.

Lemma importStepTemplate_spec (o : Oracle) (template template' : StepTemplate.t)
  (st st' : nat * nat) :
importStepTemplate o template st = (template', st') →
regeneratedTemplate o template template'
∧ StepTemplate.id template' = "template" +:+ "-" +:+ stamp o st.1
∧ (st.1 < st'.1)%nat.
Proof.
unfold importStepTemplate. simpl. intros [= <- <-]. simpl.
split; [|split; [done | lia]]. split; [by exists st.1 | done].
Qed.

Lemma importSetStep_spec (o : Oracle) (step step' : StepSetTemplateStep.t)
  (st st' : nat * nat) :
importSetStep o step st = (step', st') →
regeneratedSetStep o step step'
∧ StepSetTemplateStep.id step' = "set-step" +:+ "-" +:+ stamp o st.1
∧ (st.1 < st'.1)%nat.
Proof.
unfold importSetStep. simpl. intros [= <- <-]. simpl.
split; [|split; [done | lia]]. split; [by exists st.1 | done].
Qed.

Lemma importStepSetTemplate_spec (o : Oracle) (set set' : StepSetTemplate.t)
  (st st' : nat * nat) :
importStepSetTemplate o set st = (set', st') →
regeneratedSet o set set'
∧ StepSetTemplate.id set' = "set" +:+ "-" +:+ stamp o st.1
∧ (st.1 < st'.1)%nat
∧ ((∀ i j, stamp o i = stamp o j → i = j) →
     NoDup (StepSetTemplateStep.id <$> StepSetTemplate.steps set')).
Proof.
unfold importStepSetTemplate. simpl.
destruct (gen_map (importSetStep o) (StepSetTemplate.steps set) (S st.1, st.2))
  as [newSteps st3] eqn:Hsteps.
intros [= <- <-]. simpl.
pose proof (gen_map_Forall2 (importSetStep o) (regeneratedSetStep o)
              (λ x s y s' H, proj1 (importSetStep_spec o x y s s' H)) _ _ _ _ Hsteps) as Hall.
pose proof (gen_map_counter (importSetStep o)
              (λ x s y s' H, proj2 (proj2 (importSetStep_spec o x y s s' H))) _ _ _ _ Hsteps)
  as Hle. simpl in Hle.
split_and!.
- split_and!; [by exists st.1 | done..].
- done.
- lia.
- intros Hinj.
  apply (gen_map_keys_NoDup (importSetStep o) StepSetTemplateStep.id
           (λ k, "set-step" +:+ "-" +:+ stamp o k)
           (λ x s y s' H, proj2 (importSetStep_spec o x y s s' H))
           (prefixed_stamp_inj o "set-step" Hinj) _ _ _ _ Hsteps).
Qed.

Lemma gen_map_Forall {A B} (f : A → Gen B) (P : B → Prop) :
(∀ x st y st', f x st = (y, st') → P y) →
∀ xs st ys st', gen_map f xs st = (ys, st') → Forall P ys.
Proof.
intros Hf xs st ys st' Hrun.
pose proof (gen_map_Forall2 f (λ _ y, P y) Hf _ _ _ _ Hrun) as Hall.
clear Hrun. induction Hall; by constructor.
Qed.

(** Every record of an import is regenerated, one for one; and when the
    environment never hands out the same stamp twice, no two ids of a
    regenerated collection collide. *)
Lemma regenerate_spec (o : Oracle) (n0 : nat * nat) (iEvents : list Event.t)
  (iStepT : list StepTemplate.t) (iStepSetT : list StepSetTemplate.t) :
Forall2 (regeneratedEvent o) iEvents (regenerate o n0 iEvents iStepT iStepSetT).1.1
∧ Forall2 (regeneratedTemplate o) iStepT (regenerate o n0 iEvents iStepT iStepSetT).1.2
∧ Forall2 (regeneratedSet o) iStepSetT (regenerate o n0 iEvents iStepT iStepSetT).2
∧ ((∀ i j, stamp o i = stamp o j → i = j) →
     distinctIds (regenerate o n0 iEvents iStepT iStepSetT).1.1
       (regenerate o n0 iEvents iStepT iStepSetT).1.2
       (regenerate o n0 iEvents iStepT iStepSetT).2).
Proof.
unfold regenerate.
destruct (gen_map (importEvent o) iEvents n0) as [newEvents n1] eqn:He.
destruct (gen_map (importStepTemplate o) iStepT n1) as [newTemplates n2] eqn:Ht.
destruct (gen_map (importStepSetTemplate o) iStepSetT n2) as [newSets n3] eqn:Hs.
simpl. split_and!.
- exact (gen_map_Forall2 (importEvent o) (regeneratedEvent o)
           (λ x s y s' H, proj1 (importEvent_spec o x y s s' H)) _ _ _ _ He).
- exact (gen_map_Forall2 (importStepTemplate o) (regeneratedTemplate o)
           (λ x s y s' H, proj1 (importStepTemplate_spec o x y s s' H)) _ _ _ _ Ht).
- exact (gen_map_Forall2 (importStepSetTemplate o) (regeneratedSet o)
           (λ x s y s' H, proj1 (importStepSetTemplate_spec o x y s s' H)) _ _ _ _ Hs).
- intros Hinj. unfold distinctIds. split_and!.
  + apply (gen_map_keys_NoDup (importEvent o) Event.id (λ k, "event" +:+ "-" +:+ stamp o k)
             (λ x s y s' H, conj (proj1 (proj2 (importEvent_spec o x y s s' H)))
                              (proj1 (proj2 (proj2 (importEvent_spec o x y s s' H)))))
             (prefixed_stamp_inj o "event" Hinj) _ _ _ _ He).
  + apply (gen_map_Forall (importEvent o) _
             (λ x s y s' H, proj2 (proj2 (proj2 (importEvent_spec o x y s s' H))) Hinj)
             _ _ _ _ He).
  + apply (gen_map_keys_NoDup (importStepTemplate o) StepTemplate.id
             (λ k, "template" +:+ "-" +:+ stamp o k)
             (λ x s y s' H, proj2 (importStepTemplate_spec o x y s s' H))
             (prefixed_stamp_inj o "template" Hinj) _ _ _ _ Ht).
  + apply (gen_map_keys_NoDup (importStepSetTemplate o) StepSetTemplate.id
             (λ k, "set" +:+ "-" +:+ stamp o k)
             (λ x s y s' H, conj (proj1 (proj2 (importStepSetTemplate_spec o x y s s' H)))
                              (proj1 (proj2 (proj2 (importStepSetTemplate_spec o x y s s' H)))))
             (prefixed_stamp_inj o "set" Hinj) _ _ _ _ Hs).
  + apply (gen_map_Forall (importStepSetTemplate o) _
             (λ x s y s' H, proj2 (proj2 (proj2 (importStepSetTemplate_spec o x y s s' H))) Hinj)
             _ _ _ _ Hs).
Qed.

Lemma dedupe_acc (xs acc : list string) :
let r := foldl (λ acc x, if bool_decide (x ∈ acc) then acc else acc ++ [x]) acc xs in
(∀ t, t ∈ r ↔ t ∈ acc ∨ t ∈ xs) ∧ (NoDup acc → NoDup r).
Proof.
revert acc. induction xs as [|x xs IH]; intros acc; simpl.
- split; [|done]. intros t. rewrite elem_of_nil. prop_tauto.
- destruct (IH (if bool_decide (x ∈ acc) then acc else acc ++ [x])) as [Hin Hnd].
  split.
  + intros t. rewrite Hin, elem_of_cons. case_bool_decide as Hx.
    * split; [prop_tauto|]. intros [?|[->|?]]; prop_tauto.
    * rewrite elem_of_app, list_elem_of_singleton. prop_tauto.
  + intros Hacc. apply Hnd. case_bool_decide as Hx; [done|].
    apply NoDup_app. split_and!; [done | | apply NoDup_singleton].
    intros t Ht ->%list_elem_of_singleton. done.
Qed.

Lemma elem_of_dedupe (xs : list string) (t : string) : t ∈ dedupe xs ↔ t ∈ xs.
Proof.
unfold dedupe. rewrite (proj1 (dedupe_acc xs [])). rewrite elem_of_nil. prop_tauto.
Qed.

Lemma NoDup_dedupe (xs : list string) : NoDup (dedupe xs).
Proof. apply (proj2 (dedupe_acc xs [])). apply NoDup_nil_2. Qed.

Lemma insertDataInStore_served {T} `{KeyPath T} (dbName : string) (store : StoreRef T)
  (data : list T) (w : World) :
serves w dbName →
∃ w', insertDataInStore dbName store data w = (Ok tt, w')
      ∧ serves w' dbName
      ∧ leaves w w' dbName
          (match data with
           | [] => theDb w dbName
           | _ => sr_set store (putAll data (sr_get store (theDb w dbName))) (theDb w dbName)
           end).
Proof.
intros Hs. destruct data as [|x data].
- exists w. split_and!; [done | done | apply leaves_refl].
- destruct (withStore_served dbName (WriteStore dbName (sr_name store))
              (λ db, (tt, sr_set store (putAll (x :: data) (sr_get store db)) db)) w)
    as (w' & Hrun & L); [by apply serves_open | by apply serves_write|].
  exists w'. split_and!; [exact Hrun | by eapply leaves_serves | exact L].
Qed.

Lemma importWrites_served (dbName : string) (newEvents : list Event.t)
  (newStepTemplates : list StepTemplate.t) (newStepSetTemplates : list StepSetTemplate.t)
  (mergedTags : list string) (w : World) :
serves w dbName →
∃ w', io_all [ insertDataInStore dbName eventsStore newEvents;
               insertDataInStore dbName stepTemplatesStore newStepTemplates;
               insertDataInStore dbName stepSetTemplatesStore newStepSetTemplates;
               saveTagsInStore dbName mergedTags ] w = (Ok tt, w')
      ∧ leaves w w' dbName
          (importedDb newEvents newStepTemplates newStepSetTemplates mergedTags
             (theDb w dbName)).
Proof.
intros Hs.
destruct (insertDataInStore_served dbName eventsStore newEvents w Hs)
  as (w1 & H1 & Hs1 & L1).
destruct (insertDataInStore_served dbName stepTemplatesStore newStepTemplates w1 Hs1)
  as (w2 & H2 & Hs2 & L2).
destruct (insertDataInStore_served dbName stepSetTemplatesStore newStepSetTemplates w2 Hs2)
  as (w3 & H3 & Hs3 & L3).
destruct (withStore_served dbName (WriteStore dbName STORE_tags)
            (λ db, (tt, sr_set tagsStore (<["allTags" := mergedTags]> (sr_get tagsStore db)) db))
            w3)
  as (w4 & H4 & L4); [by apply serves_open | by apply serves_write|].
exists w4. split.
- apply io_all_cons_Ok. exists w1. split; [exact H1|].
  apply io_all_cons_Ok. exists w2. split; [exact H2|].
  apply io_all_cons_Ok. exists w3. split; [exact H3|].
  apply io_all_cons_Ok. exists w4. split; [exact H4|]. done.
- pose proof (leaves_trans _ _ _ _ _ _ (leaves_trans _ _ _ _ _ _
                (leaves_trans _ _ _ _ _ _ L1 L2) L3) L4) as L.
  rewrite (proj1 L3), (proj1 L2), (proj1 L1) in L.
  by destruct newEvents, newStepTemplates, newStepSetTemplates.
Qed.

(** C7, as amended: an import regenerates every identity of the imported
    document (event, step, step-template, step-set-template and set-step
    ids are generated afresh), resets every creation date and step
    timestamp to an instant read during the import, copies every other
    field, and merges by union: the regenerated records are appended to
    the collections of the active database and the tags are united without
    repetition. Importing an exported document into an empty target gives as
    many events as the document has. The generated ids are pairwise distinct
    provided the environment never hands out the same stamp twice. *)
Theorem import_regenerates_and_merges (o : Oracle) (n0 : nat * nat) (doc : ExportDoc)
  (s : AppState) (w : World) :
importFile s ≠ None →
isTempStorageMode s = true ∨ dbError s ≠ None ∨ serves w (activeDbName s) →
let iEvents := Snapshot.events (doc_data doc) in
let iTags := Snapshot.tags (doc_data doc) in
let iStepT := Snapshot.stepTemplates (doc_data doc) in
let iStepSetT := Snapshot.stepSetTemplates (doc_data doc) in
let new := regenerate o n0 iEvents iStepT iStepSetT in
let s' := (executeImport o n0 (jsonOfExport doc) s w).1 in
let w' := (executeImport o n0 (jsonOfExport doc) s w).2 in
(* regenerated, one for one *)
Forall2 (regeneratedEvent o) iEvents new.1.1
∧ Forall2 (regeneratedTemplate o) iStepT new.1.2
∧ Forall2 (regeneratedSet o) iStepSetT new.2
(* merged by union, in memory *)
∧ events s' = events s ++ new.1.1
∧ stepTemplates s' = stepTemplates s ++ new.1.2
∧ stepSetTemplates s' = stepSetTemplates s ++ new.2
∧ (∀ t, t ∈ customTags s' ↔ t ∈ customTags s ∨ t ∈ iTags)
∧ NoDup (customTags s')
(* and in the active database, when there is one to write to *)
∧ (isTempStorageMode s = false → dbError s = None →
     theDb w' (activeDbName s)
     = importedDb new.1.1 new.1.2 new.2 (customTags s') (theDb w (activeDbName s)))
∧ (isTempStorageMode s = true ∨ dbError s ≠ None → w' = w)
(* the event count *)
∧ length (events s') = (length (events s) + length iEvents)%nat
∧ (events s = [] → length (events s') = length iEvents)
(* no collision among the generated ids, when stamps never repeat *)
∧ ((∀ i j, stamp o i = stamp o j → i = j) → distinctIds new.1.1 new.1.2 new.2).
Proof.
intros Hfile Hpath iEvents iTags iStepT iStepSetT new s' w'.
destruct (regenerate_spec o n0 iEvents iStepT iStepSetT) as (HE & HT & HS & Hdistinct).
fold new in HE, HT, HS, Hdistinct.
assert (Hrun : s' = (s |> setImportFile None
                       |> setEvents (events s ++ new.1.1)
                       |> setCustomTags (dedupe (customTags s ++ iTags))
                       |> setStepTemplates (stepTemplates s ++ new.1.2)
                       |> setStepSetTemplates (stepSetTemplates s ++ new.2)
                       |> setNotification (notification s'))
               ∧ (isTempStorageMode s = false → dbError s = None →
                    leaves w w' (activeDbName s)
                      (importedDb new.1.1 new.1.2 new.2 (dedupe (customTags s ++ iTags))
                         (theDb w (activeDbName s))))
               ∧ (isTempStorageMode s = true ∨ dbError s ≠ None → w' = w)).
{ subst s' w'. unfold executeImport, jsonOfExport.
  destruct (importFile s) as [file|] eqn:Hf; [|done].
  fold iEvents iTags iStepT iStepSetT. fold new.
  destruct new as [[newEvents newStepTemplates] newStepSetTemplates] eqn:Hnew.
  rewrite reviveEventDates_fmap. cbv beta iota zeta.
  destruct (isTempStorageMode s) eqn:Htemp; cbn [orb].
  { split_and!; [done | done | done]. }
  destruct (decide (dbError s = None)) as [Herr|Herr].
  - rewrite (bool_decide_eq_false_2 (dbError s ≠ None)) by (intros H; by apply H).
    destruct Hpath as [?|[?|Hs]]; [done | done |].
    destruct (importWrites_served (activeDbName s) newEvents newStepTemplates
                newStepSetTemplates (dedupe (customTags s ++ iTags)) w Hs)
      as (w1 & Hw & L).
    rewrite Hw. split_and!; [done | done |].
    by intros [?|?].
  - rewrite (bool_decide_eq_true_2 (dbError s ≠ None)) by done.
    split_and!; [done | done | done]. }
destruct Hrun as (Hs' & Hpersist & Hsame).
assert (Hlen : length new.1.1 = length iEvents) by (symmetry; by eapply Forall2_length).
split_and!; try done.
- by rewrite Hs'.
- by rewrite Hs'.
- by rewrite Hs'.
- intros t. rewrite Hs'. simpl. by rewrite elem_of_dedupe, elem_of_app.
- rewrite Hs'. simpl. apply NoDup_dedupe.
- intros Htemp Herr. rewrite (proj1 (Hpersist Htemp Herr)). by rewrite Hs'.
- rewrite Hs'. simpl. rewrite length_app. lia.
- intros Hempty. rewrite Hs'. simpl. rewrite Hempty. simpl. lia.
Qed.

(** ** The queue, compacted *)

Lemma agreeExcept_refl (strict : bool) (X : string) (e : Event.t) : agreeExcept strict X e e.
Proof. by repeat split. Qed.

Lemma Forall2_agree_ids (strict : bool) (X : string) (l1 l2 : list Event.t) :
Forall2 (agreeExcept strict X) l1 l2 → Event.id <$> l1 = Event.id <$> l2.
Proof.
induction 1 as [|e1 e2 l1 l2 (Hid & _) _ IH]; [done|].
rewrite !fmap_cons. by rewrite Hid, IH.
Qed.

Lemma Forall2_agree_filter (strict : bool) (X : string) (P : Event.t → Prop)
  `{∀ e, Decision (P e)} (l1 l2 : list Event.t) :
(∀ e1 e2, Event.id e1 = Event.id e2 → P e1 ↔ P e2) →
Forall2 (agreeExcept strict X) l1 l2 →
Forall2 (agreeExcept strict X) (filter P l1) (filter P l2).
Proof.
intros HP. induction 1 as [|e1 e2 l1 l2 Hagree _ IH]; [constructor|].
rewrite !filter_cons. pose proof Hagree as (Hid & _). specialize (HP _ _ Hid).
destruct (decide (P e1)), (decide (P e2)); [by constructor | prop_tauto | prop_tauto | done].
Qed.

Lemma Forall2_agree_fmap (strict : bool) (X : string) (f g : Event.t → Event.t)
  (l1 l2 : list Event.t) :
(∀ e1 e2, agreeExcept strict X e1 e2 → agreeExcept strict X (f e1) (g e2)) →
Forall2 (agreeExcept strict X) l1 l2 →
Forall2 (agreeExcept strict X) (f <$> l1) (g <$> l2).
Proof. intros Hfg Hl. apply Forall2_fmap. by eapply Forall2_impl. Qed.

Lemma agreeExcept_with_tags (strict : bool) (X : string) (f : list string → list string)
  (e1 e2 : Event.t) :
agreeExcept strict X e1 e2 →
agreeExcept strict X (Event.with_tags (f <$> Event.tags e1) e1)
  (Event.with_tags (f <$> Event.tags e2) e2).
Proof.
intros (Hid & Hoff & Hstrict). split; [done|]. split.
- simpl. intros Hne. by rewrite (Hoff Hne).
- intros Hs. specialize (Hstrict Hs). destruct e1, e2.
  unfold Event.with_steps, Event.with_tags in *. simpl in *. congruence.
Qed.

Lemma agreeExcept_with_steps (strict : bool) (X : string) (steps : list ProgressStep.t)
  (e1 e2 : Event.t) :
agreeExcept strict X e1 e2 →
agreeExcept strict X (Event.with_steps steps e1) (Event.with_steps steps e2).
Proof.
intros (Hid & Hoff & Hstrict). split; [done|]. split.
- simpl. intros Hne. by rewrite (Hoff Hne).
- intros Hs. specialize (Hstrict Hs). destruct e1, e2.
  unfold Event.with_steps, Event.with_tags in *. simpl in *. congruence.
Qed.

(** An action applied to two lists that agree leaves lists that agree, and
    the same tags. *)
Lemma applyAction_agree (strict : bool) (X : string) (l1 l2 : list Event.t)
  (tags : list string) (a : PendingAction) :
Forall2 (agreeExcept strict X) l1 l2 →
Forall2 (agreeExcept strict X) (applyAction (l1, tags) a).1 (applyAction (l2, tags) a).1
∧ (applyAction (l1, tags) a).2 = (applyAction (l2, tags) a).2.
Proof.
intros Hl. pose proof (Forall2_agree_ids _ _ _ _ Hl) as Hids.
destruct a as [event img|event img|eventId|eventId steps|tag|names|oldTag newTag|tags'];
  simpl.
- assert (Hsome : existsb (λ e, bool_decide (Event.id e = Event.id event)) l1
                  = existsb (λ e, bool_decide (Event.id e = Event.id event)) l2).
  { apply eq_true_iff_eq. rewrite !hasEventId_spec. by rewrite Hids. }
  rewrite Hsome. destruct (existsb _ l2); simpl; [done|].
  split; [|done]. constructor; [apply agreeExcept_refl | done].
- split; [|done]. apply Forall2_agree_fmap; [|done].
  intros e1 e2 Hagree. destruct Hagree as (Hid & Hrest). rewrite <- Hid.
  destruct (decide (Event.id e1 = Event.id event)); [apply agreeExcept_refl | by split].
- split; [|done]. apply Forall2_agree_filter; [|done].
  intros e1 e2 Hid. by rewrite Hid.
- split; [|done]. apply Forall2_agree_fmap; [|done].
  intros e1 e2 Hagree. pose proof Hagree as (Hid & _). rewrite <- Hid.
  destruct (decide (Event.id e1 = eventId)); [by apply agreeExcept_with_steps | done].
- by destruct (bool_decide (tag ∈ tags)).
- split; [|done]. apply Forall2_agree_fmap; [|done].
  intros e1 e2. apply agreeExcept_with_tags.
- split; [|done]. apply Forall2_agree_fmap; [|done].
  intros e1 e2. apply agreeExcept_with_tags.
- done.
Qed.

(** A superseded action applied on one side only: the lists still agree. *)
Lemma applyAction_superseded (strict : bool) (X : string) (l1 l2 : list Event.t)
  (tags : list string) (a : PendingAction) :
supersededBy strict X a = true →
Forall2 (agreeExcept strict X) l1 l2 →
Forall2 (agreeExcept strict X) l1 (applyAction (l2, tags) a).1
∧ (applyAction (l2, tags) a).2 = tags.
Proof.
intros Hsup Hl. destruct strict, a as [| event img | | eventId steps | | | |];
  simpl in Hsup; try done; apply bool_decide_eq_true in Hsup; simpl; (split; [|done]);
  apply Forall2_fmap_r; eapply Forall2_impl; [exact Hl | | exact Hl |];
  intros e1 e2 (Hid & Hoff & Hstrict); simpl.
- destruct (decide (Event.id e2 = eventId)) as [Heq|]; [|done].
  split; [done|]. split; [congruence|].
  intros Hs. rewrite (Hstrict Hs). by destruct e2.
- destruct (decide (Event.id e2 = Event.id event)) as [Heq|]; [|done].
  split; [congruence|]. split; [congruence | done].
Qed.

Lemma applyPendingActions_superseded (strict : bool) (X : string) (q : list PendingAction) :
∀ (l1 l2 : list Event.t) (tags : list string),
  Forall2 (agreeExcept strict X) l1 l2 →
  Forall2 (agreeExcept strict X)
    (applyPendingActions l1 tags (filter (λ a, ¬ supersededBy strict X a) q)).1
    (applyPendingActions l2 tags q).1
  ∧ (applyPendingActions l1 tags (filter (λ a, ¬ supersededBy strict X a) q)).2
    = (applyPendingActions l2 tags q).2.
Proof.
induction q as [|a q IH]; intros l1 l2 tags Hl; [done|].
rewrite filter_cons, (applyPendingActions_cons l2).
destruct (decide (¬ supersededBy strict X a)) as [Hkeep|Hdrop].
- rewrite applyPendingActions_cons.
  destruct (applyAction_agree strict X l1 l2 tags a Hl) as [Hl' Ht].
  rewrite Ht. by apply IH.
- assert (Hsup : supersededBy strict X a = true).
  { destruct (supersededBy strict X a); [done|]. exfalso. apply Hdrop. by intros []. }
  destruct (applyAction_superseded strict X l1 l2 tags a Hsup Hl) as [Hl' Ht].
  rewrite Ht. by apply IH.
Qed.

Lemma applyPendingActions_single (evs : list Event.t) (tgs : list string) (a : PendingAction) :
applyPendingActions evs tgs [a] = applyAction (evs, tgs) a.
Proof. reflexivity. Qed.

Lemma Forall2_agree_refl (strict : bool) (X : string) (l : list Event.t) :
Forall2 (agreeExcept strict X) l l.
Proof. apply Forall_Forall2_diag, Forall_forall. intros e _. apply agreeExcept_refl. Qed.

(** Dropping the queued updates of an event before a new update of that
    event does not change what the queue folds to. *)
Lemma fold_replace_update (baseEvents : list Event.t) (baseTags : list string)
  (q : list PendingAction) (event : Event.t) (image : option ImageUpdate) :
applyPendingActions baseEvents baseTags
  (filter (λ a, ¬ isUpdateEventOf (Event.id event) a) q ++ [UPDATE_EVENT event image])
= applyPendingActions baseEvents baseTags (q ++ [UPDATE_EVENT event image]).
Proof.
rewrite !applyPendingActions_app.
destruct (applyPendingActions_superseded false (Event.id event) q baseEvents baseEvents
            baseTags (Forall2_agree_refl _ _ _)) as [Hl Ht].
unfold supersededBy in Hl, Ht. rewrite !applyPendingActions_single, Ht. simpl. f_equal.
apply list_eq_Forall2, Forall2_fmap. eapply Forall2_impl; [exact Hl|].
intros e1 e2 (Hid & Hoff & _). simpl. rewrite <- Hid.
destruct (decide (Event.id e1 = Event.id event)); [done | by apply Hoff].
Qed.

(** The same for the queued updates of the steps of an event. *)
Lemma fold_replace_steps (baseEvents : list Event.t) (baseTags : list string)
  (q : list PendingAction) (eventId : string) (steps : list ProgressStep.t) :
applyPendingActions baseEvents baseTags
  (filter (λ a, ¬ isUpdateStepsOf eventId a) q ++ [UPDATE_EVENT_STEPS eventId steps])
= applyPendingActions baseEvents baseTags (q ++ [UPDATE_EVENT_STEPS eventId steps]).
Proof.
rewrite !applyPendingActions_app.
destruct (applyPendingActions_superseded true eventId q baseEvents baseEvents
            baseTags (Forall2_agree_refl _ _ _)) as [Hl Ht].
unfold supersededBy in Hl, Ht. rewrite !applyPendingActions_single, Ht. simpl. f_equal.
apply list_eq_Forall2, Forall2_fmap. eapply Forall2_impl; [exact Hl|].
intros e1 e2 (Hid & Hoff & Hstrict). simpl. rewrite <- Hid.
destruct (decide (Event.id e1 = eventId)); [|by apply Hoff].
specialize (Hstrict eq_refl). destruct e1, e2.
unfold Event.with_steps in *. simpl in *. congruence.
Qed.

Lemma handleUpdateEventSteps_queued (eventId : string) (newSteps : list ProgressStep.t)
  (s : AppState) :
mustQueue s = true →
pendingActions (handleUpdateEventSteps eventId newSteps s)
= filter (λ a, ¬ isUpdateStepsOf eventId a) (pendingActions s)
  ++ [UPDATE_EVENT_STEPS eventId newSteps]
∧ (events (handleUpdateEventSteps eventId newSteps s),
   customTags (handleUpdateEventSteps eventId newSteps s))
  = applyAction (events s, customTags s) (UPDATE_EVENT_STEPS eventId newSteps).
Proof.
intros Hq. unfold handleUpdateEventSteps. rewrite Hq. simpl.
destruct (last _); repeat case_bool_decide; done.
Qed.

(** X1: while the component queues its mutations, [handleUpdateEventSteps]
    puts the new steps in the place of every queued update of the steps of
    that event, the other actions staying in order; the shorter queue folds
    to what the full queue followed by the new update would fold to, and the
    events and tags in memory stay what the queue makes of its base. *)
Theorem update_steps_queue_sound (eventId : string) (newSteps : list ProgressStep.t)
  (baseEvents : list Event.t) (baseTags : list string) (s : AppState) :
mustQueue s = true →
let s' := handleUpdateEventSteps eventId newSteps s in
pendingActions s'
= filter (λ a, ¬ isUpdateStepsOf eventId a) (pendingActions s)
  ++ [UPDATE_EVENT_STEPS eventId newSteps]
∧ filter (λ a, isUpdateStepsOf eventId a) (pendingActions s')
  = [UPDATE_EVENT_STEPS eventId newSteps]
∧ applyPendingActions baseEvents baseTags (pendingActions s')
  = applyPendingActions baseEvents baseTags
      (pendingActions s ++ [UPDATE_EVENT_STEPS eventId newSteps])
∧ (tracks baseEvents baseTags s → tracks baseEvents baseTags s').
Proof.
intros Hq s'. destruct (handleUpdateEventSteps_queued eventId newSteps s Hq) as [Hqueue Hmem].
fold s' in Hqueue, Hmem.
assert (Hfold : applyPendingActions baseEvents baseTags (pendingActions s')
                = applyPendingActions baseEvents baseTags
                    (pendingActions s ++ [UPDATE_EVENT_STEPS eventId newSteps])).
{ rewrite Hqueue. apply fold_replace_steps. }
split_and!; [done | | done |].
- rewrite Hqueue, filter_app, filter_not_then_filter. simpl.
  rewrite filter_cons_True; [done|]. simpl. by rewrite bool_decide_eq_true_2.
- unfold tracks. intros Htracks.
  rewrite Hfold, applyPendingActions_app, applyPendingActions_single.
  rewrite <- surjective_pairing, Htracks. by rewrite Hmem.
Qed.

Lemma handleAddTag_fold (s : AppState) (newTags : list string) (acc : AppState) :
mustQueue s = true →
(∀ tag, tag ∈ newTags → tag ∉ customTags s) →
customTags (foldl (λ acc tag, handleAddTag s tag acc) acc newTags)
= customTags acc ++ newTags
∧ events (foldl (λ acc tag, handleAddTag s tag acc) acc newTags) = events acc.
Proof.
intros Hq. revert acc. induction newTags as [|tag newTags IH]; intros acc Hnew; simpl.
- by rewrite app_nil_r.
- destruct (IH (handleAddTag s tag acc)) as [IHt IHe]; [intros; apply Hnew; by right|].
  rewrite IHt, IHe. unfold handleAddTag.
  rewrite bool_decide_eq_false_2 by (apply Hnew; by left).
  rewrite Hq. simpl. by rewrite <- app_assoc.
Qed.

(** Tags that are new and distinct are appended by their [ADD_TAG] actions. *)
Lemma fold_add_tags (newTags : list string) :
∀ (evs : list Event.t) (tgs : list string),
  NoDup newTags → (∀ tag, tag ∈ newTags → tag ∉ tgs) →
  applyPendingActions evs tgs (ADD_TAG <$> newTags) = (evs, tgs ++ newTags).
Proof.
induction newTags as [|tag newTags IH]; intros evs tgs Hnd Hnew.
- by rewrite app_nil_r.
- apply NoDup_cons in Hnd as [Hfresh Hnd].
  rewrite fmap_cons, applyPendingActions_cons. simpl.
  rewrite bool_decide_eq_false_2 by (apply Hnew; by left). simpl.
  rewrite IH; [by rewrite <- app_assoc | done |].
  intros t Ht [Hin|Hin%list_elem_of_singleton]%elem_of_app.
  + by apply (Hnew t); [right|].
  + by subst.
Qed.

Lemma handleUpdateEvent_queued (updatedEvent : Event.t) (originalImage : option ImageUpdate)
  (s : AppState) (w : World) :
mustQueue s = true →
let finalEvent := finalEventOf s updatedEvent originalImage in
let newTags := filter (λ tag, tag ∉ customTags s) (default [] (Event.tags updatedEvent)) in
let s' := (handleUpdateEvent updatedEvent originalImage s w).1 in
pendingActions s'
= filter (λ a, ¬ isUpdateEventOf (Event.id finalEvent) a)
    (pendingActions s ++ (ADD_TAG <$> newTags))
  ++ [UPDATE_EVENT finalEvent originalImage]
∧ events s'
  = (λ e, if decide (Event.id e = Event.id finalEvent) then finalEvent else e) <$> events s
∧ customTags s' = customTags s ++ newTags
∧ (handleUpdateEvent updatedEvent originalImage s w).2 = w.
Proof.
intros Hq finalEvent newTags s'. subst s'. unfold handleUpdateEvent. rewrite Hq.
fold finalEvent. change (Event.tags finalEvent) with (Event.tags updatedEvent).
fold newTags.
assert (Hnew : ∀ tag, tag ∈ newTags → tag ∉ customTags s).
{ intros tag Hin. by apply list_elem_of_filter in Hin as [? _]. }
pose proof (handleAddTag_queue s newTags s Hq Hnew) as Hs1q.
destruct (handleAddTag_fold s newTags s Hq Hnew) as [Hs1t Hs1e].
set (s1 := foldl (λ acc tag, handleAddTag s tag acc) s newTags) in *.
assert (Hgoal : ∀ s2, pendingActions s2 = pendingActions s1 → events s2 = events s1 →
  customTags s2 = customTags s1 →
  let s3 := s2 |> (λ a, setEvents ((λ e, if decide (Event.id e = Event.id finalEvent)
                                         then finalEvent else e) <$> events a) a)
               |> (λ a, setPendingActions
                          (filter (λ a', ¬ isUpdateEventOf (Event.id finalEvent) a')
                             (pendingActions a)
                           ++ [UPDATE_EVENT finalEvent originalImage]) a)
               |> showActionNotification "更新已临时保存" in
  pendingActions s3
  = filter (λ a, ¬ isUpdateEventOf (Event.id finalEvent) a)
      (pendingActions s ++ (ADD_TAG <$> newTags))
    ++ [UPDATE_EVENT finalEvent originalImage]
  ∧ events s3
    = (λ e, if decide (Event.id e = Event.id finalEvent) then finalEvent else e)
        <$> events s
  ∧ customTags s3 = customTags s ++ newTags).
{ intros s2 H2q H2e H2t. simpl. by rewrite H2q, H2e, H2t, Hs1q, Hs1e, Hs1t. }
destruct newTags as [|t ts] eqn:Hnt; simpl;
  repeat case_bool_decide; simpl;
  first [ destruct (Hgoal s1) as (? & ? & ?); [done..|]; by split_and!
        | destruct (Hgoal (showActionNotification
                             ("已添加新标签: " +:+ String.concat ", " (t :: ts)
                              +:+ (if mustQueue s then " (已临时保存)" else "")) s1))
            as (? & ? & ?); [done..|]; by split_and! ].
Qed.

(** X2: while the component queues its mutations, the queue
    [handleUpdateEvent] leaves (the queued updates of that event dropped,
    the new tags and the new update appended) folds, over every base, to
    what the full queue followed by the new actions would fold to; the new
    tags are appended to the tag list and nothing is written to storage.
    When the tags of the event are distinct and the events and tags in
    memory are what the queue makes of a base, they stay so. *)
Theorem update_event_queue_sound (updatedEvent : Event.t)
  (originalImage : option ImageUpdate) (baseEvents : list Event.t) (baseTags : list string)
  (s : AppState) (w : World) :
mustQueue s = true →
let finalEvent := finalEventOf s updatedEvent originalImage in
let newTags := filter (λ tag, tag ∉ customTags s) (default [] (Event.tags updatedEvent)) in
let s' := (handleUpdateEvent updatedEvent originalImage s w).1 in
applyPendingActions baseEvents baseTags (pendingActions s')
= applyPendingActions baseEvents baseTags
    (pendingActions s ++ (ADD_TAG <$> newTags) ++ [UPDATE_EVENT finalEvent originalImage])
∧ (NoDup (default [] (Event.tags updatedEvent)) → tracks baseEvents baseTags s →
     tracks baseEvents baseTags s')
∧ customTags s' = customTags s ++ newTags
∧ (handleUpdateEvent updatedEvent originalImage s w).2 = w.
Proof.
intros Hq finalEvent newTags s'.
destruct (handleUpdateEvent_queued updatedEvent originalImage s w Hq)
  as (Hqueue & Hev & Htg & Hw).
fold finalEvent newTags s' in Hqueue, Hev, Htg.
assert (Hfold : applyPendingActions baseEvents baseTags (pendingActions s')
                = applyPendingActions baseEvents baseTags
                    (pendingActions s ++ (ADD_TAG <$> newTags)
                     ++ [UPDATE_EVENT finalEvent originalImage])).
{ rewrite Hqueue, fold_replace_update. by rewrite <- app_assoc. }
split_and!; [done | | done | done].
intros Hnd Htracks. unfold tracks in *.
rewrite Hfold, applyPendingActions_app, Htracks. simpl.
rewrite applyPendingActions_app, fold_add_tags.
- rewrite applyPendingActions_single. simpl. by rewrite Hev, Htg.
- by apply NoDup_filter.
- intros tag Hin. by apply list_elem_of_filter in Hin as [? _].
Qed.

(** ** The queue after a deletion of the selection *)

Lemma visible_fmap (D : list string) (f : Event.t → Event.t) (l : list Event.t) :
(∀ e, Event.id (f e) = Event.id e) → visible D (f <$> l) = f <$> visible D l.
Proof.
intros Hf. unfold visible. induction l as [|e l IH]; [done|].
rewrite fmap_cons, !filter_cons, Hf.
destruct (decide (Event.id e ∉ D)); [by rewrite fmap_cons, IH | done].
Qed.

Lemma visible_fmap_hidden (D : list string) (f : Event.t → Event.t) (l : list Event.t) :
(∀ e, Event.id (f e) = Event.id e) → (∀ e, Event.id e ∉ D → f e = e) →
visible D (f <$> l) = visible D l.
Proof.
intros Hf Hoff. unfold visible. induction l as [|e l IH]; [done|].
rewrite fmap_cons, !filter_cons, Hf.
destruct (decide (Event.id e ∉ D)); [by rewrite IH, Hoff | done].
Qed.

Lemma visible_filter (D : list string) (P : Event.t → Prop) `{∀ e, Decision (P e)}
  (l : list Event.t) :
visible D (filter P l) = filter P (visible D l).
Proof.
unfold visible. induction l as [|e l IH]; [done|].
rewrite !filter_cons.
destruct (decide (P e)), (decide (Event.id e ∉ D)); rewrite ?filter_cons;
  repeat case_decide; try done; by rewrite IH.
Qed.

Lemma visible_filter_hidden (D : list string) (x : string) (l : list Event.t) :
x ∈ D → visible D (filter (λ e, Event.id e ≠ x) l) = visible D l.
Proof.
intros Hx. unfold visible. induction l as [|e l IH]; [done|].
rewrite !filter_cons.
destruct (decide (Event.id e ≠ x)) as [|Heq%dec_stable]; rewrite ?filter_cons.
- by rewrite IH.
- rewrite IH. destruct (decide (Event.id e ∉ D)) as [Hout|]; [|done].
  by rewrite Heq in Hout.
Qed.

Lemma visible_ids (D : list string) (x : string) (l : list Event.t) :
x ∉ D → x ∈ Event.id <$> visible D l ↔ x ∈ Event.id <$> l.
Proof.
intros Hx. unfold visible. rewrite !list_elem_of_fmap. split.
- intros (e & -> & [_ Hin]%list_elem_of_filter). by exists e.
- intros (e & -> & Hin). exists e. split; [done|]. by apply list_elem_of_filter.
Qed.

(** An action the compaction keeps acts alike on two lists with the same
    visible events. *)
Lemma applyAction_visible (D : list string) (l1 l2 : list Event.t) (tags : list string)
  (a : PendingAction) :
keptBy D a = true → visible D l1 = visible D l2 →
visible D (applyAction (l1, tags) a).1 = visible D (applyAction (l2, tags) a).1
∧ (applyAction (l1, tags) a).2 = (applyAction (l2, tags) a).2.
Proof.
intros Hkept Hl.
destruct a as [event img|event img|eventId|eventId steps|tag|names|oldTag newTag|tags'];
  simpl in *; try apply bool_decide_eq_true in Hkept.
- assert (Hsome : existsb (λ e, bool_decide (Event.id e = Event.id event)) l1
                  = existsb (λ e, bool_decide (Event.id e = Event.id event)) l2).
  { apply eq_true_iff_eq. rewrite !hasEventId_spec.
    rewrite <- (visible_ids D _ l1), <- (visible_ids D _ l2) by done. by rewrite Hl. }
  rewrite Hsome. destruct (existsb _ l2); simpl; [done|]. split; [|done].
  unfold visible in *. rewrite !filter_cons, Hl. done.
- split; [|done]. rewrite !visible_fmap, Hl; [done|..]; intros e; by case_decide.
- split; [|done]. by rewrite !visible_filter, Hl.
- split; [|done]. rewrite !visible_fmap, Hl; [done|..]; intros e; by case_decide.
- by destruct (bool_decide (tag ∈ tags)).
- split; [|done]. by rewrite !visible_fmap, Hl.
- split; [|done]. by rewrite !visible_fmap, Hl.
- done.
Qed.

(** An action the compaction drops changes no visible event and no tag. *)
Lemma applyAction_hidden (D : list string) (l : list Event.t) (tags : list string)
  (a : PendingAction) :
keptBy D a = false →
visible D (applyAction (l, tags) a).1 = visible D l ∧ (applyAction (l, tags) a).2 = tags.
Proof.
intros Hdrop.
destruct a as [event img|event img|eventId|eventId steps|tag|names|oldTag newTag|tags'];
  simpl in *; try done; apply bool_decide_eq_false in Hdrop; apply dec_stable in Hdrop.
- destruct (existsb _ l); simpl; [done|]. split; [|done].
  unfold visible. by rewrite filter_cons_False by (by intros ?).
- split; [|done]. apply visible_fmap_hidden; intros e; case_decide; try done.
  intros Hout. congruence.
- split; [|done]. by apply visible_filter_hidden.
- split; [|done]. apply visible_fmap_hidden; intros e; case_decide; try done.
  intros Hout. congruence.
Qed.

Lemma applyPendingActions_compacted (D : list string) (q : list PendingAction) :
∀ (l1 l2 : list Event.t) (tags : list string),
  visible D l1 = visible D l2 →
  visible D (applyPendingActions l1 tags (filterPendingActions D q)).1
  = visible D (applyPendingActions l2 tags q).1
  ∧ (applyPendingActions l1 tags (filterPendingActions D q)).2
    = (applyPendingActions l2 tags q).2.
Proof.
unfold filterPendingActions.
induction q as [|a q IH]; intros l1 l2 tags Hl; [done|].
rewrite (applyPendingActions_cons l2).
destruct (keptBy D a) eqn:Hkept.
- rewrite filter_cons_True by (by apply Is_true_true_2).
  rewrite applyPendingActions_cons.
  destruct (applyAction_visible D l1 l2 tags a Hkept Hl) as [Hl' Ht].
  rewrite Ht. by apply IH.
- rewrite filter_cons_False by (by apply Is_true_false_2).
  destruct (applyAction_hidden D l2 tags a Hkept) as [Hl' Ht].
  rewrite Ht. apply IH. by rewrite Hl'.
Qed.

(** The deletions of the ids [D], one after the other, leave the visible
    events. *)
Lemma fold_deletes (D : list string) :
∀ (l : list Event.t) (tags : list string),
  applyPendingActions l tags (DELETE_EVENT <$> D) = (visible D l, tags).
Proof.
induction D as [|x D IH]; intros l tags.
- unfold visible. simpl. rewrite applyPendingActions_nil. f_equal.
  induction l as [|e l IHl]; [done|].
  rewrite filter_cons_True by apply not_elem_of_nil. by rewrite <- IHl.
- rewrite fmap_cons, applyPendingActions_cons. simpl. rewrite IH. f_equal.
  unfold visible. rewrite list_filter_filter. apply list_filter_iff.
  intros e. rewrite not_elem_of_cons. prop_tauto.
Qed.

Lemma executeDeleteSelection_queued (s : AppState) (u : UiState) (w : World) :
mustQueue s = true →
pendingActions (executeDeleteSelection s u w).1.1
= filterPendingActions (selectedEventIds u) (pendingActions s)
  ++ (DELETE_EVENT <$> selectedEventIds u)
∧ events (executeDeleteSelection s u w).1.1 = visible (selectedEventIds u) (events s)
∧ customTags (executeDeleteSelection s u w).1.1 = customTags s
∧ (executeDeleteSelection s u w).2 = w.
Proof.
intros Hq. unfold executeDeleteSelection. rewrite Hq. simpl.
destruct (selectedEvent s); [case_bool_decide|]; done.
Qed.

(** X3: while the component queues its mutations, [executeDeleteSelection]
    drops from the queue every action on an event of the selection and
    appends one deletion for each selected id; the compacted queue folds to
    what the full queue followed by the deletions would fold to, the events
    and tags in memory stay what the queue makes of its base, the selection
    is emptied and nothing is written to storage. *)
Theorem delete_selection_queue_sound (baseEvents : list Event.t) (baseTags : list string)
  (s : AppState) (u : UiState) (w : World) :
mustQueue s = true →
let ids := selectedEventIds u in
let s' := (executeDeleteSelection s u w).1.1 in
pendingActions s' = filterPendingActions ids (pendingActions s) ++ (DELETE_EVENT <$> ids)
∧ applyPendingActions baseEvents baseTags (pendingActions s')
  = applyPendingActions baseEvents baseTags (pendingActions s ++ (DELETE_EVENT <$> ids))
∧ (tracks baseEvents baseTags s → tracks baseEvents baseTags s')
∧ events s' = filter (λ e, Event.id e ∉ ids) (events s)
∧ selectedEventIds (executeDeleteSelection s u w).1.2 = []
∧ (executeDeleteSelection s u w).2 = w.
Proof.
intros Hq ids s'.
destruct (executeDeleteSelection_queued s u w Hq) as (Hqueue & Hev & Htg & Hw).
fold ids s' in Hqueue, Hev, Htg.
assert (Hfold : applyPendingActions baseEvents baseTags (pendingActions s')
                = applyPendingActions baseEvents baseTags
                    (pendingActions s ++ (DELETE_EVENT <$> ids))).
{ rewrite Hqueue, !applyPendingActions_app, !fold_deletes.
  destruct (applyPendingActions_compacted ids (pendingActions s) baseEvents baseEvents
              baseTags eq_refl) as [Hl Ht].
  by rewrite Hl, Ht. }
split_and!; [done | done | | done | | done].
- unfold tracks. intros Htracks.
  rewrite Hfold, applyPendingActions_app, fold_deletes, Htracks. simpl.
  by rewrite Hev, Htg.
- unfold executeDeleteSelection. by destruct (mustQueue s).
Qed.

(** ** The other mutations *)

Lemma tracks_snoc (baseEvents : list Event.t) (baseTags : list string) (s s' : AppState)
  (a : PendingAction) :
pendingActions s' = pendingActions s ++ [a] →
(events s', customTags s') = applyAction (events s, customTags s) a →
tracks baseEvents baseTags s → tracks baseEvents baseTags s'.
Proof.
unfold tracks. intros Hq Hmem Htracks.
by rewrite Hq, applyPendingActions_app, applyPendingActions_single,
  <- surjective_pairing, Htracks.
Qed.

Lemma handleRenameTag_accepted (oldTag newTag : string) (s : AppState) :
trim newTag ≠ "" → newTag ∉ customTags s ∨ newTag = oldTag →
(handleRenameTag oldTag newTag s).1 = true
∧ events (handleRenameTag oldTag newTag s).2
  = (λ e, Event.with_tags (renameIn oldTag newTag <$> Event.tags e) e) <$> events s
∧ customTags (handleRenameTag oldTag newTag s).2 = renameIn oldTag newTag (customTags s)
∧ filter_tags (activeFilters (handleRenameTag oldTag newTag s).2)
  = renameIn oldTag newTag (filter_tags (activeFilters s))
∧ pendingActions (handleRenameTag oldTag newTag s).2
  = if mustQueue s then pendingActions s ++ [RENAME_TAG oldTag newTag]
    else pendingActions s.
Proof.
intros Hblank Hfree. unfold handleRenameTag.
rewrite (bool_decide_eq_false_2 (trim newTag = "")) by done.
assert (Hguard : bool_decide (newTag ∈ customTags s) && bool_decide (newTag ≠ oldTag)
                 = false).
{ destruct Hfree as [Hout| ->].
  - by rewrite (bool_decide_eq_false_2 _ Hout).
  - rewrite (bool_decide_eq_false_2 (oldTag ≠ oldTag)) by (by intros ?).
    by rewrite andb_false_r. }
rewrite Hguard. by destruct (mustQueue s).
Qed.

(** X4: [handleRenameTag] refuses a blank name and a name another tag
    already bears, and then changes nothing; otherwise it renames the tag
    in the tag list, in every event and in the tag filter, keeps the tag list
    free of duplicates, and while the component queues its mutations appends
    one rename to the queue, the events and tags in memory staying what the
    queue makes of its base. *)
Theorem rename_tag_guarded (oldTag newTag : string) (baseEvents : list Event.t)
  (baseTags : list string) (s : AppState) :
let r := handleRenameTag oldTag newTag s in
(trim newTag = "" ∨ (newTag ∈ customTags s ∧ newTag ≠ oldTag) → r = (false, s))
∧ (trim newTag ≠ "" → newTag ∉ customTags s ∨ newTag = oldTag →
     r.1 = true
     ∧ (events r.2, customTags r.2)
       = applyAction (events s, customTags s) (RENAME_TAG oldTag newTag)
     ∧ (NoDup (customTags s) → NoDup (customTags r.2))
     ∧ (newTag ≠ oldTag → oldTag ∉ customTags r.2)
     ∧ (newTag ≠ oldTag →
          ∀ e ts, e ∈ events r.2 → Event.tags e = Some ts → oldTag ∉ ts)
     ∧ filter_tags (activeFilters r.2)
       = renameIn oldTag newTag (filter_tags (activeFilters s))
     ∧ (mustQueue s = true →
          pendingActions r.2 = pendingActions s ++ [RENAME_TAG oldTag newTag]
          ∧ (tracks baseEvents baseTags s → tracks baseEvents baseTags r.2))
     ∧ (mustQueue s = false → pendingActions r.2 = pendingActions s)).
Proof.
intros r. split.
- subst r. unfold handleRenameTag. intros [Hblank|[Hin Hne]].
  + by rewrite bool_decide_eq_true_2.
  + rewrite (bool_decide_eq_true_2 (newTag ∈ customTags s)) by done.
    rewrite (bool_decide_eq_true_2 (newTag ≠ oldTag)) by done.
    by rewrite orb_true_r.
- intros Hblank Hfree.
  destruct (handleRenameTag_accepted oldTag newTag s Hblank Hfree)
    as (Hok & Hev & Htg & Hfilter & Hqueue).
  fold r in Hok, Hev, Htg, Hfilter, Hqueue.
  assert (Hgone : newTag ≠ oldTag → ∀ ts, oldTag ∉ renameIn oldTag newTag ts).
  { intros Hne ts. unfold renameIn. intros (t & Heq & _)%list_elem_of_fmap.
    by case_decide. }
  assert (Hmem : (events r.2, customTags r.2)
                 = applyAction (events s, customTags s) (RENAME_TAG oldTag newTag)).
  { by rewrite Hev, Htg. }
  split_and!; [done | done | | | | done | |].
  + intros Hnd. rewrite Htg. unfold renameIn. apply NoDup_fmap_2_strong; [|done].
    intros x y Hx Hy. repeat case_decide; intros Heq; subst; try done.
    all: destruct Hfree as [Hout|Hsame]; congruence.
  + intros Hne. rewrite Htg. by apply Hgone.
  + intros Hne e ts Hin Hts. rewrite Hev in Hin.
    apply list_elem_of_fmap in Hin as (e0 & -> & _). simpl in Hts.
    destruct (Event.tags e0); simplify_eq/=. by apply Hgone.
  + intros Hq. rewrite Hq in Hqueue. split; [done|].
    by apply tracks_snoc with (a := RENAME_TAG oldTag newTag).
  + intros Hq. by rewrite Hq in Hqueue.
Qed.

Lemma deleteImage_served (dbName eventId : string) (w : World) :
serves w dbName →
leaves w (deleteDataFromStoreByKey dbName originalImagesStore eventId w).2 dbName
  (sr_set originalImagesStore (delete eventId (db_originalImages (theDb w dbName)))
     (theDb w dbName)).
Proof.
intros Hs. unfold deleteDataFromStoreByKey.
destruct (withStore_served dbName (WriteStore dbName (sr_name originalImagesStore))
            (λ db, (tt, sr_set originalImagesStore
                          (delete eventId (sr_get originalImagesStore db)) db)) w)
  as (w' & Hrun & Hleaves); [by apply serves_open | by apply serves_write |].
by rewrite Hrun.
Qed.

(** X5: [handleDeleteEvent] removes every event of that id from the list
    in memory, leaves the tags alone and closes the detail view when it
    shows the deleted event. While the component queues its mutations it
    appends one deletion to the queue and writes nothing, the events and
    tags in memory staying what the queue makes of its base; otherwise it
    leaves the queue alone and removes the original image of the event from
    the active database, whose events store it does not write. *)
Theorem delete_event_everywhere (eventId : string) (baseEvents : list Event.t)
  (baseTags : list string) (s : AppState) (w : World) :
let r := handleDeleteEvent eventId s w in
events r.1 = filter (λ e, Event.id e ≠ eventId) (events s)
∧ (eventId ∉ Event.id <$> events r.1)
∧ customTags r.1 = customTags s
∧ (Event.id <$> selectedEvent s = Some eventId →
     selectedEvent r.1 = None
     ∧ detailViewPlaceholder r.1 = Some "您正在查看的事件已被删除。")
∧ (Event.id <$> selectedEvent s ≠ Some eventId → selectedEvent r.1 = selectedEvent s)
∧ (mustQueue s = true →
     r.2 = w
     ∧ pendingActions r.1 = pendingActions s ++ [DELETE_EVENT eventId]
     ∧ (tracks baseEvents baseTags s → tracks baseEvents baseTags r.1))
∧ (mustQueue s = false →
     pendingActions r.1 = pendingActions s
     ∧ (serves w (activeDbName s) →
          db_originalImages (theDb r.2 (activeDbName s)) !! eventId = None
          ∧ db_events (theDb r.2 (activeDbName s)) = db_events (theDb w (activeDbName s)))).
Proof.
intros r.
assert (Hev : events r.1 = filter (λ e, Event.id e ≠ eventId) (events s)).
{ subst r. unfold handleDeleteEvent. destruct (mustQueue s); by case_bool_decide. }
assert (Htg : customTags r.1 = customTags s).
{ subst r. unfold handleDeleteEvent. destruct (mustQueue s); by case_bool_decide. }
split_and!; [done | | done | | | |].
- rewrite Hev. intros (e & Hid & [Hne _]%list_elem_of_filter)%list_elem_of_fmap. done.
- intros Hsel. subst r. unfold handleDeleteEvent.
  rewrite (bool_decide_eq_true_2 _ Hsel). by destruct (mustQueue s).
- intros Hsel. subst r. unfold handleDeleteEvent.
  rewrite (bool_decide_eq_false_2 _ Hsel). by destruct (mustQueue s).
- intros Hq.
  assert (Hqueue : pendingActions r.1 = pendingActions s ++ [DELETE_EVENT eventId]).
  { subst r. unfold handleDeleteEvent. rewrite Hq. by case_bool_decide. }
  split_and!; [| done |].
  + subst r. unfold handleDeleteEvent. by rewrite Hq.
  + apply tracks_snoc with (a := DELETE_EVENT eventId); [done|].
    by rewrite Hev, Htg.
- intros Hq. split.
  + subst r. unfold handleDeleteEvent. rewrite Hq. by case_bool_decide.
  + intros Hs. pose proof (deleteImage_served (activeDbName s) eventId w Hs) as (Hdb & _).
    assert (Hw : r.2 = (deleteDataFromStoreByKey (activeDbName s) originalImagesStore
                          eventId w).2).
    { subst r. unfold handleDeleteEvent. by rewrite Hq. }
    rewrite Hw, Hdb. simpl. split; [apply lookup_delete_eq | done].
Qed.

Lemma handleAddTag_foldl (s : AppState) (newTags : list string) (acc : AppState) :
(∀ tag, tag ∈ newTags → tag ∉ customTags s) →
customTags (foldl (λ acc tag, handleAddTag s tag acc) acc newTags)
= customTags acc ++ newTags
∧ events (foldl (λ acc tag, handleAddTag s tag acc) acc newTags) = events acc
∧ pendingActions (foldl (λ acc tag, handleAddTag s tag acc) acc newTags)
  = pendingActions acc ++ (if mustQueue s then ADD_TAG <$> newTags else []).
Proof.
revert acc. induction newTags as [|tag newTags IH]; intros acc Hnew; simpl.
- destruct (mustQueue s); simpl; by rewrite !app_nil_r.
- destruct (IH (handleAddTag s tag acc)) as (IHt & IHe & IHq);
    [intros; apply Hnew; by right|].
  rewrite IHt, IHe, IHq. unfold handleAddTag.
  rewrite bool_decide_eq_false_2 by (apply Hnew; by left).
  destruct (mustQueue s); simpl; by rewrite <- ?app_assoc, ?app_nil_r.
Qed.

Lemma handleAddEvent_run (now created : Z) (s : AppState) (u : UiState) (w : World) :
trim (newEventTitle u) ≠ "" → isProcessingImage u = false →
let newEvent := newEventOf now created u in
let newTags := filter (λ tag, tag ∉ customTags s) (newEventTags u) in
let r := handleAddEvent now created s u w in
r.1.2 = closeAddEventModal u
∧ events r.1.1 = newEvent :: events s
∧ customTags r.1.1 = customTags s ++ newTags
∧ pendingActions r.1.1
  = (if mustQueue s
     then pendingActions s ++ (ADD_TAG <$> newTags)
          ++ [ADD_EVENT newEvent (newEventOriginalImage u)]
     else pendingActions s)
∧ r.2 = (if mustQueue s then w
         else match newEventOriginalImage u with
              | Some image =>
                  (saveDataInStoreByKey (activeDbName s) originalImagesStore image
                     (Event.id newEvent) w).2
              | None => w
              end).
Proof.
intros Htitle Hbusy newEvent newTags r. subst r. unfold handleAddEvent.
rewrite (bool_decide_eq_false_2 _ Htitle), Hbusy. cbn [orb].
fold newEvent newTags.
assert (Hnew : ∀ tag, tag ∈ newTags → tag ∉ customTags s).
{ intros tag Hin. by apply list_elem_of_filter in Hin as [? _]. }
destruct (handleAddTag_foldl s newTags s Hnew) as (Hs1t & Hs1e & Hs1q).
set (s1 := foldl (λ acc tag, handleAddTag s tag acc) s newTags) in *.
set (s2 := match newTags with
           | [] => s1
           | _ => s1 |> showActionNotification
                          ("已添加新标签: " +:+ String.concat ", " newTags
                           +:+ (if mustQueue s then " (已临时保存)" else ""))
           end).
assert (Hs2 : customTags s2 = customTags s1 ∧ events s2 = events s1
              ∧ pendingActions s2 = pendingActions s1).
{ subst s2. by destruct newTags. }
destruct Hs2 as (Hs2t & Hs2e & Hs2q).
destruct (mustQueue s); simpl.
- rewrite Hs2t, Hs2e, Hs2q, Hs1t, Hs1e, Hs1q. by rewrite <- app_assoc.
- rewrite Hs2t, Hs2q, Hs1t, Hs1q. by rewrite app_nil_r.
Qed.

Lemma applyAction_add_fresh (evs : list Event.t) (tgs : list string) (event : Event.t)
  (image : option File) :
Event.id event ∉ Event.id <$> evs →
applyAction (evs, tgs) (ADD_EVENT event image) = (event :: evs, tgs).
Proof.
intros Hfresh. simpl.
assert (Hnone : existsb (λ e, bool_decide (Event.id e = Event.id event)) evs = false).
{ apply not_true_is_false. by rewrite hasEventId_spec. }
by rewrite Hnone.
Qed.

Lemma saveImage_served (dbName key : string) (image : File) (w : World) :
serves w dbName →
leaves w (saveDataInStoreByKey dbName originalImagesStore image key w).2 dbName
  (sr_set originalImagesStore (<[key := image]> (db_originalImages (theDb w dbName)))
     (theDb w dbName)).
Proof.
intros Hs. unfold saveDataInStoreByKey.
destruct (withStore_served dbName (WriteStore dbName (sr_name originalImagesStore))
            (λ db, (tt, sr_set originalImagesStore
                          (<[key := image]> (sr_get originalImagesStore db)) db)) w)
  as (w' & Hrun & Hleaves); [by apply serves_open | by apply serves_write |].
by rewrite Hrun.
Qed.

(** X6: [handleAddEvent] does nothing while the title is blank or an
    image is being processed. Otherwise it builds the event from the form,
    puts it first in the list in memory, appends the tags of the form that
    are new to the tag list and resets the form. While the component queues
    its mutations it appends one [ADD_TAG] for each new tag and then the
    [ADD_EVENT] to the queue and writes nothing; the events and tags in
    memory stay what the queue makes of its base provided the tags of the
    form are distinct and no event bears the id of the new one. Otherwise it
    leaves the queue alone and stores the original image, if there is one,
    under the id of the event. *)
Theorem add_event_from_form (now created : Z) (baseEvents : list Event.t)
  (baseTags : list string) (s : AppState) (u : UiState) (w : World) :
let newEvent := newEventOf now created u in
let newTags := filter (λ tag, tag ∉ customTags s) (newEventTags u) in
let r := handleAddEvent now created s u w in
(trim (newEventTitle u) = "" ∨ isProcessingImage u = true → r = (s, u, w))
∧ (trim (newEventTitle u) ≠ "" → isProcessingImage u = false →
     r.1.2 = closeAddEventModal u
     ∧ events r.1.1 = newEvent :: events s
     ∧ customTags r.1.1 = customTags s ++ newTags
     ∧ (mustQueue s = true →
          r.2 = w
          ∧ pendingActions r.1.1
            = pendingActions s ++ (ADD_TAG <$> newTags)
              ++ [ADD_EVENT newEvent (newEventOriginalImage u)]
          ∧ (NoDup (newEventTags u) → Event.id newEvent ∉ Event.id <$> events s →
             tracks baseEvents baseTags s → tracks baseEvents baseTags r.1.1))
     ∧ (mustQueue s = false →
          pendingActions r.1.1 = pendingActions s
          ∧ (newEventOriginalImage u = None → r.2 = w)
          ∧ (∀ image, newEventOriginalImage u = Some image → serves w (activeDbName s) →
               db_originalImages (theDb r.2 (activeDbName s)) !! Event.id newEvent
               = Some image))).
Proof.
intros newEvent newTags r. split.
- subst r. unfold handleAddEvent. intros [Hblank|Hbusy].
  + by rewrite (bool_decide_eq_true_2 _ Hblank).
  + by rewrite Hbusy, orb_true_r.
- intros Htitle Hbusy.
  destruct (handleAddEvent_run now created s u w Htitle Hbusy)
    as (Hform & Hev & Htg & Hqueue & Hw).
  fold newEvent newTags r in Hform, Hev, Htg, Hqueue, Hw.
  split_and!; [done | done | done | |].
  + intros Hq. rewrite Hq in Hqueue, Hw. split_and!; [done | done |].
    intros Hnd Hfresh Htracks. unfold tracks in *.
    rewrite Hqueue, applyPendingActions_app, Htracks. cbn [fst snd].
    rewrite applyPendingActions_app, fold_add_tags.
    * rewrite applyPendingActions_single, applyAction_add_fresh by done.
      by rewrite Hev, Htg.
    * by apply NoDup_filter.
    * intros tag Hin. by apply list_elem_of_filter in Hin as [? _].
  + intros Hq. rewrite Hq in Hqueue, Hw. split_and!; [done | |].
    * intros Hnone. by rewrite Hnone in Hw.
    * intros image Himage Hs. rewrite Himage in Hw. rewrite Hw.
      pose proof (saveImage_served (activeDbName s) (Event.id newEvent) image w Hs)
        as (Hdb & _).
      rewrite Hdb. simpl. apply lookup_insert_eq.
Qed.

(** ** The event list *)

Lemma dedupe_NoDup_id (xs : list string) : NoDup xs → dedupe xs = xs.
Proof.
unfold dedupe. intros Hnd.
assert (Hgen : ∀ acc, NoDup (acc ++ xs) →
  foldl (λ acc x, if bool_decide (x ∈ acc) then acc else acc ++ [x]) acc xs = acc ++ xs).
{ clear Hnd. induction xs as [|x xs IH]; intros acc Hnd; simpl.
  - by rewrite app_nil_r.
  - apply NoDup_app in Hnd as (Hacc & Hdisj & Hxs).
    rewrite bool_decide_eq_false_2 by (intros Hin; apply (Hdisj x Hin); by left).
    rewrite IH; [by rewrite <- app_assoc|].
    rewrite <- app_assoc. simpl. apply NoDup_app. split_and!; [done | | done].
    intros y Hy. by apply Hdisj. }
by apply (Hgen []).
Qed.

Lemma handleTagFilterChange_tags (tag : string) (s : AppState) :
filter_tags (activeFilters (handleTagFilterChange tag s))
= if bool_decide (tag ∈ dedupe (filter_tags (activeFilters s)))
  then filter (λ t, t ≠ tag) (dedupe (filter_tags (activeFilters s)))
  else dedupe (filter_tags (activeFilters s)) ++ [tag].
Proof. reflexivity. Qed.

(** X7: [handleTagFilterChange] toggles one tag of the tag filter: the
    filter it leaves has no duplicate, holds the other tags of the old
    filter and holds the tag exactly when the old filter did not; the status
    filter and the events are left alone; toggling the same tag twice gives
    back the tags of the old filter, in the same order when the tag was not
    among them. *)
Theorem tag_filter_toggles (tag : string) (s : AppState) :
let tags := filter_tags (activeFilters s) in
let s' := handleTagFilterChange tag s in
let tags' := filter_tags (activeFilters s') in
NoDup tags'
∧ (∀ t, t ∈ tags' ↔ (t ≠ tag ∧ t ∈ tags) ∨ (t = tag ∧ tag ∉ tags))
∧ filter_status (activeFilters s') = filter_status (activeFilters s)
∧ events s' = events s
∧ filter_tags (activeFilters (handleTagFilterChange tag s')) ≡ₚ dedupe tags
∧ (tag ∉ tags →
     filter_tags (activeFilters (handleTagFilterChange tag s')) = dedupe tags).
Proof.
intros tags s' tags'.
assert (Hfilter : ∀ l : list string, tag ∉ l → filter (λ t, t ≠ tag) l = l).
{ induction l as [|y l IH]; [done|]. intros [Hy Hl]%not_elem_of_cons.
  rewrite filter_cons_True by done. by rewrite IH. }
assert (Hsnoc : ∀ l : list string, tag ∉ l → filter (λ t, t ≠ tag) (l ++ [tag]) = l).
{ intros l Hl. rewrite filter_app, Hfilter by done.
  rewrite filter_cons_False by (by intros ?). by rewrite filter_nil, app_nil_r. }
assert (Hperm : ∀ l : list string, NoDup l → tag ∈ l →
          filter (λ t, t ≠ tag) l ++ [tag] ≡ₚ l).
{ induction l as [|x l IH]; [by intros _ ?%elem_of_nil|].
  intros [Hx Hl]%NoDup_cons Hin. rewrite filter_cons.
  destruct (decide (x ≠ tag)) as [Hne|Heq%dec_stable].
  - apply elem_of_cons in Hin as [->|Hin]; [done|]. simpl. by rewrite IH.
  - subst x. rewrite Hfilter by done. by rewrite <- Permutation_cons_append. }
pose proof (handleTagFilterChange_tags tag s) as Htags'.
pose proof (handleTagFilterChange_tags tag s') as Htwice.
fold tags tags' in Htags', Htwice. fold s' tags' in Htags'.
pose proof (NoDup_dedupe tags) as Hd.
destruct (decide (tag ∈ tags)) as [Hin|Hout].
- rewrite bool_decide_eq_true_2 in Htags' by (by rewrite elem_of_dedupe).
  assert (Hgone : tag ∉ tags').
  { rewrite Htags'. by intros [? _]%list_elem_of_filter. }
  assert (Hnd : NoDup tags') by (rewrite Htags'; by apply NoDup_filter).
  rewrite (dedupe_NoDup_id tags') in Htwice by done.
  rewrite bool_decide_eq_false_2 in Htwice by done.
  split_and!; [done | | done | done | | done].
  + intros t. rewrite Htags', list_elem_of_filter, elem_of_dedupe.
    split; [by left | intros [?|[_ ?]]; done].
  + rewrite Htwice, Htags'. apply Hperm; [done | by rewrite elem_of_dedupe].
- assert (Hout' : tag ∉ dedupe tags) by (by rewrite elem_of_dedupe).
  rewrite bool_decide_eq_false_2 in Htags' by done.
  assert (Hnd : NoDup tags').
  { rewrite Htags'. apply NoDup_app. split_and!; [done | | apply NoDup_singleton].
    intros t Ht ->%list_elem_of_singleton. done. }
  rewrite (dedupe_NoDup_id tags') in Htwice by done.
  rewrite bool_decide_eq_true_2 in Htwice by (rewrite Htags'; apply elem_of_app; right; by left).
  assert (Hback : filter_tags (activeFilters (handleTagFilterChange tag s')) = dedupe tags).
  { rewrite Htwice, Htags'. by apply Hsnoc. }
  split_and!; [done | | done | done | by rewrite Hback | done].
  intros t. rewrite Htags', elem_of_app, elem_of_dedupe, list_elem_of_singleton.
  split; [|intros [[_ ?]|[? _]]; [by left | by right]].
  intros [Ht|Ht]; [left|by right]. split; [|done]. by intros ->.
Qed.

Lemma length_filter_Forall {A} (P : A → Prop) `{∀ x, Decision (P x)} (l : list A) :
length (filter P l) = length l ↔ Forall P l.
Proof.
induction l as [|x l IH]; [by split|].
rewrite filter_cons. pose proof (length_filter P l) as Hle.
destruct (decide (P x)) as [HP|HP]; simpl.
- rewrite Forall_cons. split; [intros [=Hlen]; by rewrite <- IH | intros [_ Hl]].
  f_equal. by apply IH.
- split; [lia | by intros [? _]%Forall_cons].
Qed.

(** X8: the three status filters. [all] lets every event through; an
    event passes [completed] exactly when it has steps and all are
    completed, which is exactly when its progress is 100; it passes
    [in-progress] exactly when it does not pass [completed]; an event
    without steps has progress 0 and counts as in progress. *)
Theorem status_filters_partition (event : Event.t) :
matchesStatus all event = true
∧ matchesStatus in_progress event = negb (matchesStatus completed event)
∧ (matchesStatus completed event = true
   ↔ Event.steps event ≠ []
     ∧ Forall (λ step, ProgressStep.completed step = true) (Event.steps event))
∧ (matchesStatus completed event = true ↔ (getProgress event == 100)%Q)
∧ (Event.steps event = [] →
     getProgress event = 0%Q ∧ matchesStatus in_progress event = true).
Proof.
assert (Hle : (length (completedSteps event) ≤ length (Event.steps event))%nat)
  by apply length_filter.
assert (Hdone : matchesStatus completed event = true
                ↔ Event.steps event ≠ []
                  ∧ length (completedSteps event) = length (Event.steps event)).
{ unfold matchesStatus. rewrite andb_true_iff, negb_true_iff, bool_decide_eq_false,
    bool_decide_eq_true. by rewrite length_zero_iff_nil. }
split_and!.
- done.
- unfold matchesStatus. repeat case_bool_decide; simpl; try done; lia.
- rewrite Hdone. unfold completedSteps. by rewrite length_filter_Forall.
- rewrite Hdone. unfold getProgress.
  destruct (Event.steps event) as [|step steps] eqn:Hsteps.
  { split; [by intros [? _] | discriminate]. }
  set (c := length (completedSteps event)) in *.
  set (t := length (step :: steps)) in *.
  assert (Ht : (0 < t)%nat) by (subst t; simpl; lia).
  assert (Hnz : ¬ (inject_Z (Z.of_nat t) == 0)%Q).
  { intros Heq. pose proof (proj1 (inject_Z_injective (Z.of_nat t) 0) Heq). lia. }
  split.
  + intros [_ Heq]. rewrite Heq. field. exact Hnz.
  + intros Heq. split; [done|].
    assert (Hone : (inject_Z (Z.of_nat c) / inject_Z (Z.of_nat t) == 1)%Q).
    { apply (Qmult_inj_r _ _ 100); [discriminate|]. by rewrite Heq. }
    assert (Hct : (inject_Z (Z.of_nat c) == inject_Z (Z.of_nat t))%Q).
    { rewrite <- (Qmult_div_r (inject_Z (Z.of_nat c)) (inject_Z (Z.of_nat t)) Hnz).
      rewrite Hone. ring. }
    pose proof (proj1 (inject_Z_injective _ _) Hct). lia.
- intros Hnil. unfold getProgress, matchesStatus. rewrite Hnil. done.
Qed.

(** X9: what the event list shows, when the engine's sort only rearranges:
    exactly the events in memory that match the search (when there is one),
    pass the status filter and bear every tag of the tag filter; never more
    events than there are; and all of them when nothing is searched or
    filtered. *)
Theorem filtered_events_exact (s : AppState) :
(∀ cmp l, arraySort cmp l ≡ₚ l) →
(∀ event, event ∈ filteredEvents s
          ↔ event ∈ events s
            ∧ matchesSearch s event
            ∧ matchesStatus (filter_status (activeFilters s)) event = true
            ∧ ∀ tag, tag ∈ filter_tags (activeFilters s) →
                     tag ∈ default [] (Event.tags event))
∧ (length (filteredEvents s) ≤ length (events s))%nat
∧ (trim (searchQuery s) = "" → activeFilters s = mkActiveFilters all [] →
     filteredEvents s ≡ₚ events s).
Proof.
intros Hsort. unfold filteredEvents, matchesSearch.
set (afterSearch :=
  if bool_decide (trim (searchQuery s) ≠ "") then
    filter (λ event,
              includes (toLowerCase (searchQuery s)) (toLowerCase (Event.title event))
              || includes (toLowerCase (searchQuery s))
                   (toLowerCase (Event.description event)) = true) (events s)
  else events s).
set (afterStatus :=
  filter (λ event, matchesStatus (filter_status (activeFilters s)) event = true)
    afterSearch).
set (afterTags :=
  match filter_tags (activeFilters s) with
  | [] => afterStatus
  | wanted => filter (λ event, Forall (λ tag, tag ∈ default [] (Event.tags event)) wanted)
                afterStatus
  end).
assert (Hsearch : ∀ event, event ∈ afterSearch
                  ↔ event ∈ events s
                    ∧ (trim (searchQuery s) ≠ "" →
                       includes (toLowerCase (searchQuery s))
                         (toLowerCase (Event.title event))
                       || includes (toLowerCase (searchQuery s))
                            (toLowerCase (Event.description event)) = true)).
{ intros event. subst afterSearch. case_bool_decide as Hq.
  - rewrite list_elem_of_filter. split; [intros [? ?]; by split | intros [? Hm]].
    split; [by apply Hm | done].
  - split; [intros ?; by split | by intros [? _]]. }
assert (Htags : ∀ event, event ∈ afterTags
                ↔ event ∈ afterStatus
                  ∧ ∀ tag, tag ∈ filter_tags (activeFilters s) →
                           tag ∈ default [] (Event.tags event)).
{ intros event. subst afterTags. destruct (filter_tags (activeFilters s)) as [|t ts].
  - split; [intros ?; split; [done|]; by intros ? ?%elem_of_nil | by intros [? _]].
  - by rewrite list_elem_of_filter, Forall_forall, (comm and). }
assert (Hlen : (length afterTags ≤ length (events s))%nat).
{ transitivity (length afterStatus).
  - subst afterTags. destruct (filter_tags (activeFilters s)); [done | apply length_filter].
  - transitivity (length afterSearch); [apply length_filter|].
    subst afterSearch. case_bool_decide; [apply length_filter | done]. }
split_and!.
- intros event. rewrite (Hsort _ afterTags), Htags. subst afterStatus.
  rewrite list_elem_of_filter, Hsearch. clear. prop_tauto.
- by rewrite (Hsort _ afterTags).
- intros Hblank Hnone. rewrite (Hsort _ afterTags).
  assert (Hall : ∀ l : list Event.t,
            filter (λ event, matchesStatus all event = true) l = l).
  { clear. induction l as [|e l IH]; [done|].
    rewrite filter_cons_True by done. by rewrite IH. }
  subst afterTags afterStatus afterSearch. rewrite Hnone.
  cbn [filter_tags filter_status].
  rewrite bool_decide_eq_false_2 by (by intros ?). by rewrite Hall.
Qed.

Lemma handleAddTag_run (tag : string) (s : AppState) :
tag ∉ customTags s →
customTags (handleAddTag s tag s) = customTags s ++ [tag]
∧ events (handleAddTag s tag s) = events s
∧ pendingActions (handleAddTag s tag s)
  = if mustQueue s then pendingActions s ++ [ADD_TAG tag] else pendingActions s.
Proof.
intros Hout. unfold handleAddTag. rewrite (bool_decide_eq_false_2 _ Hout).
by destruct (mustQueue s).
Qed.

Lemma handleReorderTags_run (reorderedTags : list string) (s : AppState) :
customTags (handleReorderTags reorderedTags s) = reorderedTags
∧ events (handleReorderTags reorderedTags s) = events s
∧ pendingActions (handleReorderTags reorderedTags s)
  = if mustQueue s then pendingActions s ++ [REORDER_TAGS reorderedTags]
    else pendingActions s.
Proof. unfold handleReorderTags. by destruct (mustQueue s). Qed.

(** X10: [handleAddTag] and [handleReorderTags]. A tag already in the
    list is not added again; a new one goes last, so a tag list free of
    duplicates stays so; a reordering replaces the list. Neither touches the
    events. While the component queues its mutations each appends its
    action to the queue, the events and tags in memory staying what the
    queue makes of its base; otherwise the queue is left alone. *)
Theorem tag_list_mutations (tag : string) (reorderedTags : list string)
  (baseEvents : list Event.t) (baseTags : list string) (s : AppState) :
let sa := handleAddTag s tag s in
let sr := handleReorderTags reorderedTags s in
(tag ∈ customTags s → sa = s)
∧ (tag ∉ customTags s → customTags sa = customTags s ++ [tag])
∧ (NoDup (customTags s) → NoDup (customTags sa))
∧ customTags sr = reorderedTags
∧ events sa = events s ∧ events sr = events s
∧ (mustQueue s = true →
     (tag ∉ customTags s → pendingActions sa = pendingActions s ++ [ADD_TAG tag])
     ∧ pendingActions sr = pendingActions s ++ [REORDER_TAGS reorderedTags]
     ∧ (tracks baseEvents baseTags s →
        tracks baseEvents baseTags sa ∧ tracks baseEvents baseTags sr))
∧ (mustQueue s = false →
     pendingActions sa = pendingActions s ∧ pendingActions sr = pendingActions s).
Proof.
intros sa sr.
destruct (handleReorderTags_run reorderedTags s) as (Hrt & Hre & Hrq). fold sr in Hrt, Hre, Hrq.
assert (Hrtracks : mustQueue s = true → tracks baseEvents baseTags s →
                   tracks baseEvents baseTags sr).
{ intros Hq. rewrite Hq in Hrq.
  apply tracks_snoc with (a := REORDER_TAGS reorderedTags); [done|].
  by rewrite Hrt, Hre. }
destruct (decide (tag ∈ customTags s)) as [Hin|Hout].
- assert (Hsame : sa = s).
  { subst sa. unfold handleAddTag. by rewrite (bool_decide_eq_true_2 _ Hin). }
  rewrite Hsame. split_and!; try done.
  + intros Hq. rewrite Hq in Hrq. split; [done|]. split; [done|].
    intros Htracks. split; [done | by apply Hrtracks].
  + intros Hq. by rewrite Hq in Hrq.
- destruct (handleAddTag_run tag s Hout) as (Hat & Hae & Haq). fold sa in Hat, Hae, Haq.
  split_and!; try done.
  + intros Hnd. rewrite Hat.
    apply NoDup_app. split_and!; [done | | apply NoDup_singleton].
    by intros t Ht ->%list_elem_of_singleton.
  + intros Hq. rewrite Hq in Hrq, Haq. split; [done|]. split; [done|].
    intros Htracks. split; [|by apply Hrtracks].
    apply tracks_snoc with (s := s) (a := ADD_TAG tag); [done | | done]. simpl.
    by rewrite (bool_decide_eq_false_2 _ Hout), Hat, Hae.
  + intros Hq. by rewrite Hq in Hrq, Haq.
Qed.

(** X11: a click on a card. Outside selection mode it opens the event and
    leaves the selection empty; in selection mode it leaves the state alone
    and toggles the card: the selection holds the other ids as before and
    holds this id exactly when it did not, and it stays free of duplicates.
    A long press selects the card alone. *)
Theorem selection_toggles (event : Event.t) (s : AppState) (u : UiState) :
let r := handleCardClick event s u in
(selectedEventIds u = [] →
   r.2 = u ∧ selectedEvent r.1 = Some event ∧ detailViewPlaceholder r.1 = None
   ∧ events r.1 = events s)
∧ (selectedEventIds u ≠ [] →
     r.1 = s
     ∧ (∀ i, i ∈ selectedEventIds r.2
             ↔ (i ≠ Event.id event ∧ i ∈ selectedEventIds u)
               ∨ (i = Event.id event ∧ Event.id event ∉ selectedEventIds u))
     ∧ (NoDup (selectedEventIds u) → NoDup (selectedEventIds r.2)))
∧ selectedEventIds (handleCardLongPress event u) = [Event.id event].
Proof.
intros r. subst r. unfold handleCardClick. cbv beta.
destruct (selectedEventIds u) as [|first rest] eqn:Hsel.
- split_and!; [done | by intros ? | done].
- split_and!; [by intros ? | | done]. intros _. cbn [fst snd].
  destruct (decide (Event.id event ∈ first :: rest)) as [Hin|Hout].
  + rewrite (bool_decide_eq_true_2 _ Hin).
    unfold setSelectedEventIds. cbn [selectedEventIds]. split_and!; [done | |].
    * intros i. rewrite list_elem_of_filter. split; [by left|].
      intros [?|[_ ?]]; done.
    * by apply NoDup_filter.
  + rewrite (bool_decide_eq_false_2 _ Hout).
    unfold setSelectedEventIds. cbn [selectedEventIds]. split_and!; [done | |].
    * intros i. rewrite elem_of_app, list_elem_of_singleton.
      split; [|intros [[_ ?]|[? _]]; [by left | by right]].
      intros [Hi|Hi]; [left|by right]. split; [|done]. by intros ->.
    * intros Hnd. apply NoDup_app. split_and!; [done | | apply NoDup_singleton].
      by intros t Ht ->%list_elem_of_singleton.
Qed.

(** ** The store adapter: round trips *)

Lemma lookup_putAll_Some {T} `{KeyPath T} (data : list T) (m : gmap string T) (k : string)
  (x : T) :
putAll data m !! k = Some x → (x ∈ data ∧ keyPath x = k) ∨ m !! k = Some x.
Proof.
revert m. induction data as [|y data IH] using rev_ind; intros m; [by right|].
rewrite putAll_snoc. destruct (decide (keyPath y = k)) as [<-|Hne].
- rewrite lookup_insert_eq. intros [= ->]. left. split; [|done].
  apply elem_of_app. right. by left.
- rewrite lookup_insert_ne by done. intros [[Hin Hk]|Hm]%IH; [left|by right].
  split; [|done]. apply elem_of_app. by left.
Qed.

Lemma lookup_putAll_last {T} `{KeyPath T} (data : list T) (m : gmap string T) (x : T) :
NoDup (keyPath <$> data) → x ∈ data → putAll data m !! keyPath x = Some x.
Proof.
revert m. induction data as [|y data IH] using rev_ind; intros m Hnd Hin.
- by apply elem_of_nil in Hin.
- rewrite fmap_app in Hnd. apply NoDup_app in Hnd as (Hnd & Hdisj & _).
  rewrite putAll_snoc. apply elem_of_app in Hin as [Hin|Hin%list_elem_of_singleton].
  + rewrite lookup_insert_ne; [by apply IH|].
    intros Heq. apply (Hdisj (keyPath x)).
    * apply list_elem_of_fmap. by exists x.
    * simpl. rewrite Heq. by left.
  + subst y. apply lookup_insert_eq.
Qed.

Lemma getAll_elem_of {T} (m : gmap string T) (x : T) :
x ∈ getAll m ↔ ∃ k, m !! k = Some x.
Proof.
unfold getAll. rewrite list_elem_of_fmap. split.
- intros ([k y] & -> & Hin%elem_of_map_to_list). by exists k.
- intros (k & Hk). exists (k, x). split; [done|]. by apply elem_of_map_to_list.
Qed.

(** X12: [saveDataInStore] followed by [getAllDataFromStore], on a
    database the engine serves. The save succeeds and leaves in the store
    the given records and nothing of what it held before (of records with
    the same key the last one given); the other databases are left alone;
    the read succeeds, changes nothing, and lists only records that were
    given: all of them, each once, when their keys are distinct. *)
Theorem store_save_then_read {T} `{KeyPath T} (store : StoreRef T) (dbName : string)
  (data : list T) (w : World) :
lawful store → serves w dbName →
∃ w1 w2,
  saveDataInStore dbName store data w = (Ok tt, w1)
  ∧ sr_get store (theDb w1 dbName) = putAll data ∅
  ∧ (∀ n, n ≠ dbName → theDb w1 n = theDb w n)
  ∧ getAllDataFromStore dbName store w1 = (Ok (getAll (putAll data ∅)), w2)
  ∧ (∀ n, theDb w2 n = theDb w1 n)
  ∧ (∀ x, x ∈ getAll (putAll data ∅) → x ∈ data)
  ∧ (NoDup (keyPath <$> data) → getAll (putAll data ∅) ≡ₚ data).
Proof.
intros Hlaw Hs. unfold saveDataInStore, getAllDataFromStore.
destruct (withStore_served dbName (WriteStore dbName (sr_name store))
            (λ db, (tt, sr_set store (putAll data ∅) db)) w)
  as (w1 & Hsave & Hleaves); [by apply serves_open | by apply serves_write |].
pose proof (leaves_serves _ _ _ dbName _ Hleaves Hs) as Hs1.
destruct (read_served dbName (sr_name store) (λ db, getAll (sr_get store db)) w1 Hs1)
  as (w2 & Hread & Hleaves2 & _).
destruct Hleaves as (Hdb & Hothers & _). destruct Hleaves2 as (Hdb2 & Hothers2 & _).
simpl in Hdb. exists w1, w2. split_and!.
- done.
- by rewrite Hdb, Hlaw.
- done.
- rewrite Hread. by rewrite Hdb, Hlaw.
- intros n. destruct (decide (n = dbName)) as [->|Hne]; [done | by apply Hothers2].
- intros x (k & Hk)%getAll_elem_of.
  by apply lookup_putAll_Some in Hk as [[? _]|?].
- apply getAll_putAll.
Qed.

(** X13: [insertDataInStore]. With nothing to insert it succeeds without
    a request to the engine, whatever the engine would answer. On a
    database the engine serves it succeeds and adds the records to what the
    store holds: a record under a key that is not given stays, a given
    record is found under its key (when the given keys are distinct), and
    the other databases are left alone. *)
Theorem store_insert_merges {T} `{KeyPath T} (store : StoreRef T) (dbName : string)
  (data : list T) (w : World) :
lawful store →
(data = [] → insertDataInStore dbName store data w = (Ok tt, w))
∧ (serves w dbName →
     ∃ w1, insertDataInStore dbName store data w = (Ok tt, w1)
           ∧ sr_get store (theDb w1 dbName) = putAll data (sr_get store (theDb w dbName))
           ∧ (∀ k, k ∉ keyPath <$> data →
                sr_get store (theDb w1 dbName) !! k = sr_get store (theDb w dbName) !! k)
           ∧ (NoDup (keyPath <$> data) →
              ∀ x, x ∈ data → sr_get store (theDb w1 dbName) !! keyPath x = Some x)
           ∧ (∀ n, n ≠ dbName → theDb w1 n = theDb w n)).
Proof.
intros Hlaw. split; [by intros ->|]. intros Hs.
destruct (insertDataInStore_served dbName store data w Hs)
  as (w1 & Hrun & _ & Hdb & Hothers & _).
assert (Hstore : sr_get store (theDb w1 dbName)
                 = putAll data (sr_get store (theDb w dbName))).
{ rewrite Hdb. destruct data; [done | by rewrite Hlaw]. }
exists w1. split_and!; [done | done | | | done].
- intros k Hk. rewrite Hstore. by apply lookup_putAll_fresh.
- intros Hnd x Hx. rewrite Hstore. by apply lookup_putAll_last.
Qed.

(** X14: the tag list. On a database the engine serves, [saveTagsInStore]
    followed by [getTagsFromStore] gives back the list as it was saved, in
    its order, and the save leaves the events of the database alone; and
    where no tag list was ever saved [getTagsFromStore] gives the empty
    list. *)
Theorem tags_round_trip (dbName : string) (tags : list string) (w : World) :
serves w dbName →
(∃ w1 w2, saveTagsInStore dbName tags w = (Ok tt, w1)
          ∧ getTagsFromStore dbName w1 = (Ok tags, w2)
          ∧ db_events (theDb w1 dbName) = db_events (theDb w dbName)
          ∧ ∀ n, theDb w2 n = theDb w1 n)
∧ (db_tags (theDb w dbName) !! "allTags" = None →
     ∃ w3, getTagsFromStore dbName w = (Ok [], w3)).
Proof.
intros Hs. split.
- unfold saveTagsInStore, saveDataInStoreByKey.
  destruct (withStore_served dbName (WriteStore dbName (sr_name tagsStore))
              (λ db, (tt, sr_set tagsStore (<["allTags" := tags]> (sr_get tagsStore db)) db))
              w) as (w1 & Hsave & Hleaves); [by apply serves_open | by apply serves_write |].
  pose proof (leaves_serves _ _ _ dbName _ Hleaves Hs) as Hs1.
  unfold getTagsFromStore, getDataFromStoreByKey.
  destruct (read_served dbName (sr_name tagsStore)
              (λ db, sr_get tagsStore db !! "allTags") w1 Hs1)
    as (w2 & Hread & Hleaves2 & _).
  destruct Hleaves as (Hdb & _). destruct Hleaves2 as (Hdb2 & Hothers2 & _).
  exists w1, w2. split_and!; [done | | by rewrite Hdb |].
  + rewrite (io_bind_run _ _ _ _ _ Hread). rewrite Hdb. simpl.
    by rewrite lookup_insert_eq.
  + intros n. destruct (decide (n = dbName)) as [->|Hne]; [done | by apply Hothers2].
- intros Hnone. unfold getTagsFromStore, getDataFromStoreByKey.
  destruct (read_served dbName (sr_name tagsStore)
              (λ db, sr_get tagsStore db !! "allTags") w Hs)
    as (w3 & Hread & _).
  exists w3. rewrite (io_bind_run _ _ _ _ _ Hread). simpl. by rewrite Hnone.
Qed.

(** ** Loading and saving a snapshot *)

Lemma getAll_singleton {T} (k : string) (x : T) : getAll ({[ k := x ]} : gmap string T) = [x].
Proof. unfold getAll. by rewrite map_to_list_singleton. Qed.

Lemma getAll_empty {T} : getAll (∅ : gmap string T) = [].
Proof. unfold getAll. by rewrite map_to_list_empty. Qed.

(** The snapshot a freshly seeded database holds is the seed. *)
Lemma storedSnapshot_seededDb (dbName : string) (db : Database) :
storedSnapshot (seededDb dbName db) = seedSnapshot dbName
∧ seeded (seededDb dbName db).
Proof.
unfold storedSnapshot, seededDb, seedSnapshot, seeded, savedDb. simpl.
rewrite !lookup_insert_eq. split; [|done].
destruct (bool_decide (dbName = DEFAULT_DB_NAME)); simpl.
- unfold putAll. simpl. rewrite insert_empty. by rewrite getAll_singleton, !getAll_empty.
- unfold putAll. simpl. by rewrite !getAll_empty.
Qed.

(** X15: [loadData] on a database the engine serves (the demonstration
    database apart) succeeds and leaves the database seeded. A database
    that was seeded is left as it was and its stored snapshot is returned;
    one that was not is given the seed (the tutorial event for the default
    database, nothing for any other), which is returned. A second load
    returns the same snapshot and changes nothing: a database is seeded
    once. *)
Theorem load_seeds_once (dbToLoad : string) (w : World) :
dbToLoad ≠ DEMO_DB_NAME → serves w dbToLoad →
∃ snapshot w1 w2,
  loadData dbToLoad w = (Ok snapshot, w1)
  ∧ seeded (theDb w1 dbToLoad)
  ∧ (seeded (theDb w dbToLoad) →
       theDb w1 dbToLoad = theDb w dbToLoad
       ∧ snapshot = storedSnapshot (theDb w dbToLoad))
  ∧ (¬ seeded (theDb w dbToLoad) →
       snapshot = seedSnapshot dbToLoad
       ∧ theDb w1 dbToLoad = seededDb dbToLoad (theDb w dbToLoad))
  ∧ (∀ n, n ≠ dbToLoad → theDb w1 n = theDb w n)
  ∧ loadData dbToLoad w1 = (Ok snapshot, w2)
  ∧ ∀ n, theDb w2 n = theDb w1 n.
Proof.
intros Hdemo Hs.
destruct (loadData_served dbToLoad w Hdemo Hs) as (w1 & Hload & Hleaves).
pose proof (leaves_serves _ _ _ dbToLoad _ Hleaves Hs) as Hs1.
destruct Hleaves as (Hdb & Hothers & _). unfold baselineOf in Hload, Hdb.
assert (Hafter : seeded (theDb w1 dbToLoad)
                 ∧ ∃ snapshot, loadData dbToLoad w = (Ok snapshot, w1)
                               ∧ storedSnapshot (theDb w1 dbToLoad) = snapshot).
{ destruct (decide (seeded (theDb w dbToLoad))) as [Hseeded|Hseeded].
  - rewrite (bool_decide_eq_true_2 _ Hseeded) in Hload, Hdb. simpl in Hload, Hdb.
    rewrite Hdb. split; [done|]. by eexists.
  - rewrite (bool_decide_eq_false_2 _ Hseeded) in Hload, Hdb. simpl in Hload, Hdb.
    destruct (storedSnapshot_seededDb dbToLoad (theDb w dbToLoad)) as [Hsnap Hmark].
    rewrite Hdb. split; [done|]. by eexists. }
destruct Hafter as (Hseeded1 & snapshot & Hload' & Hsnap).
destruct (loadData_served dbToLoad w1 Hdemo Hs1) as (w2 & Hload2 & Hleaves2).
destruct Hleaves2 as (Hdb2 & Hothers2 & _). unfold baselineOf in Hload2, Hdb2.
rewrite (bool_decide_eq_true_2 _ Hseeded1) in Hload2, Hdb2. simpl in Hload2, Hdb2.
rewrite Hsnap in Hload2.
exists snapshot, w1, w2. split_and!; [done | done | | | done | done |].
- intros Hseeded. rewrite (bool_decide_eq_true_2 _ Hseeded) in Hload, Hdb.
  simpl in Hload, Hdb. split; [done | congruence].
- intros Hseeded. rewrite (bool_decide_eq_false_2 _ Hseeded) in Hload, Hdb.
  simpl in Hload, Hdb. split; [congruence | done].
- intros n. destruct (decide (n = dbToLoad)) as [->|Hne]; [done | by apply Hothers2].
Qed.

Lemma getAll_putAll_subset {T} `{KeyPath T} (data : list T) (x : T) :
x ∈ getAll (putAll data ∅) → x ∈ data.
Proof.
intros (k & Hk)%getAll_elem_of. by apply lookup_putAll_Some in Hk as [[? _]|?].
Qed.


(** ** What the adapter leaves alone *)

Lemma holds_ret {A} (P : World → Prop) (a : A) : holds P (io_ret a).
Proof. intros w r w' [= _ <-]. done. Qed.

Lemma holds_bind {A B} (P : World → Prop) (m : IO A) (k : A → IO B) :
holds P m → (∀ a, holds P (k a)) → holds P (io_bind m k).
Proof.
intros Hm Hk w r w' Hrun HP. unfold io_bind in Hrun.
destruct (m w) as [[a|e] w1] eqn:Hmw.
- eapply Hk; [exact Hrun|]. by eapply Hm.
- injection Hrun as _ <-. by eapply Hm.
Qed.

Lemma holds_both {A B} (P : World → Prop) (a : IO A) (b : IO B) :
holds P a → holds P b → holds P (io_both a b).
Proof.
intros Ha Hb w r w' Hrun HP. unfold io_both in Hrun.
destruct (a w) as [ra w1] eqn:Haw. destruct (b w1) as [rb w2] eqn:Hbw.
injection Hrun as _ <-. eapply Hb; [exact Hbw|]. by eapply Ha.
Qed.

Lemma holds_all (P : World → Prop) (ps : list (IO unit)) :
Forall (holds P) ps → holds P (io_all ps).
Proof.
induction 1 as [|p ps Hp _ IH]; [apply holds_ret|].
intros w r w' Hrun HP. simpl in Hrun.
destruct (io_both p (io_all ps) w) as [r0 w0] eqn:Hboth.
injection Hrun as _ <-. by eapply (holds_both P p (io_all ps)).
Qed.

Lemma holds_withStore {A} (P : World → Prop) (dbName : string) (r : Request)
  (op : Database → A * Database) :
storageBlind P → holds P (withStore dbName r op).
Proof.
intros [Hdb Hconn]. unfold withStore.
apply holds_bind; [|intros _; apply holds_bind; [|intros _]].
- intros w r0 w' Hrun HP. unfold initDB in Hrun. repeat case_match; simplify_eq; [done..|].
  by apply Hconn, Hdb.
- intros w r0 w' Hrun HP. unfold request in Hrun. by case_match; simplify_eq.
- intros w r0 w' Hrun HP. destruct (op (theDb w dbName)). simplify_eq. by apply Hdb.
Qed.

Lemma holds_initDB (P : World → Prop) (dbName : string) :
storageBlind P → holds P (initDB dbName).
Proof.
intros [Hdb Hconn] w r0 w' Hrun HP. unfold initDB in Hrun.
repeat case_match; simplify_eq; [done..|]. by apply Hconn, Hdb.
Qed.

Lemma holds_saveDataToDb (P : World → Prop) (dbName : string) (eventsToSave : list Event.t)
  (tagsToSave : list string) (templatesToSave : list StepTemplate.t)
  (setsToSave : list StepSetTemplate.t) :
storageBlind P →
holds P (saveDataToDb dbName eventsToSave tagsToSave templatesToSave setsToSave).
Proof.
intros HP. unfold saveDataToDb. case_match; [apply holds_ret|].
apply holds_all. repeat constructor; by apply holds_withStore.
Qed.

Lemma holds_loadData (P : World → Prop) (dbToLoad : string) :
storageBlind P → holds P (loadData dbToLoad).
Proof.
intros HP. unfold loadData. case_match; [apply holds_ret|].
apply holds_bind; [by apply holds_initDB|]. intros _.
apply holds_bind; [by apply holds_withStore|]. intros isSeeded.
repeat case_match.
- apply holds_bind; [|intros _; apply holds_bind; [by apply holds_withStore|]].
  + apply holds_all. repeat constructor; by apply holds_withStore.
  + intros _. apply holds_ret.
- apply holds_bind; [|intros _; apply holds_bind; [by apply holds_withStore|]].
  + apply holds_all. repeat constructor; by apply holds_withStore.
  + intros _. apply holds_ret.
- unfold readSnapshot. apply holds_bind.
  + repeat apply holds_both; try (by apply holds_withStore).
    unfold getTagsFromStore. apply holds_bind; [by apply holds_withStore|].
    intros ?. apply holds_ret.
  + intros (? & ? & ? & ?). apply holds_ret.
Qed.

Lemma holds_handleSwitchDb_load (P : World → Prop) (newDbName : string) (s : AppState) :
storageBlind P → holds P (handleSwitchDb_load newDbName s).
Proof.
intros HP. unfold handleSwitchDb_load. case_match.
- apply holds_bind; [by apply holds_loadData|]. intros targetDbData.
  destruct (applyPendingActions _ _ _) as [processedEvents processedTags].
  apply holds_bind; [by apply holds_saveDataToDb|]. intros _. apply holds_ret.
- apply holds_bind; [by apply holds_loadData|]. intros ?. apply holds_ret.
Qed.

Lemma storageBlind_localStorage (ls : gmap string string) :
storageBlind (λ w, localStorage w = ls).
Proof. by split. Qed.

Lemma storageBlind_rejects (rej : Request → bool) : storageBlind (λ w, rejects w = rej).
Proof. by split. Qed.

Lemma storageBlind_exists (n : string) : storageBlind (λ w, is_Some (databases w !! n)).
Proof.
split; [|done]. intros n' db w Hn. unfold setDb. simpl.
destruct (decide (n' = n)) as [->|Hne].
- rewrite lookup_insert_eq. by eexists.
- by rewrite lookup_insert_ne.
Qed.

Lemma holds_withStore_other {A} (dbName n : string) (d : Database) (r : Request)
  (op : Database → A * Database) :
n ≠ dbName → holds (λ w, theDb w n = d) (withStore dbName r op).
Proof.
intros Hn w [a|e] w' Hrun Hw.
- apply withStore_Ok in Hrun as [_ (_ & Hf & _)]. by rewrite Hf.
- pose proof (withStore_Err _ _ _ _ _ _ Hrun n) as (Heq & _). by rewrite Heq.
Qed.

(** The second half of [saveData]: the four writes of the settings. *)
Lemma saveSettings_run (g : Settings) (w : World) :
let w' :=
  (io_all [ saveMetadata SETTINGS_DB_NAME "cardDensity" (MetaNumber (cardDensity g));
            saveMetadata SETTINGS_DB_NAME "collapseCardImages"
              (MetaBool (collapseCardImages g));
            saveMetadata SETTINGS_DB_NAME "overviewBlockSize"
              (MetaString (blockSizeText (overviewBlockSize g)));
            saveMetadata SETTINGS_DB_NAME "developerMode"
              (MetaBool (isDeveloperMode g)) ] w).2 in
(∀ n, n ≠ SETTINGS_DB_NAME → theDb w' n = theDb w n)
∧ (∀ n, dataStores (theDb w' n) = dataStores (theDb w n))
∧ rejects w' = rejects w ∧ localStorage w' = localStorage w
∧ (serves w SETTINGS_DB_NAME →
     db_metadata (theDb w' SETTINGS_DB_NAME)
     = savedSettings g (db_metadata (theDb w SETTINGS_DB_NAME))).
Proof.
intros w'. set (writes := [_; _; _; _]) in w'.
assert (Hrun : io_all writes w = ((io_all writes w).1, w')) by apply surjective_pairing.
assert (Hall : ∀ P : World → Prop,
          (∀ key v, holds P (saveMetadata SETTINGS_DB_NAME key v)) → P w → P w').
{ intros P HP. apply (holds_all P writes) with (r := (io_all writes w).1); [|done].
  subst writes. repeat constructor; apply HP. }
split_and!.
- intros n Hn. apply (Hall (λ w0, theDb w0 n = theDb w n)); [|done].
  intros key v. by apply holds_withStore_other.
- apply (keeps_all dataStores writes) with (r := (io_all writes w).1); [|done].
  subst writes. repeat constructor; by apply keeps_withStore.
- apply (Hall (λ w0, rejects w0 = rejects w)); [|done].
  intros key v. apply holds_withStore, storageBlind_rejects.
- apply (Hall (λ w0, localStorage w0 = localStorage w)); [|done].
  intros key v. apply holds_withStore, storageBlind_localStorage.
- intros Hs.
  assert (Hstep : ∀ key v w0, serves w0 SETTINGS_DB_NAME →
            ∃ w1, saveMetadata SETTINGS_DB_NAME key v w0 = (Ok tt, w1)
                  ∧ serves w1 SETTINGS_DB_NAME
                  ∧ db_metadata (theDb w1 SETTINGS_DB_NAME)
                    = <[key := v]> (db_metadata (theDb w0 SETTINGS_DB_NAME))).
  { intros key v w0 Hs0.
    destruct (withStore_served SETTINGS_DB_NAME
                (WriteStore SETTINGS_DB_NAME STORE_metadata)
                (λ db, (tt, sr_set metadataStore (<[key := v]> (sr_get metadataStore db)) db))
                w0) as (w1 & H1 & L1); [by apply serves_open | by apply serves_write|].
    exists w1. split_and!; [exact H1 | by eapply leaves_serves |].
    by rewrite (proj1 L1). }
  destruct (Hstep "cardDensity" (MetaNumber (cardDensity g)) w Hs) as (w1 & H1 & Hs1 & M1).
  destruct (Hstep "collapseCardImages" (MetaBool (collapseCardImages g)) w1 Hs1)
    as (w2 & H2 & Hs2 & M2).
  destruct (Hstep "overviewBlockSize" (MetaString (blockSizeText (overviewBlockSize g)))
              w2 Hs2) as (w3 & H3 & Hs3 & M3).
  destruct (Hstep "developerMode" (MetaBool (isDeveloperMode g)) w3 Hs3)
    as (w4 & H4 & _ & M4).
  assert (Hok : io_all writes w = (Ok tt, w4)).
  { subst writes.
    apply io_all_cons_Ok. exists w1. split; [exact H1|].
    apply io_all_cons_Ok. exists w2. split; [exact H2|].
    apply io_all_cons_Ok. exists w3. split; [exact H3|].
    apply io_all_cons_Ok. exists w4. split; [exact H4|]. done. }
  subst w'. rewrite Hok. cbn [snd]. unfold savedSettings. by rewrite M4, M3, M2, M1.
Qed.

(** X16: the automatic save, then a load. Healthy or degraded, but neither
    loading nor in volatile mode nor on the demonstration database,
    [saveData] writes the snapshot in memory over the active database, if
    the engine serves it, and the display settings into the metadata store
    of the settings database, if the engine serves that one; it changes
    nothing else of the settings database and touches no other database.
    The save effect does so when no action is pending. A load of the active
    database (seeded, as any database that was ever loaded is) then returns
    the tags as they were in memory, and events and templates that were in
    memory: all of them, each once, when their ids are distinct. *)
Theorem autosave_then_load (g : Settings) (s : AppState) (w : World) :
isLoading s = false → activeDbName s ≠ "" → isTempStorageMode s = false →
activeDbName s ≠ DEMO_DB_NAME → activeDbName s ≠ SETTINGS_DB_NAME →
serves w (activeDbName s) → seeded (theDb w (activeDbName s)) →
let w1 := saveData g s w in
theDb w1 (activeDbName s)
= savedDb (events s) (customTags s) (stepTemplates s) (stepSetTemplates s)
    (theDb w (activeDbName s))
∧ (∀ n, n ≠ activeDbName s → n ≠ SETTINGS_DB_NAME → theDb w1 n = theDb w n)
∧ dataStores (theDb w1 SETTINGS_DB_NAME) = dataStores (theDb w SETTINGS_DB_NAME)
∧ (serves w SETTINGS_DB_NAME →
     db_metadata (theDb w1 SETTINGS_DB_NAME)
     = savedSettings g (db_metadata (theDb w SETTINGS_DB_NAME)))
∧ (pendingActions s = [] → autoSaveEffect g s w = w1)
∧ ∃ snapshot w2,
    loadData (activeDbName s) w1 = (Ok snapshot, w2)
    ∧ Snapshot.tags snapshot = customTags s
    ∧ (∀ e, e ∈ Snapshot.events snapshot → e ∈ events s)
    ∧ (NoDup (Event.id <$> events s) → Snapshot.events snapshot ≡ₚ events s)
    ∧ (NoDup (StepTemplate.id <$> stepTemplates s) →
       Snapshot.stepTemplates snapshot ≡ₚ stepTemplates s)
    ∧ (NoDup (StepSetTemplate.id <$> stepSetTemplates s) →
       Snapshot.stepSetTemplates snapshot ≡ₚ stepSetTemplates s).
Proof.
intros Hloading Hname Htemp Hdemo Hsettings Hs Hseeded w1.
destruct (saveSnapshot_served (activeDbName s) (events s) (customTags s) (stepTemplates s)
            (stepSetTemplates s) w Hs) as (w' & Hsave & Hleaves).
destruct (saveSettings_run g w') as (Hothers' & Hdata' & Hrej' & _ & Hmeta').
cbv zeta in Hothers', Hdata', Hrej', Hmeta'.
assert (Hw1 : w1 = (io_all
                      [ saveMetadata SETTINGS_DB_NAME "cardDensity"
                          (MetaNumber (cardDensity g));
                        saveMetadata SETTINGS_DB_NAME "collapseCardImages"
                          (MetaBool (collapseCardImages g));
                        saveMetadata SETTINGS_DB_NAME "overviewBlockSize"
                          (MetaString (blockSizeText (overviewBlockSize g)));
                        saveMetadata SETTINGS_DB_NAME "developerMode"
                          (MetaBool (isDeveloperMode g)) ] w').2).
{ subst w1. unfold saveData. rewrite Hloading, Htemp.
  unfold truthy. rewrite (bool_decide_eq_false_2 _ Hname).
  rewrite (bool_decide_eq_true_2 _ Hdemo). cbn [negb andb]. by rewrite Hsave. }
rewrite <- Hw1 in Hothers', Hdata', Hrej', Hmeta'.
pose proof (leaves_serves _ _ _ (activeDbName s) _ Hleaves Hs) as Hs'.
assert (Hs1 : serves w1 (activeDbName s)) by (unfold serves in *; by rewrite Hrej').
destruct Hleaves as (Hdb & Hothers & Hrej & _).
assert (Hdb1 : theDb w1 (activeDbName s)
               = savedDb (events s) (customTags s) (stepTemplates s) (stepSetTemplates s)
                   (theDb w (activeDbName s))).
{ by rewrite Hothers'. }
destruct (loadData_served (activeDbName s) w1 Hdemo Hs1) as (w2 & Hload & _).
assert (Hseeded1 : seeded (theDb w1 (activeDbName s))) by (by rewrite Hdb1).
unfold baselineOf in Hload. rewrite (bool_decide_eq_true_2 _ Hseeded1) in Hload.
simpl in Hload. rewrite Hdb1 in Hload.
split_and!.
- done.
- intros n Hn Hn'. rewrite Hothers' by done. by apply Hothers.
- rewrite Hdata'. by rewrite Hothers.
- intros Hserved. rewrite Hmeta'.
  + by rewrite Hothers.
  + unfold serves. rewrite Hrej. exact Hserved.
- intros Hq. unfold autoSaveEffect. by rewrite Hq.
- eexists _, w2. split; [exact Hload|]. unfold storedSnapshot, savedDb. simpl.
  split_and!.
  + by rewrite lookup_insert_eq.
  + apply getAll_putAll_subset.
  + apply (getAll_putAll (events s)).
  + apply (getAll_putAll (stepTemplates s)).
  + apply (getAll_putAll (stepSetTemplates s)).
Qed.

(** ** The other ways of a database switch *)

(** X17: a switch to a database that cannot be loaded. Whatever fails in
    the load (or in the merge), the component keeps its queue, its events,
    tags and templates and its active database, records the error (so it
    queues its mutations from then on), reports the failure and opens the
    database manager again; the stored preference is not changed. *)
Theorem switch_failure_keeps_changes (newDbName : string) (s : AppState) (w w' : World)
  (e : Error) :
newDbName ≠ activeDbName s → newDbName ≠ TEMP_STORAGE_DB_NAME_EXPORT →
(newDbName = DEMO_DB_NAME → dbError s = None ∨ pendingActions s = []) →
handleSwitchDb_load newDbName s w = (Err e, w') →
let s' := (handleSwitchDb newDbName s w).1 in
(handleSwitchDb newDbName s w).2 = w'
∧ pendingActions s' = pendingActions s
∧ events s' = events s ∧ customTags s' = customTags s
∧ stepTemplates s' = stepTemplates s ∧ stepSetTemplates s' = stepSetTemplates s
∧ activeDbName s' = activeDbName s
∧ dbError s' = Some e ∧ mustQueue s' = true
∧ isDbManagerOpen s' = true ∧ dbStatus s' = None
∧ notification_type <$> notification s' = Some error
∧ localStorage w' = localStorage w.
Proof.
intros Hactive Htemp Hdemo Hfail s'.
assert (Hrun : handleSwitchDb newDbName s w
  = (s |> setDbStatus
            (Some (mkDbStatus ("正在连接到 " +:+ getDisplayName newDbName +:+ "...") loading))
       |> setIsDbManagerOpen false |> setSelectedEvent None
       |> setDetailViewPlaceholder None
       |> setDbError (Some e)
       |> setNotification
            (Some (mkNotification error "数据库连接失败"
                     ("无法连接到数据库 " +:+ dquote +:+ getDisplayName newDbName +:+ dquote
                      +:+ "。您的更改仍然是临时的。") None))
       |> setDbStatus None |> setIsDbManagerOpen true, w')).
{ unfold handleSwitchDb.
  rewrite (bool_decide_eq_false_2 _ Hactive), (bool_decide_eq_false_2 _ Htemp).
  rewrite orb_false_r.
  assert (Hguard : bool_decide (newDbName = DEMO_DB_NAME)
                   && bool_decide (dbError s ≠ None) && bool_decide (pendingActions s ≠ [])
                   = false).
  { destruct (decide (newDbName = DEMO_DB_NAME)) as [Heq|Hne].
    - destruct (Hdemo Heq) as [Hnone|Hnil].
      + rewrite (bool_decide_eq_false_2 (dbError s ≠ None)) by (by intros ?).
        by rewrite andb_false_r.
      + rewrite (bool_decide_eq_false_2 (pendingActions s ≠ [])) by (by intros ?).
        by rewrite andb_false_r.
    - by rewrite (bool_decide_eq_false_2 _ Hne). }
  rewrite Hguard. by rewrite Hfail. }
subst s'. rewrite Hrun. split_and!; try done.
- unfold mustQueue. simpl. by rewrite orb_true_r.
- by apply (holds_handleSwitchDb_load (λ w0, localStorage w0 = localStorage w)
              newDbName s (storageBlind_localStorage _) w (Err e) w').
Qed.

(** X18: a switch without a merge. From a state without a recorded error,
    or with an empty queue, a switch to another database that the engine
    serves (neither the demonstration database nor volatile mode) loads the
    target and adopts its baseline as it is: whatever was queued is
    dropped, no error is left, the filters and the search are reset, and the
    target becomes the stored preference. A seeded target is left as it
    was, and no other database is written. *)
Theorem switch_plain_adopts (newDbName : string) (s : AppState) (w : World) :
dbError s = None ∨ pendingActions s = [] →
newDbName ≠ activeDbName s → newDbName ≠ DEMO_DB_NAME →
newDbName ≠ TEMP_STORAGE_DB_NAME_EXPORT → serves w newDbName →
let baseline := baselineOf newDbName (theDb w newDbName) in
let s' := (handleSwitchDb newDbName s w).1 in
let w' := (handleSwitchDb newDbName s w).2 in
events s' = Snapshot.events baseline.1
∧ customTags s' = Snapshot.tags baseline.1
∧ stepTemplates s' = Snapshot.stepTemplates baseline.1
∧ stepSetTemplates s' = Snapshot.stepSetTemplates baseline.1
∧ activeDbName s' = newDbName
∧ pendingActions s' = [] ∧ dbError s' = None
∧ activeFilters s' = mkActiveFilters all [] ∧ searchQuery s' = ""
∧ theDb w' newDbName = baseline.2
∧ (seeded (theDb w newDbName) → theDb w' newDbName = theDb w newDbName)
∧ (∀ n, n ≠ newDbName → theDb w' n = theDb w n)
∧ localStorage w' !! "activeDbName" = Some newDbName.
Proof.
intros Hplain Hactive Hdemo Htemp Hs baseline s' w'.
destruct (loadData_served newDbName w Hdemo Hs) as (w1 & Hload & Hleaves).
fold baseline in Hload, Hleaves.
assert (Hguard : bool_decide (dbError s ≠ None) && bool_decide (pendingActions s ≠ [])
                 = false).
{ destruct Hplain as [Hnone|Hnil].
  - by rewrite (bool_decide_eq_false_2 (dbError s ≠ None)) by (by intros ?).
  - rewrite (bool_decide_eq_false_2 (pendingActions s ≠ [])) by (by intros ?).
    by rewrite andb_false_r. }
assert (Hloadrun : handleSwitchDb_load newDbName s w
  = (Ok (Snapshot.mk (Snapshot.events baseline.1) (Snapshot.tags baseline.1)
           (Snapshot.stepTemplates baseline.1) (Snapshot.stepSetTemplates baseline.1),
         mkDbStatus "数据库切换成功！" success), w1)).
{ unfold handleSwitchDb_load. rewrite Hguard.
  rewrite (io_bind_run _ _ _ _ _ Hload). by rewrite reviveEventDates_fmap. }
assert (Hrun : handleSwitchDb newDbName s w
  = (s |> setDbStatus
            (Some (mkDbStatus ("正在连接到 " +:+ getDisplayName newDbName +:+ "...") loading))
       |> setIsDbManagerOpen false |> setSelectedEvent None
       |> setDetailViewPlaceholder None
       |> setDbStatus (Some (mkDbStatus "数据库切换成功！" success))
       |> setEvents (Snapshot.events baseline.1)
       |> setCustomTags (Snapshot.tags baseline.1)
       |> setStepTemplates (Snapshot.stepTemplates baseline.1)
       |> setStepSetTemplates (Snapshot.stepSetTemplates baseline.1)
       |> setActiveDbName newDbName |> setDbError None |> setPendingActions []
       |> setActiveFilters (mkActiveFilters all []) |> setSearchQuery "",
     w1 |> setItem "activeDbName" newDbName)).
{ unfold handleSwitchDb.
  rewrite (bool_decide_eq_false_2 _ Hactive), (bool_decide_eq_false_2 _ Htemp),
    (bool_decide_eq_false_2 _ Hdemo). simpl. by rewrite Hloadrun. }
subst s' w'. rewrite Hrun. cbn [fst snd]. destruct Hleaves as (Hdb & Hothers & _).
split_and!; try done.
- intros Hseeded. rewrite theDb_setItem, Hdb. subst baseline. unfold baselineOf.
  by rewrite (bool_decide_eq_true_2 _ Hseeded).
- simpl. apply lookup_insert_eq.
Qed.

(** ** Startup, again *)

Lemma holds_initializeApp_load (P : World → Prop) (activeDb : string) (s : AppState) :
storageBlind P → holds P (initializeApp_load activeDb s).
Proof.
intros HP. unfold initializeApp_load.
apply holds_bind; [by apply holds_loadData|]. intros data.
destruct (pendingActions s); [apply holds_ret|].
destruct (applyPendingActions _ _ _) as [processedEvents processedTags].
apply holds_bind; [by apply holds_saveDataToDb|]. intros _. apply holds_ret.
Qed.

Lemma flagSet_setItem_other (w : World) (k k' v : string) :
k ≠ k' → flagSet (setItem k' v w) k = flagSet w k.
Proof. intros Hne. unfold flagSet, setItem. simpl. by rewrite lookup_insert_ne. Qed.

Lemma flagSet_removeItem_other (w : World) (k k' : string) :
k ≠ k' → flagSet (removeItem k' w) k = flagSet w k.
Proof. intros Hne. unfold flagSet, removeItem. simpl. by rewrite lookup_delete_ne. Qed.

(** What the choice of the active database leaves: a name that is listed
    (or volatile mode), every discovered name listed, the launch recorded,
    and the choice stored. *)
Lemma initializeApp_activeDb_spec (w : World) :
let activeDb := (initializeApp_activeDb w).1.1 in
let detectedDbNames := (initializeApp_activeDb w).1.2 in
let w1 := (initializeApp_activeDb w).2 in
(activeDb = TEMP_STORAGE_DB_NAME_EXPORT ∨ activeDb ∈ detectedDbNames)
∧ (∀ n, n ∈ discoverDatabases w → n ∈ detectedDbNames)
∧ flagSet w1 "hasLaunchedBefore" = true
∧ (activeDb ≠ TEMP_STORAGE_DB_NAME_EXPORT →
     localStorage w1 !! "activeDbName" = Some activeDb)
∧ (∀ n, theDb w1 n = theDb w n) ∧ rejects w1 = rejects w.
Proof.
unfold initializeApp_activeDb.
destruct (flagSet w "hasLaunchedBefore") eqn:Hflag; cbn [negb].
- pose proof (find_default_spec (discoverDatabases w)) as Hfind.
  destruct (discoverDatabases w) as [|first names] eqn:Hd; cbn [fst snd].
  { split_and!; try done. - by left. - by rewrite flagSet_removeItem_other. }
  assert (Hfallback :
    let activeDb :=
      match find (λ name, bool_decide (name = DEFAULT_DB_NAME)) (first :: names) with
      | Some found => if truthy found then found else first
      | None => first
      end in
    activeDb ∈ first :: names).
  { cbv zeta. destruct (find _ (first :: names)) as [found|].
    - destruct Hfind as [-> Hin]. destruct (truthy DEFAULT_DB_NAME); [done | by left].
    - by left. }
  destruct (localStorage w !! "activeDbName") as [stored|] eqn:Hstored.
  + destruct (negb (truthy stored) || negb (bool_decide (stored ∈ first :: names)))
      eqn:Hinvalid; cbn [fst snd].
    * split_and!; try done.
      -- by right.
      -- by rewrite flagSet_setItem_other.
      -- intros _. unfold setItem. simpl. apply lookup_insert_eq.
    * apply orb_false_iff in Hinvalid as [_ Hin%negb_false_iff%bool_decide_eq_true].
      split_and!; try done. by right.
  + cbn [fst snd]. split_and!; try done.
    * by right.
    * by rewrite flagSet_setItem_other.
    * intros _. unfold setItem. simpl. apply lookup_insert_eq.
- cbn [fst snd]. split_and!; try done.
  + right. case_bool_decide; [done | by left].
  + intros n Hn. case_bool_decide; [done | by right].
  + unfold flagSet, setItem. simpl. rewrite lookup_insert_eq. by apply bool_decide_eq_true_2.
  + intros _. unfold setItem. simpl.
    rewrite lookup_insert_ne by done. apply lookup_insert_eq.
Qed.

(** X19: what every startup ends in. The component has stopped loading;
    its active database is volatile mode or one of the names it lists, and
    it lists every discovered name; the launch is recorded in
    [localStorage], and so is the active database unless that is volatile
    mode. Either no error is recorded, or the load failed: then events and
    tags are empty, the failure is shown, and the queue is as it was. *)
Theorem startup_settles (s : AppState) (w : World) :
let s' := (initializeApp s w).1 in
let w' := (initializeApp s w).2 in
isLoading s' = false
∧ (activeDbName s' = TEMP_STORAGE_DB_NAME_EXPORT ∨ activeDbName s' ∈ userDbNames s')
∧ (∀ n, n ∈ discoverDatabases w → n ∈ userDbNames s')
∧ flagSet w' "hasLaunchedBefore" = true
∧ (activeDbName s' ≠ TEMP_STORAGE_DB_NAME_EXPORT →
     localStorage w' !! "activeDbName" = Some (activeDbName s'))
∧ (dbError s' = None
   ∨ (∃ e, dbError s' = Some e) ∧ events s' = [] ∧ customTags s' = []
     ∧ pendingActions s' = pendingActions s
     ∧ status_type <$> dbStatus s' = Some error).
Proof.
intros s' w'.
pose proof (initializeApp_activeDb_spec w) as (Hlisted & Hall & Hflag & Hstored & _).
cbv zeta in Hlisted, Hall, Hflag, Hstored.
subst s' w'. unfold initializeApp.
destruct (initializeApp_activeDb w) as [[activeDb detectedDbNames] w1].
cbn [fst snd] in Hlisted, Hall, Hflag, Hstored.
case_bool_decide as Htemp.
- cbn [fst snd]. split_and!; try done. by left.
- destruct (initializeApp_load activeDb s w1) as [[[data flushed]|e] w2] eqn:Hload;
    cbn [fst snd].
  + assert (Hls : localStorage w2 = localStorage w1).
    { by apply (holds_initializeApp_load (λ w0, localStorage w0 = localStorage w1)
                  activeDb s (storageBlind_localStorage _) w1 _ w2 Hload). }
    assert (Hflag2 : flagSet w2 "hasLaunchedBefore" = true).
    { unfold flagSet in *. by rewrite Hls. }
    destruct Hlisted as [?|Hlisted]; [done|].
    destruct flushed; (split_and!; try done; [by right | rewrite Hls; by apply Hstored | by left]).
  + assert (Hls : localStorage w2 = localStorage w1).
    { by apply (holds_initializeApp_load (λ w0, localStorage w0 = localStorage w1)
                  activeDb s (storageBlind_localStorage _) w1 _ w2 Hload). }
    assert (Hflag2 : flagSet w2 "hasLaunchedBefore" = true).
    { unfold flagSet in *. by rewrite Hls. }
    destruct Hlisted as [?|Hlisted]; [done|].
    split_and!; try done; [by right | rewrite Hls; by apply Hstored |].
    right. split_and!; try done. by eexists.
Qed.

Lemma seeded_exists (w : World) (n : string) :
seeded (theDb w n) → is_Some (databases w !! n).
Proof.
unfold seeded, theDb. destruct (databases w !! n); [by eexists|]. simpl.
by rewrite lookup_empty.
Qed.

Lemma discoverDatabases_elem_of (w : World) (n : string) :
hasDatabasesApi w = true → rejects w ListDatabases = false →
String.prefix DB_PREFIX n = true → n ≠ SETTINGS_DB_NAME →
is_Some (databases w !! n) → n ∈ discoverDatabases w.
Proof.
intros Hapi Hlist Hprefix Hsettings [db Hdb]. unfold discoverDatabases.
rewrite Hapi, Hlist. simpl. apply list_elem_of_filter. split; [done|].
apply list_elem_of_fmap. exists (n, db). split; [done|]. by apply elem_of_map_to_list.
Qed.

Lemma serves_rejects (w w' : World) (n : string) :
rejects w' = rejects w → serves w n → serves w' n.
Proof. intros Heq Hs. unfold serves in *. by rewrite Heq. Qed.

(** The first launch, as far as the default database goes. *)
Lemma first_launch_run (s : AppState) (w : World) :
pendingActions s = [] → flagSet w "hasLaunchedBefore" = false →
serves w DEFAULT_DB_NAME → DEFAULT_DB_NAME ≠ DEMO_DB_NAME →
DEFAULT_DB_NAME ≠ TEMP_STORAGE_DB_NAME_EXPORT → ¬ seeded (theDb w DEFAULT_DB_NAME) →
let s' := (initializeApp s w).1 in
let w' := (initializeApp s w).2 in
activeDbName s' = DEFAULT_DB_NAME
∧ events s' = [tutorialEvent] ∧ customTags s' = ["教程"] ∧ dbError s' = None
∧ theDb w' DEFAULT_DB_NAME = seededDb DEFAULT_DB_NAME (theDb w DEFAULT_DB_NAME)
∧ rejects w' = rejects w
∧ hasDatabasesApi w' = hasDatabasesApi w
∧ localStorage w' = <["hasLaunchedBefore" := "true"]>
                      (<["activeDbName" := DEFAULT_DB_NAME]> (localStorage w)).
Proof.
intros Hq Hflag Hs Hdemo Htemp Hfresh s' w'. subst s' w'.
unfold initializeApp, initializeApp_activeDb. rewrite Hflag. cbn [negb].
rewrite (bool_decide_eq_false_2 _ Htemp).
set (w1 := w |> setItem "activeDbName" DEFAULT_DB_NAME |> setItem "hasLaunchedBefore" "true").
assert (Hs1 : serves w1 DEFAULT_DB_NAME) by done.
destruct (loadData_served DEFAULT_DB_NAME w1 Hdemo Hs1) as (w2 & Hload & Hleaves).
assert (Hdb1 : theDb w1 DEFAULT_DB_NAME = theDb w DEFAULT_DB_NAME) by done.
unfold baselineOf in Hload, Hleaves. rewrite Hdb1 in Hload, Hleaves.
rewrite (bool_decide_eq_false_2 _ Hfresh) in Hload, Hleaves. cbn [fst snd] in Hload, Hleaves.
assert (Hseed : seedSnapshot DEFAULT_DB_NAME = Snapshot.mk [tutorialEvent] ["教程"] [] []).
{ unfold seedSnapshot. by rewrite bool_decide_eq_true_2. }
rewrite Hseed in Hload.
assert (Hrun : initializeApp_load DEFAULT_DB_NAME s w1
               = (Ok (Snapshot.mk [tutorialEvent] ["教程"] [] [], false), w2)).
{ unfold initializeApp_load. rewrite (io_bind_run _ _ _ _ _ Hload), Hq. simpl.
  by rewrite reviveEventDates_id. }
rewrite Hrun. cbn [fst snd].
assert (Hapi : hasDatabasesApi w2 = hasDatabasesApi w).
{ by apply (holds_loadData (λ w0, hasDatabasesApi w0 = hasDatabasesApi w)
              DEFAULT_DB_NAME ltac:(by split) w1 _ w2 Hload). }
destruct Hleaves as (Hdb & _ & Hrej & Hls).
split_and!; done.
Qed.

(** X20: the launch after the first. On a first launch in a browser that
    lists its databases and serves the default database, the component
    creates and seeds the default database and shows the tutorial event;
    after a reload of the page the next startup discovers that database,
    finds it stored as the preference, selects it again and shows the same
    event, without writing the database again. *)
Theorem relaunch_finds_default (w : World) :
flagSet w "hasLaunchedBefore" = false →
hasDatabasesApi w = true → rejects w ListDatabases = false →
serves w DEFAULT_DB_NAME → ¬ seeded (theDb w DEFAULT_DB_NAME) →
String.prefix DB_PREFIX DEFAULT_DB_NAME = true →
DEFAULT_DB_NAME ≠ SETTINGS_DB_NAME → DEFAULT_DB_NAME ≠ DEMO_DB_NAME →
DEFAULT_DB_NAME ≠ TEMP_STORAGE_DB_NAME_EXPORT →
let first := initializeApp initialState w in
let second := initializeApp initialState (reload first.2) in
activeDbName first.1 = DEFAULT_DB_NAME
∧ events first.1 = [tutorialEvent] ∧ customTags first.1 = ["教程"]
∧ dbError first.1 = None
∧ activeDbName second.1 = DEFAULT_DB_NAME
∧ events second.1 = [tutorialEvent] ∧ customTags second.1 = ["教程"]
∧ dbError second.1 = None
∧ DEFAULT_DB_NAME ∈ userDbNames second.1
∧ theDb second.2 DEFAULT_DB_NAME = theDb first.2 DEFAULT_DB_NAME.
Proof.
intros Hflag Hapi Hlist Hs Hfresh Hprefix Hsettings Hdemo Htemp first second.
destruct (first_launch_run initialState w eq_refl Hflag Hs Hdemo Htemp Hfresh)
  as (Ha1 & He1 & Ht1 & Herr1 & Hdb1 & Hrej1 & Hapi1 & Hls1).
fold first in Ha1, He1, Ht1, Herr1, Hdb1, Hrej1, Hapi1, Hls1.
set (w3 := reload first.2) in *.
destruct (storedSnapshot_seededDb DEFAULT_DB_NAME (theDb w DEFAULT_DB_NAME))
  as [Hsnap Hseeded].
assert (Hdb3 : theDb w3 DEFAULT_DB_NAME
               = seededDb DEFAULT_DB_NAME (theDb w DEFAULT_DB_NAME)) by (by rewrite <- Hdb1).
assert (Hseeded3 : seeded (theDb w3 DEFAULT_DB_NAME)) by (by rewrite Hdb3).
assert (Hs3 : serves w3 DEFAULT_DB_NAME) by (by apply (serves_rejects w)).
assert (Hin : DEFAULT_DB_NAME ∈ discoverDatabases w3).
{ apply discoverDatabases_elem_of; try done.
  - by rewrite <- Hapi.
  - change (rejects w3) with (rejects first.2). by rewrite Hrej1.
  - by apply seeded_exists. }
assert (Hflag3 : flagSet w3 "hasLaunchedBefore" = true).
{ unfold flagSet. change (localStorage w3) with (localStorage first.2).
  rewrite Hls1, lookup_insert_eq. by apply bool_decide_eq_true_2. }
assert (Hstored : localStorage w3 !! "activeDbName" = Some DEFAULT_DB_NAME).
{ change (localStorage w3) with (localStorage first.2).
  rewrite Hls1, lookup_insert_ne by done. apply lookup_insert_eq. }
assert (Htruthy : truthy DEFAULT_DB_NAME = true).
{ unfold truthy. rewrite bool_decide_eq_false_2; [done|]. intros Heq.
  by rewrite Heq in Hprefix. }
assert (Hchoice : initializeApp_activeDb w3 = (DEFAULT_DB_NAME, discoverDatabases w3, w3)).
{ unfold initializeApp_activeDb. rewrite Hflag3. cbn [negb].
  destruct (discoverDatabases w3) as [|first0 names] eqn:Hd; [by apply elem_of_nil in Hin|].
  rewrite Hstored, Htruthy, (bool_decide_eq_true_2 _ Hin). done. }
destruct (loadData_served DEFAULT_DB_NAME w3 Hdemo Hs3) as (w4 & Hload & Hleaves).
unfold baselineOf in Hload, Hleaves.
rewrite (bool_decide_eq_true_2 _ Hseeded3) in Hload, Hleaves. cbn [fst snd] in Hload, Hleaves.
rewrite Hdb3, Hsnap in Hload.
assert (Hseed : seedSnapshot DEFAULT_DB_NAME = Snapshot.mk [tutorialEvent] ["教程"] [] []).
{ unfold seedSnapshot. by rewrite bool_decide_eq_true_2. }
rewrite Hseed in Hload.
assert (Hrun : initializeApp_load DEFAULT_DB_NAME initialState w3
               = (Ok (Snapshot.mk [tutorialEvent] ["教程"] [] [], false), w4)).
{ unfold initializeApp_load. rewrite (io_bind_run _ _ _ _ _ Hload). simpl.
  by rewrite reviveEventDates_id. }
assert (Hsecond : second
  = (initialState |> setIsLoading true |> setDbError None
       |> setUserDbNames (discoverDatabases w3) |> setActiveDbName DEFAULT_DB_NAME
       |> setEvents [tutorialEvent] |> setCustomTags ["教程"]
       |> setStepTemplates [] |> setStepSetTemplates [] |> setIsLoading false, w4)).
{ subst second. unfold initializeApp. fold w3. rewrite Hchoice.
  rewrite (bool_decide_eq_false_2 _ Htemp), Hrun. done. }
rewrite Hsecond. cbn [fst snd]. destruct Hleaves as (Hdb4 & _).
by split_and!.
Qed.

(** ** The database manager *)

Lemma prefix_app (p s : string) : String.prefix p (p +:+ s) = true.
Proof.
induction p as [|c p IH]; simpl; [by destruct s|].
by destruct (Ascii.ascii_dec c c).
Qed.

Lemma substring_whole (s : string) : String.substring 0 (String.length s) s = s.
Proof. induction s as [|c s IH]; [done|]. simpl. by rewrite IH. Qed.

Lemma substring_app_drop (p s : string) :
String.substring (String.length p) (String.length (p +:+ s) - String.length p) (p +:+ s) = s.
Proof.
induction p as [|c p IH]; [|exact IH].
change ("" +:+ s) with s. simpl String.length. rewrite Nat.sub_0_r. apply substring_whole.
Qed.

Lemma removeFirst_app (pat s : string) : removeFirst pat (pat +:+ s) = s.
Proof.
assert (Hunfold : removeFirst pat (pat +:+ s)
                  = if String.prefix pat (pat +:+ s)
                    then String.substring (String.length pat)
                           (String.length (pat +:+ s) - String.length pat) (pat +:+ s)
                    else match pat +:+ s with
                         | EmptyString => EmptyString
                         | String c s' => String c (removeFirst pat s')
                         end).
{ by destruct (pat +:+ s). }
rewrite Hunfold, prefix_app. apply substring_app_drop.
Qed.

Lemma discoverDatabases_exists (w : World) (n : string) :
n ∈ discoverDatabases w → is_Some (databases w !! n).
Proof.
unfold discoverDatabases. repeat case_match; try (by intros ?%elem_of_nil).
intros [_ Hin]%list_elem_of_filter.
apply list_elem_of_fmap in Hin as ([k db] & -> & Hin%elem_of_map_to_list). by eexists.
Qed.

Lemma initDB_run (dbName : string) (w : World) :
(dbName ∈ dbConnections w → initDB dbName w = (Ok tt, w))
∧ (dbName ∉ dbConnections w → rejects w (OpenDb dbName) = true →
     initDB dbName w = (Err (StorageError (OpenDb dbName)), w))
∧ (dbName ∉ dbConnections w → rejects w (OpenDb dbName) = false →
     ∃ w', initDB dbName w = (Ok tt, w')
           ∧ databases w' = <[dbName := theDb w dbName]> (databases w)
           ∧ dbConnections w' = {[dbName]} ∪ dbConnections w
           ∧ localStorage w' = localStorage w ∧ rejects w' = rejects w
           ∧ hasDatabasesApi w' = hasDatabasesApi w).
Proof.
unfold initDB. split_and!.
- intros Hin. by rewrite (bool_decide_eq_true_2 _ Hin).
- intros Hout Hrej. by rewrite (bool_decide_eq_false_2 _ Hout), Hrej.
- intros Hout Hrej. rewrite (bool_decide_eq_false_2 _ Hout), Hrej. by eexists.
Qed.

(** X21: [handleCreateNewDb] never changes the events, the queue, the
    active database or what any database holds. It refuses a blank name, a
    name that is listed already and the name "demo", and then changes
    nothing but the notification. Otherwise, when the engine opens the
    database, the full name (the prefix, a dash, the trimmed name) is
    listed last, a list free of duplicates staying so, the form is reset,
    the database exists from then on and the next discovery finds it,
    unless it is named "settings"; when the engine refuses, nothing is
    listed and nothing created. *)
Theorem create_db_guarded (s : AppState) (u : UiState) (w : World) :
let name := trim (newDbNameInput u) in
let fullName := DB_PREFIX +:+ "-" +:+ name in
let r := handleCreateNewDb s u w in
(events r.1.1 = events s ∧ pendingActions r.1.1 = pendingActions s
 ∧ activeDbName r.1.1 = activeDbName s ∧ ∀ n, theDb r.2 n = theDb w n)
∧ (name = "" ∨ fullName ∈ userDbNames s ∨ name = "demo" →
     userDbNames r.1.1 = userDbNames s ∧ r.1.2 = u ∧ r.2 = w
     ∧ notification_type <$> notification r.1.1 = Some error)
∧ (name ≠ "" → fullName ∉ userDbNames s → name ≠ "demo" →
   fullName ∉ dbConnections w →
     (rejects w (OpenDb fullName) = false →
        userDbNames r.1.1 = userDbNames s ++ [fullName]
        ∧ (NoDup (userDbNames s) → NoDup (userDbNames r.1.1))
        ∧ newDbNameInput r.1.2 = "" ∧ isCreateDbModalOpen r.1.2 = false
        ∧ notification_type <$> notification r.1.1 = Some success
        ∧ is_Some (databases r.2 !! fullName)
        ∧ (hasDatabasesApi w = true → rejects w ListDatabases = false →
           name ≠ "settings" → fullName ∈ discoverDatabases r.2))
     ∧ (rejects w (OpenDb fullName) = true →
          userDbNames r.1.1 = userDbNames s ∧ r.1.2 = u ∧ r.2 = w
          ∧ notification_type <$> notification r.1.1 = Some error)).
Proof.
intros name fullName r.
destruct (initDB_run fullName w) as (Hcached & Hrefused & Hopened).
assert (Hsame : ∀ w', (∃ res, initDB fullName w = (res, w')) → ∀ n, theDb w' n = theDb w n).
{ intros w' [res Hrun] n. by destruct (initDB_leaves fullName w w' res Hrun n) as (? & _). }
subst r. unfold handleCreateNewDb. fold name. fold fullName.
destruct (decide (name = "")) as [Hblank|Hname].
{ unfold truthy. rewrite (bool_decide_eq_true_2 _ Hblank). cbn [negb fst snd].
  split_and!; try done. }
unfold truthy. rewrite (bool_decide_eq_false_2 _ Hname). cbn [negb].
destruct (decide (fullName ∈ userDbNames s)) as [Hlisted|Hnew].
{ rewrite (bool_decide_eq_true_2 _ Hlisted). cbn [orb fst snd]. split_and!; try done. }
rewrite (bool_decide_eq_false_2 _ Hnew). cbn [orb].
destruct (decide (name = "demo")) as [Hdemo|Hnotdemo].
{ rewrite (bool_decide_eq_true_2 _ Hdemo). cbn [fst snd]. split_and!; try done. }
rewrite (bool_decide_eq_false_2 _ Hnotdemo).
destruct (initDB fullName w) as [[[]|e] w'] eqn:Hrun; cbn [fst snd].
- split_and!; try done.
  + apply Hsame. by eexists.
  + intros [?|[?|?]]; done.
  + intros _ _ _ Hout. split.
    * intros Hrej. destruct (Hopened Hout Hrej) as (w'' & Hrun' & Hdbs & _ & _ & Hrej' & Hapi').
      injection Hrun' as Heq. subst w''.
      assert (Hexists : is_Some (databases w' !! fullName)).
      { rewrite Hdbs, lookup_insert_eq. by eexists. }
      split_and!; try done.
      -- intros Hnd. apply NoDup_app. split_and!; [done | | apply NoDup_singleton].
         by intros n Hn ->%list_elem_of_singleton.
      -- intros Hapi Hlist Hsettings. apply discoverDatabases_elem_of; try done.
         ++ by rewrite Hapi'.
         ++ by rewrite Hrej'.
         ++ intros Heq. apply Hsettings.
            change SETTINGS_DB_NAME with (DB_PREFIX +:+ "-" +:+ "settings") in Heq.
            by do 2 apply String.app_inj in Heq.
    * intros Hrej. by pose proof (Hrefused Hout Hrej).
- split_and!; try done.
  + apply Hsame. by eexists.
  + intros [?|[?|?]]; done.
  + intros _ _ _ Hout. split.
    * intros Hrej. by destruct (Hopened Hout Hrej) as (w'' & Hrun' & _).
    * intros Hrej. pose proof (Hrefused Hout Hrej) as Heq.
      injection Heq as _ ->. done.
Qed.

Lemma handleDeleteDb_run (refused : bool) (name : string) (s : AppState) (u : UiState)
  (w : World) :
dbToDelete u = Some name → name ≠ "" →
handleDeleteDb refused s u w
= if refused then
    ((handleDeleteDb_leave name s w).1
       |> setNotification (Some (mkNotification error "删除失败" "无法删除数据库。" None)),
     u |> setDbToDelete None,
     closeConnection name (handleDeleteDb_leave name s w).2)
  else
    ((handleDeleteDb_leave name s w).1
       |> setUserDbNames (filter (λ n, n ≠ name) (userDbNames s))
       |> setNotification
            (Some (mkNotification success "删除成功"
                     ("数据库 " +:+ dquote +:+ getDisplayName name +:+ dquote
                      +:+ " 已被删除。") None)),
     u |> setDbToDelete None,
     deleteDatabase name (closeConnection name (handleDeleteDb_leave name s w).2)).
Proof.
intros Hdel Hname. unfold handleDeleteDb. rewrite Hdel.
unfold truthy. rewrite (bool_decide_eq_false_2 _ Hname). cbn [negb].
by destruct (handleDeleteDb_leave name s w).
Qed.

(** X22: [handleDeleteDb], for a database chosen for deletion. The choice
    is cleared and the connection to the database dropped. When the engine
    carries the deletion out, the database is gone, the next discovery does
    not find it, and it is listed no more. A database that is not the
    active one is deleted without any change to the events, tags, queue,
    active database, error, [localStorage] or any other database. When the
    active database is deleted and it was the only one listed, the
    component enters volatile mode with nothing in memory, an empty queue
    and an error recorded, and the stored preference is removed. When
    other databases are listed, the component leaves the active one as a
    database switch does: for the default database when that is among the
    others, and else for the first of the others (names taken to be
    non-empty). *)
Theorem delete_db_cases (refused : bool) (name : string) (s : AppState) (u : UiState)
  (w : World) :
dbToDelete u = Some name → name ≠ "" →
let r := handleDeleteDb refused s u w in
dbToDelete r.1.2 = None
∧ (name ∉ dbConnections r.2)
∧ (refused = false →
     databases r.2 !! name = None ∧ (name ∉ discoverDatabases r.2)
     ∧ userDbNames r.1.1 = filter (λ n, n ≠ name) (userDbNames s)
     ∧ (name ∉ userDbNames r.1.1)
     ∧ notification_type <$> notification r.1.1 = Some success)
∧ (refused = true → notification_type <$> notification r.1.1 = Some error)
∧ (name ≠ activeDbName s →
     events r.1.1 = events s ∧ customTags r.1.1 = customTags s
     ∧ pendingActions r.1.1 = pendingActions s ∧ activeDbName r.1.1 = activeDbName s
     ∧ dbError r.1.1 = dbError s
     ∧ localStorage r.2 = localStorage w
     ∧ (∀ n, n ≠ name → theDb r.2 n = theDb w n)
     ∧ (refused = true → userDbNames r.1.1 = userDbNames s ∧ theDb r.2 name = theDb w name))
∧ (name = activeDbName s → (∀ n, n ∈ userDbNames s → n = name) →
     activeDbName r.1.1 = TEMP_STORAGE_DB_NAME_EXPORT
     ∧ events r.1.1 = [] ∧ customTags r.1.1 = [] ∧ pendingActions r.1.1 = []
     ∧ dbError r.1.1 = Some LastDatabaseDeleted ∧ mustQueue r.1.1 = true
     ∧ localStorage r.2 !! "activeDbName" = None
     ∧ ∀ n, n ≠ name → theDb r.2 n = theDb w n)
∧ (name = activeDbName s → DEFAULT_DB_NAME ∈ userDbNames s →
   DEFAULT_DB_NAME ≠ name → DEFAULT_DB_NAME ≠ "" →
     events r.1.1 = events (handleSwitchDb DEFAULT_DB_NAME s w).1
     ∧ customTags r.1.1 = customTags (handleSwitchDb DEFAULT_DB_NAME s w).1
     ∧ activeDbName r.1.1 = activeDbName (handleSwitchDb DEFAULT_DB_NAME s w).1
     ∧ pendingActions r.1.1 = pendingActions (handleSwitchDb DEFAULT_DB_NAME s w).1
     ∧ dbError r.1.1 = dbError (handleSwitchDb DEFAULT_DB_NAME s w).1)
∧ (name = activeDbName s →
   DEFAULT_DB_NAME ∉ filter (λ n, n ≠ name) (userDbNames s) →
   ∀ next rest, filter (λ n, n ≠ name) (userDbNames s) = next :: rest → next ≠ "" →
     events r.1.1 = events (handleSwitchDb next s w).1
     ∧ customTags r.1.1 = customTags (handleSwitchDb next s w).1
     ∧ activeDbName r.1.1 = activeDbName (handleSwitchDb next s w).1
     ∧ pendingActions r.1.1 = pendingActions (handleSwitchDb next s w).1
     ∧ dbError r.1.1 = dbError (handleSwitchDb next s w).1).
Proof.
intros Hdel Hname r. subst r. rewrite (handleDeleteDb_run refused name s u w Hdel Hname).
assert (Hconn : ∀ w0, name ∉ dbConnections (closeConnection name w0)).
{ intros w0. unfold closeConnection. simpl.
  intros [_ Hout]%elem_of_difference. apply Hout. by apply elem_of_singleton. }
assert (Hgone : ∀ w0, databases (deleteDatabase name w0) !! name = None).
{ intros w0. unfold deleteDatabase. simpl. apply lookup_delete_eq. }
assert (Hothers : ∀ w0 n, n ≠ name → theDb (deleteDatabase name w0) n = theDb w0 n).
{ intros w0 n Hne. unfold deleteDatabase, theDb. simpl. by rewrite lookup_delete_ne. }
assert (Hleave_other : name ≠ activeDbName s → handleDeleteDb_leave name s w = (s, w)).
{ intros Hne. unfold handleDeleteDb_leave. by rewrite (bool_decide_eq_false_2 _ Hne). }
split_and!.
- by destruct refused.
- destruct refused; cbn [fst snd]; [apply Hconn|].
  unfold deleteDatabase. simpl. apply Hconn.
- intros ->. cbn [fst snd]. split_and!; [apply Hgone | | done | | done].
  + intros [db Hdb]%discoverDatabases_exists. by rewrite Hgone in Hdb.
  + simpl. by intros [? _]%list_elem_of_filter.
- by intros ->.
- intros Hne. rewrite (Hleave_other Hne).
  destruct refused; cbn [fst snd]; split_and!; try done.
  intros n Hn. by rewrite Hothers.
- intros Hactive Hlast.
  assert (Hnone : filter (λ n, n ≠ name) (userDbNames s) = []).
  { apply elem_of_nil_inv. intros n [Hne Hin]%list_elem_of_filter. by apply Hne, Hlast. }
  assert (Hleave : handleDeleteDb_leave name s w
    = (s |> setActiveDbName TEMP_STORAGE_DB_NAME_EXPORT
         |> setEvents [] |> setCustomTags [] |> setStepTemplates []
         |> setStepSetTemplates [] |> setPendingActions []
         |> setDbError (Some LastDatabaseDeleted)
         |> setDbStatus
              (Some (mkDbStatus "最后数据库已删除。您的更改现在是临时的。" info)),
       w |> removeItem "activeDbName")).
  { unfold handleDeleteDb_leave. by rewrite (bool_decide_eq_true_2 _ Hactive), Hnone. }
  rewrite Hleave.
  assert (Hls : ∀ w0 : World, localStorage (removeItem "activeDbName" w0) !! "activeDbName"
                              = None).
  { intros w0. unfold removeItem. simpl. apply lookup_delete_eq. }
  destruct refused; cbn [fst snd]; split_and!; try done; try apply Hls.
  + unfold mustQueue. simpl. by rewrite orb_true_r.
  + unfold mustQueue. simpl. by rewrite orb_true_r.
  + intros n Hn. by rewrite Hothers.
- intros Hactive Hlisted Hother Htruthy.
  assert (Hin : DEFAULT_DB_NAME ∈ filter (λ n, n ≠ name) (userDbNames s)).
  { by apply list_elem_of_filter. }
  assert (Htrue : truthy DEFAULT_DB_NAME = true).
  { unfold truthy. by rewrite (bool_decide_eq_false_2 _ Htruthy). }
  assert (Hleave : handleDeleteDb_leave name s w = handleSwitchDb DEFAULT_DB_NAME s w).
  { unfold handleDeleteDb_leave. rewrite (bool_decide_eq_true_2 _ Hactive).
    pose proof (find_default_spec (filter (λ n, n ≠ name) (userDbNames s))) as Hfind.
    destruct (find _ (filter (λ n, n ≠ name) (userDbNames s))) as [found|]; [|done].
    destruct Hfind as [Hfound _]. rewrite Hfound, Htrue. cbn beta iota.
    by rewrite Htrue. }
  rewrite Hleave. by destruct refused.
- intros Hactive Hnodefault next rest Hothers' Htruthy.
  assert (Htrue : truthy next = true).
  { unfold truthy. by rewrite (bool_decide_eq_false_2 _ Htruthy). }
  assert (Hleave : handleDeleteDb_leave name s w = handleSwitchDb next s w).
  { unfold handleDeleteDb_leave. rewrite (bool_decide_eq_true_2 _ Hactive).
    pose proof (find_default_spec (filter (λ n, n ≠ name) (userDbNames s))) as Hfind.
    destruct (find _ (filter (λ n, n ≠ name) (userDbNames s))) as [found|].
    - by destruct Hfind as [_ Hin].
    - rewrite Hothers'. cbn [head]. cbn beta iota. by rewrite Htrue. }
  rewrite Hleave. by destruct refused.
Qed.

Lemma format_deletions (outcome : string → DeleteOutcome) (names : list string) :
∀ w1 : World,
  let w2 := foldl (λ w0 name, match outcome name with
                              | Deleted => deleteDatabase name w0
                              | DeleteFailed | DeleteBlocked => w0
                              end) w1 names in
  (∀ n, n ∈ names → outcome n = Deleted → databases w2 !! n = None)
  ∧ (∀ n, n ∉ names ∨ outcome n ≠ Deleted → databases w2 !! n = databases w1 !! n)
  ∧ (∀ n, databases w1 !! n = None → databases w2 !! n = None)
  ∧ dbConnections w2 = dbConnections w1 ∧ localStorage w2 = localStorage w1
  ∧ rejects w2 = rejects w1 ∧ hasDatabasesApi w2 = hasDatabasesApi w1.
Proof.
induction names as [|name names IH]; intros w1; cbv zeta.
- split_and!; try done. by intros n ?%elem_of_nil.
- cbn [foldl].
  set (w1' := match outcome name with
              | Deleted => deleteDatabase name w1
              | DeleteFailed | DeleteBlocked => w1
              end).
  destruct (IH w1') as (Hdel & Hkeep & Hnone & Hconn & Hls & Hrej & Hapi).
  assert (Hstep : ∀ n, databases w1 !! n = None → databases w1' !! n = None).
  { intros n Hn. subst w1'. destruct (outcome name); [|done..].
    unfold deleteDatabase. simpl.
    destruct (decide (name = n)) as [->|Hne];
      [apply lookup_delete_eq | by rewrite lookup_delete_ne]. }
  assert (Hfields : dbConnections w1' = dbConnections w1 ∧ localStorage w1' = localStorage w1
                    ∧ rejects w1' = rejects w1 ∧ hasDatabasesApi w1' = hasDatabasesApi w1).
  { subst w1'. by destruct (outcome name). }
  destruct Hfields as (Fc & Fl & Fr & Fa).
  split_and!.
  + intros n [->|Hin]%elem_of_cons Hn.
    * apply Hnone. subst w1'. rewrite Hn. unfold deleteDatabase. simpl.
      apply lookup_delete_eq.
    * by apply Hdel.
  + intros n Hn.
    destruct (decide (n ∈ names ∧ outcome n = Deleted)) as [[Hin Hd]|Hout].
    * destruct Hn as [Hn|Hn]; [|done]. by apply not_elem_of_cons in Hn as [_ ?].
    * rewrite Hkeep.
      -- subst w1'. destruct (outcome name) eqn:Hname; [|done..].
         unfold deleteDatabase. simpl. rewrite lookup_delete_ne; [done|].
         intros <-. destruct Hn as [Hn|Hn]; [|done].
         apply not_elem_of_cons in Hn as [Hn _]. done.
      -- destruct (decide (n ∈ names)) as [Hin|Hnotin]; [|by left].
         right. intros Hd. by apply Hout.
  + intros n Hn. by apply Hnone, Hstep.
  + by rewrite Hconn.
  + by rewrite Hls.
  + by rewrite Hrej.
  + by rewrite Hapi.
Qed.

Lemma discoverDatabases_inv (w : World) (n : string) :
n ∈ discoverDatabases w →
hasDatabasesApi w = true ∧ rejects w ListDatabases = false
∧ String.prefix DB_PREFIX n = true ∧ n ≠ SETTINGS_DB_NAME.
Proof.
unfold discoverDatabases.
destruct (hasDatabasesApi w); [|by intros ?%elem_of_nil]. cbn [negb].
destruct (rejects w ListDatabases); [by intros ?%elem_of_nil|].
by intros [[? ?] _]%list_elem_of_filter.
Qed.

(** X23: [handleFormatApp]. In volatile mode it empties the session in
    memory and touches neither [localStorage] nor any database. Otherwise
    it drops every connection and asks for the deletion of the settings
    database, the demonstration database and every listed database: each
    deletion the engine carries out leaves that database gone, and every
    other database (not asked for, refused or held up by another tab) is
    left as it was. When no deletion is refused [localStorage] is emptied,
    success is reported and a reload is offered, and after the reload the
    startup is a first launch again (it selects the default database); the
    listed databases that were deleted are not discovered any more, while
    one whose deletion was held up is still there and still discovered,
    success notwithstanding. When a deletion is refused [localStorage] is
    left as it was and the failure is reported. *)
Theorem format_clears (outcome : string → DeleteOutcome) (message : string) (s : AppState)
  (u : UiState) (w : World) :
let targets := SETTINGS_DB_NAME :: DEMO_DB_NAME :: userDbNames s in
let r := handleFormatApp outcome message s u w in
isFormatConfirmModalOpen r.1.2 = false
∧ (isTempStorageMode s = true →
     r.2 = w ∧ events r.1.1 = [] ∧ customTags r.1.1 = [] ∧ stepTemplates r.1.1 = []
     ∧ stepSetTemplates r.1.1 = [] ∧ pendingActions r.1.1 = []
     ∧ activeDbName r.1.1 = activeDbName s)
∧ (isTempStorageMode s = false →
     dbConnections r.2 = ∅
     ∧ (∀ n, n ∈ targets → outcome n = Deleted → databases r.2 !! n = None)
     ∧ (∀ n, n ∉ targets ∨ outcome n ≠ Deleted → databases r.2 !! n = databases w !! n)
     ∧ events r.1.1 = events s
     ∧ ((∀ n, n ∈ targets → outcome n ≠ DeleteFailed) →
          localStorage r.2 = ∅
          ∧ notification_type <$> notification r.1.1 = Some success
          ∧ notification r.1.1 ≫= notification_onConfirm = Some ReloadWindow
          ∧ (initializeApp_activeDb (reload r.2)).1.1 = DEFAULT_DB_NAME
          ∧ (∀ n, n ∈ userDbNames s → outcome n = Deleted →
                  n ∉ discoverDatabases (reload r.2))
          ∧ (∀ n, outcome n = DeleteBlocked → n ∈ discoverDatabases w →
                  n ∈ discoverDatabases (reload r.2)))
     ∧ ((∃ n, n ∈ targets ∧ outcome n = DeleteFailed) →
          localStorage r.2 = localStorage w
          ∧ notification_type <$> notification r.1.1 = Some error)).
Proof.
intros targets r. subst r. unfold handleFormatApp. split_and!.
- destruct (isTempStorageMode s); [done|]. by destruct (existsb _ _).
- intros Htemp. by rewrite Htemp.
- intros Htemp. rewrite Htemp. fold targets.
  destruct (format_deletions outcome (dedupe targets) (setDbConnections ∅ w))
    as (Hdel & Hkeep & _ & Hconn & Hls & Hrej & Hapi).
  cbv zeta in Hdel, Hkeep, Hconn, Hls, Hrej, Hapi.
  set (w2 := foldl _ (setDbConnections ∅ w) (dedupe targets)) in *.
  set (failed := existsb _ (dedupe targets)).
  assert (Hany : failed = true ↔ ∃ n, n ∈ targets ∧ outcome n = DeleteFailed).
  { subst failed. rewrite existsb_exists.
    split; intros (n & Hin & Hn); exists n; split.
    - by apply elem_of_dedupe, list_elem_of_In.
    - by apply bool_decide_eq_true in Hn.
    - by apply list_elem_of_In, elem_of_dedupe.
    - by apply bool_decide_eq_true. }
  split_and!.
  + by destruct failed.
  + intros n Hin Hn.
    assert (Hw2 : databases w2 !! n = None) by (apply Hdel; [by apply elem_of_dedupe | done]).
    by destruct failed.
  + intros n Hout.
    assert (Hw2 : databases w2 !! n = databases w !! n).
    { rewrite Hkeep; [done|]. by rewrite elem_of_dedupe. }
    by destruct failed.
  + by destruct failed.
  + intros Hall.
    assert (Hnone : failed = false).
    { apply not_true_is_false. intros (n & Hin & Hn)%Hany. by apply (Hall n Hin). }
    rewrite Hnone. cbn [fst snd]. split_and!; try done.
    * intros n Hin Hn [db Hdb]%discoverDatabases_exists. simpl in Hdb.
      rewrite Hdel in Hdb; [done | | done]. apply elem_of_dedupe.
      by do 2 apply list_elem_of_further.
    * intros n Hn Hfound.
      destruct (discoverDatabases_inv w n Hfound) as (Ha & Hl & Hp & Hs).
      apply discoverDatabases_elem_of; try done.
      -- simpl. by rewrite Hapi.
      -- simpl. by rewrite Hrej.
      -- simpl. rewrite Hkeep.
         ++ by apply discoverDatabases_exists.
         ++ right. by rewrite Hn.
  + intros Hsome%Hany. rewrite Hsome. cbn [fst snd]. by split.
Qed.

(** X24: while the component is loading, volatile or degraded, no mutation
    handler and no run of the sync effect touches storage: the change lives
    in memory and in the queue only. The automatic save does nothing while
    actions are pending; while loading and in volatile mode it writes the
    display settings to the metadata store of the settings database and
    nothing else, so that no other database, none of the data stores and
    nothing of [localStorage] changes. An import and an export stay in
    memory in volatile and in degraded mode; and in volatile mode a format
    resets the session without touching storage. *)
Theorem queueing_never_writes (s : AppState) (u : UiState) (w : World)
  (updatedEvent : Event.t) (originalImage : option ImageUpdate) (eventId : string)
  (now created : Z) (o : Oracle) (n0 : nat * nat) (content : ImportedJson)
  (g : Settings) (outcome : string → DeleteOutcome) (message : string) :
mustQueue s = true →
(handleUpdateEvent updatedEvent originalImage s w).2 = w
∧ (handleDeleteEvent eventId s w).2 = w
∧ (handleAddEvent now created s u w).2 = w
∧ (executeDeleteSelection s u w).2 = w
∧ (syncEffect s w).2 = w
∧ (pendingActions s ≠ [] → autoSaveEffect g s w = w)
∧ (isLoading s = true ∨ isTempStorageMode s = true →
     (∀ n, n ≠ SETTINGS_DB_NAME → theDb (autoSaveEffect g s w) n = theDb w n)
     ∧ dataStores (theDb (autoSaveEffect g s w) SETTINGS_DB_NAME)
       = dataStores (theDb w SETTINGS_DB_NAME)
     ∧ localStorage (autoSaveEffect g s w) = localStorage w)
∧ (isTempStorageMode s = true ∨ dbError s ≠ None →
     (executeImport o n0 content s w).2 = w ∧ (handleExportData now s w).1.2 = w)
∧ (isTempStorageMode s = true → (handleFormatApp outcome message s u w).2 = w).
Proof.
intros Hq. split_and!.
- unfold handleUpdateEvent. rewrite Hq. done.
- unfold handleDeleteEvent. rewrite Hq. done.
- unfold handleAddEvent. rewrite Hq. by destruct (_ || _).
- unfold executeDeleteSelection. rewrite Hq. done.
- unfold syncEffect. unfold mustQueue in Hq. rewrite Hq. cbn [orb].
  by destruct (_ && _).
- intros Hp. unfold autoSaveEffect. by destruct (pendingActions s).
- intros Hwhy. unfold autoSaveEffect.
  destruct (pendingActions s) as [|a q]; [|done].
  assert (Hskip : negb (isLoading s) && truthy (activeDbName s)
                  && negb (isTempStorageMode s)
                  && bool_decide (activeDbName s ≠ DEMO_DB_NAME) = false).
  { destruct Hwhy as [->| ->]; [done|]. cbn [negb]. by rewrite andb_false_r. }
  unfold saveData. rewrite Hskip. cbv zeta.
  destruct (saveSettings_run g w) as (Ho & Hd & _ & Hl & _).
  split_and!; [exact Ho | apply Hd | exact Hl].
- intros Hwhy.
  assert (Hmode : isTempStorageMode s || bool_decide (dbError s ≠ None) = true).
  { destruct Hwhy as [->|Herr]; [done|]. rewrite (bool_decide_eq_true_2 _ Herr).
    by rewrite orb_true_r. }
  split.
  + unfold executeImport. rewrite Hmode.
    destruct (importFile s); [|done].
    destruct content as [|[[[iE|] [iT|] [iS|] [iX|]]|]]; try done.
    by destruct (regenerate _ _ _ _ _) as [[? ?] ?].
  + unfold handleExportData. rewrite Hmode.
    by destruct (_ && _).
- intros Ht. unfold handleFormatApp. by rewrite Ht.
Qed.

Lemma keeps_readSnapshot (dbName : string) : keeps (λ db, db) (readSnapshot dbName).
Proof.
unfold readSnapshot, getAllDataFromStore, getTagsFromStore, getDataFromStoreByKey.
apply keeps_bind; [|intros [? [? [? ?]]]; apply keeps_ret].
repeat apply keeps_both; try by apply keeps_withStore.
apply keeps_bind; [by apply keeps_withStore | intros; apply keeps_ret].
Qed.

Lemma holds_readSnapshot (P : World → Prop) (dbName : string) :
storageBlind P → holds P (readSnapshot dbName).
Proof.
intros HP.
unfold readSnapshot, getAllDataFromStore, getTagsFromStore, getDataFromStoreByKey.
apply holds_bind; [|intros [? [? [? ?]]]; apply holds_ret].
repeat apply holds_both; try by apply holds_withStore.
apply holds_bind; [by apply holds_withStore | intros; apply holds_ret].
Qed.

(** X25: [handleExportData] only reads. The data in memory, the queue, the
    contents of every database and [localStorage] are what they were. The
    demonstration database is never exported. In volatile and in degraded
    mode the document holds what is in memory and storage is not consulted;
    otherwise it holds what the active database stores, when the engine
    serves the reads. A document is handed out exactly when success is
    reported. *)
Theorem export_reads_only (now : Z) (s : AppState) (w : World) :
let r := handleExportData now s w in
inMemory r.1.1 = inMemory s
∧ pendingActions r.1.1 = pendingActions s ∧ activeDbName r.1.1 = activeDbName s
∧ dbError r.1.1 = dbError s
∧ (∀ n, theDb r.1.2 n = theDb w n) ∧ localStorage r.1.2 = localStorage w
∧ (activeDbName s = DEMO_DB_NAME → isTempStorageMode s = false →
     r.2 = None ∧ r.1.2 = w)
∧ (isTempStorageMode s = true ∨ (dbError s ≠ None ∧ activeDbName s ≠ DEMO_DB_NAME) →
     r.2 = Some (mkExportDoc 1 now (inMemory s)) ∧ r.1.2 = w)
∧ (isTempStorageMode s = false → dbError s = None → activeDbName s ≠ DEMO_DB_NAME →
   serves w (activeDbName s) →
     r.2 = Some (mkExportDoc 1 now (storedSnapshot (theDb w (activeDbName s)))))
∧ (is_Some r.2 ↔ notification_type <$> notification r.1.1 = Some success)
∧ (r.2 = None ↔ notification_type <$> notification r.1.1 = Some error).
Proof.
intros r. subst r. unfold handleExportData.
destruct (decide (activeDbName s = DEMO_DB_NAME)) as [Hdemo|Hdemo].
- rewrite (bool_decide_eq_true_2 _ Hdemo).
  destruct (isTempStorageMode s) eqn:Htemp; cbn [andb negb orb]; cbn;
    split_and!; try done;
    first [ by eexists | by intros [? ?] | by intros [?|[_ ?]] ].
- rewrite (bool_decide_eq_false_2 _ Hdemo). cbn [andb].
  destruct (isTempStorageMode s) eqn:Htemp; cbn [andb negb orb].
  { cbn. split_and!; try done; first [ by eexists | by intros [? ?] ]. }
  destruct (decide (dbError s = None)) as [Herr|Herr].
  + rewrite (bool_decide_eq_false_2 (dbError s ≠ None)) by (intros H; by apply H).
    pose proof (keeps_readSnapshot (activeDbName s) w) as Hkeep.
    pose proof (holds_readSnapshot (λ w', localStorage w' = localStorage w)
                  (activeDbName s) (storageBlind_localStorage _) w) as Hls.
    pose proof (readSnapshot_served (activeDbName s) w) as Hserved.
    destruct (readSnapshot (activeDbName s) w) as [[payload|e] w'] eqn:Hrun;
      specialize (Hkeep _ _ eq_refl); specialize (Hls _ _ eq_refl eq_refl);
      cbn; split_and!; try done;
      first [ by eexists | by intros [? ?] | by intros [?|[? _]]
            | intros _ _ _ Hs; destruct (Hserved Hs) as (w1 & Heq & _); by simplify_eq ].
  + rewrite (bool_decide_eq_true_2 (dbError s ≠ None)) by done.
    cbn. split_and!; try done; first [ by eexists | by intros [? ?] ].
Qed.

(** X26: the import is guarded. On the demonstration database a request to
    import is refused and no file is taken up. Without a file
    [executeImport] does nothing. With a file that does not parse to a
    document with all four collections nothing is read into memory and
    storage is not touched. Whenever the import reports a failure (a
    malformed file or a refused write) the data in memory are what they
    were, and the file is let go of in every case. *)
Theorem import_guarded (o : Oracle) (n0 : nat * nat) (content : ImportedJson) (file : File)
  (s : AppState) (w : World) :
let r := executeImport o n0 content s w in
(activeDbName s = DEMO_DB_NAME → isTempStorageMode s = false →
   importFile (handleImportRequest file s) = importFile s
   ∧ inMemory (handleImportRequest file s) = inMemory s
   ∧ notification_type <$> notification (handleImportRequest file s) = Some error)
∧ (activeDbName s ≠ DEMO_DB_NAME ∨ isTempStorageMode s = true →
     handleImportRequest file s = (s |> setImportFile (Some file)))
∧ (importFile s = None → r = (s, w))
∧ (importFile s ≠ None → malformed content →
     r.2 = w ∧ inMemory r.1 = inMemory s
     ∧ notification_type <$> notification r.1 = Some error)
∧ (importFile s ≠ None → notification_type <$> notification r.1 = Some error →
     inMemory r.1 = inMemory s)
∧ pendingActions r.1 = pendingActions s
∧ importFile r.1 = None.
Proof.
intros r. subst r. split_and!.
- intros Hdemo Htemp. unfold handleImportRequest.
  by rewrite (bool_decide_eq_true_2 _ Hdemo), Htemp.
- intros Hwhy. unfold handleImportRequest.
  destruct Hwhy as [Hdemo| ->].
  + by rewrite (bool_decide_eq_false_2 _ Hdemo).
  + cbn [negb]. by rewrite andb_false_r.
- intros Hnone. unfold executeImport. by rewrite Hnone.
- intros Hfile Hbad. unfold executeImport.
  destruct (importFile s); [|done].
  by destruct content as [|[[[iE|] [iT|] [iS|] [iX|]]|]].
- intros Hfile. unfold executeImport.
  destruct (importFile s); [|done].
  destruct content as [|[[[iE|] [iT|] [iS|] [iX|]]|]]; try done.
  destruct (regenerate _ _ _ _ _) as [[? ?] ?].
  destruct (_ || _); [done|].
  by destruct (io_all _ w) as [[?|?] ?].
- unfold executeImport.
  destruct (importFile s); [|done].
  destruct content as [|[[[iE|] [iT|] [iS|] [iX|]]|]]; try done.
  destruct (regenerate _ _ _ _ _) as [[? ?] ?].
  destruct (_ || _); [done|].
  by destruct (io_all _ w) as [[?|?] ?].
- unfold executeImport.
  destruct (importFile s) eqn:Hf; [|done].
  destruct content as [|[[[iE|] [iT|] [iS|] [iX|]]|]]; try done.
  destruct (regenerate _ _ _ _ _) as [[? ?] ?].
  destruct (_ || _); [done|].
  by destruct (io_all _ w) as [[?|?] ?].
Qed.

(** X27: giving up pending changes is explicit. In degraded mode with
    actions pending, [handleSwitchDb] to the demonstration database or to
    volatile mode does not switch: it records the target for confirmation
    and leaves memory, queue and storage as they are. Once confirmed,
    [executeDiscardAndSwitch] empties the queue, lifts the degraded flag and
    enters the target, without changing the contents of any database: for
    volatile mode memory is emptied and storage is not touched; for the
    demonstration database its data are adopted and its name is recorded
    as the active one. *)
Theorem discard_is_explicit (newDbName : string) (s : AppState) (w : World) :
dbError s ≠ None → pendingActions s ≠ [] → newDbName ≠ activeDbName s →
newDbName = DEMO_DB_NAME ∨ newDbName = TEMP_STORAGE_DB_NAME_EXPORT →
let r := handleSwitchDb newDbName s w in
let d := executeDiscardAndSwitch newDbName r.1 w in
r.2 = w ∧ confirmDiscardChanges r.1 = Some newDbName
∧ inMemory r.1 = inMemory s ∧ pendingActions r.1 = pendingActions s
∧ activeDbName r.1 = activeDbName s ∧ dbError r.1 = dbError s
∧ pendingActions d.1 = [] ∧ dbError d.1 = None ∧ confirmDiscardChanges d.1 = None
∧ databases d.2 = databases w
∧ (newDbName = TEMP_STORAGE_DB_NAME_EXPORT →
     activeDbName d.1 = TEMP_STORAGE_DB_NAME_EXPORT
     ∧ inMemory d.1 = Snapshot.mk [] [] [] [] ∧ d.2 = w)
∧ (newDbName ≠ TEMP_STORAGE_DB_NAME_EXPORT →
     activeDbName d.1 = DEMO_DB_NAME
     ∧ inMemory d.1 = Snapshot.mk (reviveEventDates <$> demoEvents) demoTags
                        demoStepTemplates demoStepSetTemplates
     ∧ localStorage d.2 = <["activeDbName" := DEMO_DB_NAME]> (localStorage w)).
Proof.
intros Herr Hq Hother Htarget r d.
assert (Hr : r = (s |> setConfirmDiscardChanges (Some newDbName)
                    |> setIsDbManagerOpen false, w)).
{ subst r. unfold handleSwitchDb.
  rewrite (bool_decide_eq_false_2 _ Hother).
  rewrite (bool_decide_eq_true_2 (dbError s ≠ None)) by done.
  rewrite (bool_decide_eq_true_2 (pendingActions s ≠ [])) by done.
  destruct Htarget as [Hd|Ht].
  - by rewrite (bool_decide_eq_true_2 _ Hd).
  - rewrite (bool_decide_eq_true_2 (newDbName = TEMP_STORAGE_DB_NAME_EXPORT)) by done.
    by rewrite orb_true_r. }
subst d. rewrite Hr. cbn [fst snd]. unfold executeDiscardAndSwitch.
destruct (decide (newDbName = TEMP_STORAGE_DB_NAME_EXPORT)) as [Ht|Ht].
- rewrite (bool_decide_eq_true_2 _ Ht). by split_and!.
- rewrite (bool_decide_eq_false_2 _ Ht).
  destruct Htarget as [Hd|?]; [|done].
  rewrite (bool_decide_eq_true_2 _ Hd). unfold loadData.
  rewrite (bool_decide_eq_true_2 (DEMO_DB_NAME = DEMO_DB_NAME)) by done.
  by split_and!.
Qed.

Ltac Qle_bool_cases :=
  repeat match goal with
         | H : Qle_bool _ _ = true |- _ => apply Qle_bool_iff in H
         | H : Qle_bool _ _ = false |- _ =>
             apply not_true_iff_false in H; rewrite Qle_bool_iff in H;
             apply Qnot_le_lt in H
         end.

(** X28: [gridConfig] gives between one and five columns, at most four
    below the desktop width and at most two below the tablet width; and the
    number of columns never drops when the density setting or the window
    width grows. *)
Theorem grid_columns_monotone (d1 d2 w1 w2 : Q) :
(1 ≤ gridConfig d1 w1 ≤ 5)%Z
∧ ((w1 < 1280)%Q → (gridConfig d1 w1 ≤ 4)%Z)
∧ ((w1 < 768)%Q → (gridConfig d1 w1 ≤ 2)%Z)
∧ ((d1 <= d2)%Q → (w1 <= w2)%Q → (gridConfig d1 w1 ≤ gridConfig d2 w2)%Z).
Proof.
unfold gridConfig. split_and!.
- repeat case_match; lia.
- repeat case_match; lia.
- intros Hw. repeat case_match; Qle_bool_cases; first [ lia | exfalso; lra ].
- intros Hw. repeat case_match; Qle_bool_cases; first [ lia | exfalso; lra ].
- intros Hd Hw. repeat case_match; Qle_bool_cases; first [ lia | exfalso; lra ].
Qed.

(** The ids of the events after one action of the fold. *)
Lemma applyAction_ids (evs : list Event.t) (tgs : list string) (a : PendingAction) :
Event.id <$> (applyAction (evs, tgs) a).1
= match a with
  | ADD_EVENT event _ =>
      if bool_decide (Event.id event ∈ Event.id <$> evs) then Event.id <$> evs
      else Event.id event :: (Event.id <$> evs)
  | DELETE_EVENT eventId => filter (λ i, i ≠ eventId) (Event.id <$> evs)
  | _ => Event.id <$> evs
  end.
Proof.
destruct a as [ev img|ev img|eid|eid sts|tag|names|old new|order]; simpl.
- destruct (existsb _ evs) eqn:Hex.
  + apply hasEventId_spec in Hex. by rewrite (bool_decide_eq_true_2 _ Hex).
  + rewrite bool_decide_eq_false_2; [done|].
    intros Hin%hasEventId_spec. by rewrite Hin in Hex.
- rewrite <- list_fmap_compose. apply list_fmap_ext. intros i e _. simpl.
  by destruct (decide _).
- induction evs as [|e evs IH]; [done|]. rewrite fmap_cons.
  destruct (decide (Event.id e = eid)) as [Heq|Hne].
  + rewrite filter_cons_False by (intros H; by apply H).
    rewrite filter_cons_False by (intros H; by apply H). done.
  + rewrite !filter_cons_True by done. by rewrite fmap_cons, IH.
- rewrite <- list_fmap_compose. apply list_fmap_ext. intros i e _. simpl.
  by destruct (decide _).
- by destruct (bool_decide _).
- rewrite <- list_fmap_compose. by apply list_fmap_ext.
- rewrite <- list_fmap_compose. by apply list_fmap_ext.
- done.
Qed.

Lemma addedIds_cons (a : PendingAction) (q : list PendingAction) :
addedIds (a :: q)
= match a with
  | ADD_EVENT event _ => Event.id event :: addedIds q
  | _ => addedIds q
  end.
Proof. by destruct a. Qed.

Lemma deletedIds_cons (a : PendingAction) (q : list PendingAction) :
deletedIds (a :: q)
= match a with
  | DELETE_EVENT eventId => eventId :: deletedIds q
  | _ => deletedIds q
  end.
Proof. by destruct a. Qed.

Lemma fold_ids (actions : list PendingAction) :
∀ (evs : list Event.t) (tgs : list string),
  let ids := Event.id <$> evs in
  let ids' := Event.id <$> (applyPendingActions evs tgs actions).1 in
  (∀ x, x ∈ ids' → x ∈ ids ∨ x ∈ addedIds actions)
  ∧ (∀ x, x ∈ ids ∨ x ∈ addedIds actions → x ∉ deletedIds actions → x ∈ ids')
  ∧ (addedIds actions = [] → deletedIds actions = [] → ids' = ids)
  ∧ (length ids' ≤ length ids + length (addedIds actions))%nat.
Proof.
induction actions as [|a q IH]; intros evs tgs; cbv zeta.
- rewrite applyPendingActions_nil. cbn [fst addedIds deletedIds omap].
  split_and!; [by left | | done | lia].
  by intros x [?|?%elem_of_nil] _.
- rewrite applyPendingActions_cons.
  destruct (IH (applyAction (evs, tgs) a).1 (applyAction (evs, tgs) a).2)
    as (Hfrom & Hstay & Hsame & Hlen).
  cbv zeta in Hfrom, Hstay, Hsame, Hlen.
  set (ids' := Event.id <$> (applyPendingActions _ _ q).1) in *.
  rewrite applyAction_ids in Hfrom, Hstay, Hsame, Hlen.
  rewrite addedIds_cons, deletedIds_cons.
  destruct a as [ev img|ev img|eid|eid sts|tag|names|old new|order];
    cbn beta iota in *.
  2,4,5,6,7,8: by split_and!.
  + (* an event is added *)
    split_and!.
    * intros x Hx. destruct (Hfrom x Hx) as [Hin|Hin]; [|by right; right].
      destruct (bool_decide _); [by left|].
      apply elem_of_cons in Hin as [->|Hin]; [right; left | by left].
    * intros x Hx Hdel. apply Hstay; [|done].
      destruct (decide (Event.id ev ∈ Event.id <$> evs)) as [Hhas|Hnew].
      -- rewrite (bool_decide_eq_true_2 _ Hhas).
         destruct Hx as [Hx|[->|Hx]%elem_of_cons]; [by left | by left | by right].
      -- rewrite (bool_decide_eq_false_2 _ Hnew).
         destruct Hx as [Hx|[->|Hx]%elem_of_cons];
           [left; by right | left; by left | by right].
    * done.
    * cbn [length]. destruct (bool_decide _); cbn [length] in Hlen; lia.
  + (* an event is deleted *)
    split_and!.
    * intros x Hx. destruct (Hfrom x Hx) as [Hin|Hin]; [|by right].
      apply list_elem_of_filter in Hin as [_ Hin]. by left.
    * intros x Hx [Hne Hdel]%not_elem_of_cons. apply Hstay; [|done].
      destruct Hx as [Hx|Hx]; [|by right]. left. by apply list_elem_of_filter.
    * done.
    * pose proof (length_filter (λ i, i ≠ eid) (Event.id <$> evs)). lia.
Qed.

(** X29: the fold of a queue over a base never invents an event and never
    loses one of its own accord. Every event it yields bears the id of a
    base event or of an event the queue adds; every base event and every
    added event the queue does not delete is there (under its id); the
    number of events grows by at most the number of additions; and a queue
    that neither adds nor deletes events keeps the ids of the base, in
    order. *)
Theorem fold_event_provenance (baseEvents : list Event.t) (baseTags : list string)
  (actions : list PendingAction) :
let r := applyPendingActions baseEvents baseTags actions in
(∀ e, e ∈ r.1 → Event.id e ∈ Event.id <$> baseEvents ∨ Event.id e ∈ addedIds actions)
∧ (∀ x, x ∈ Event.id <$> baseEvents ∨ x ∈ addedIds actions →
        x ∉ deletedIds actions → ∃ e, e ∈ r.1 ∧ Event.id e = x)
∧ (length r.1 ≤ length baseEvents + length (addedIds actions))%nat
∧ (addedIds actions = [] → deletedIds actions = [] →
     Event.id <$> r.1 = Event.id <$> baseEvents).
Proof.
intros r. destruct (fold_ids actions baseEvents baseTags) as (Hfrom & Hstay & Hsame & Hlen).
cbv zeta in Hfrom, Hstay, Hsame, Hlen. fold r in Hfrom, Hstay, Hsame, Hlen.
split_and!.
- intros e He. apply Hfrom. by apply list_elem_of_fmap_2.
- intros x Hx Hdel. destruct (proj1 (list_elem_of_fmap _ _ _) (Hstay x Hx Hdel))
    as (e & -> & He). by exists e.
- by rewrite !length_fmap in Hlen.
- done.
Qed.

(** X30: [handleDeleteTags] strips the tags from the tag list, from every
    event and from the tag filter, as the fold does for a queued
    [DELETE_TAGS]: no deleted tag is left in any of them, every other tag
    stays where it was, the events keep their ids and the status filter its
    value, and a tag filter that names only existing tags still does. While
    the component queues its mutations one [DELETE_TAGS] is appended to the
    queue and the memory stays what the queue makes of its base; otherwise
    the queue is not touched. *)
Theorem delete_tags_handler (tagsToDelete : list string) (baseEvents : list Event.t)
  (baseTags : list string) (s : AppState) :
let s' := handleDeleteTags tagsToDelete s in
(events s', customTags s') = applyAction (events s, customTags s) (DELETE_TAGS tagsToDelete)
∧ (∀ t, t ∈ tagsToDelete →
        (t ∉ customTags s') ∧ (t ∉ filter_tags (activeFilters s'))
        ∧ ∀ e ts, e ∈ events s' → Event.tags e = Some ts → t ∉ ts)
∧ (∀ t, t ∉ tagsToDelete →
        (t ∈ customTags s' ↔ t ∈ customTags s)
        ∧ (t ∈ filter_tags (activeFilters s') ↔ t ∈ filter_tags (activeFilters s)))
∧ Event.id <$> events s' = Event.id <$> events s
∧ filter_status (activeFilters s') = filter_status (activeFilters s)
∧ ((∀ t, t ∈ filter_tags (activeFilters s) → t ∈ customTags s) →
     ∀ t, t ∈ filter_tags (activeFilters s') → t ∈ customTags s')
∧ (mustQueue s = true →
     pendingActions s' = pendingActions s ++ [DELETE_TAGS tagsToDelete]
     ∧ (tracks baseEvents baseTags s → tracks baseEvents baseTags s'))
∧ (mustQueue s = false → pendingActions s' = pendingActions s).
Proof.
intros s'.
assert (Hrun : events s' = (λ e, Event.with_tags (stripTags tagsToDelete <$> Event.tags e) e)
                           <$> events s
               ∧ customTags s' = stripTags tagsToDelete (customTags s)
               ∧ activeFilters s'
                 = mkActiveFilters (filter_status (activeFilters s))
                     (stripTags tagsToDelete (filter_tags (activeFilters s)))
               ∧ pendingActions s'
                 = if mustQueue s then pendingActions s ++ [DELETE_TAGS tagsToDelete]
                   else pendingActions s).
{ subst s'. unfold handleDeleteTags. by destruct (mustQueue s). }
destruct Hrun as (Hev & Htg & Hfl & Hq).
assert (Hmem : (events s', customTags s')
               = applyAction (events s, customTags s) (DELETE_TAGS tagsToDelete)).
{ by rewrite Hev, Htg. }
split_and!.
- done.
- intros t Ht. split_and!.
  + rewrite Htg, elem_of_stripTags. by intros [_ ?].
  + rewrite Hfl. cbn. rewrite elem_of_stripTags. by intros [_ ?].
  + intros e ts He Hts. rewrite Hev in He.
    apply list_elem_of_fmap in He as (e0 & -> & _). cbn in Hts.
    destruct (Event.tags e0) as [ts0|]; [|done]. cbn in Hts.
    injection Hts as <-. rewrite elem_of_stripTags. by intros [_ ?].
- intros t Ht. rewrite Htg, Hfl. cbn. rewrite !elem_of_stripTags. split; prop_tauto.
- rewrite Hev, <- list_fmap_compose. by apply list_fmap_ext.
- by rewrite Hfl.
- intros Hsub t. rewrite Hfl, Htg. cbn. rewrite !elem_of_stripTags.
  intros [Hin Hout]. split; [by apply Hsub | done].
- intros Hmode. rewrite Hq, Hmode. split; [done|].
  apply (tracks_snoc baseEvents baseTags s s' (DELETE_TAGS tagsToDelete));
    [by rewrite Hq, Hmode | done].
- intros Hmode. by rewrite Hq, Hmode.
Qed.

End App.

(** ** Worked instances *)

Lemma sampleWorld_serves (dbName : string) : serves (sampleWorld (λ _, false)) dbName.
Proof. split; [reflexivity | intros store; split; reflexivity]. Qed.

Lemma sampleWorld_work (rejected : Request → bool) :
theDb (sampleWorld rejected) sampleWorkName = sampleWorkDb.
Proof. unfold theDb, sampleWorld. simpl. by rewrite lookup_singleton_eq. Qed.



(** Scenario B, first half: the engine rejects the write of the events
    store during a flush. The queue keeps its one action and the component
    is degraded. *)
Lemma sync_failure_keeps_queue_witness :
pendingActions (performSync sampleDemoName sampleQueued (sampleWorld rejectEventWrites)).1
= [ADD_EVENT sampleTrip None]
∧ dbError (performSync sampleDemoName sampleQueued (sampleWorld rejectEventWrites)).1
  = Some (StorageError (WriteStore sampleWorkName STORE_events)).
Proof.
assert (Hfail :
  performSync_write sampleDemoName sampleQueued
    (applyPendingActions (events sampleQueued) (customTags sampleQueued)
       (pendingActions sampleQueued)).1
    (applyPendingActions (events sampleQueued) (customTags sampleQueued)
       (pendingActions sampleQueued)).2 (sampleWorld rejectEventWrites)
  = (Err (StorageError (WriteStore sampleWorkName STORE_events)),
     (performSync_write sampleDemoName sampleQueued
        (applyPendingActions (events sampleQueued) (customTags sampleQueued)
           (pendingActions sampleQueued)).1
        (applyPendingActions (events sampleQueued) (customTags sampleQueued)
           (pendingActions sampleQueued)).2 (sampleWorld rejectEventWrites)).2)).
{ rewrite (surjective_pairing (performSync_write _ _ _ _ _)) at 1.
  apply pair_equal_spec. split; [by vm_compute | reflexivity]. }
destruct (sync_failure_keeps_queue sampleDemoName sampleTempName sampleQueued
            (sampleWorld rejectEventWrites) _ _ Hfail) as (Hq & He & _).
split; [exact Hq | exact He].
Defined.

(** Scenario B, second half: the engine serves the flush. The queue is
    empty and the events are the fold of the baseline with the queue. *)
Lemma sync_success_adopts_witness :
events (performSync sampleDemoName sampleQueued (sampleWorld (λ _, false))).1
= [sampleTrip; sampleReport]
∧ pendingActions (performSync sampleDemoName sampleQueued (sampleWorld (λ _, false))).1 = []
∧ dbError (performSync sampleDemoName sampleQueued (sampleWorld (λ _, false))).1 = None.
Proof.
assert (Hok :
  performSync_write sampleDemoName sampleQueued
    (applyPendingActions (events sampleQueued) (customTags sampleQueued)
       (pendingActions sampleQueued)).1
    (applyPendingActions (events sampleQueued) (customTags sampleQueued)
       (pendingActions sampleQueued)).2 (sampleWorld (λ _, false))
  = (Ok tt,
     (performSync_write sampleDemoName sampleQueued
        (applyPendingActions (events sampleQueued) (customTags sampleQueued)
           (pendingActions sampleQueued)).1
        (applyPendingActions (events sampleQueued) (customTags sampleQueued)
           (pendingActions sampleQueued)).2 (sampleWorld (λ _, false))).2)).
{ rewrite (surjective_pairing (performSync_write _ _ _ _ _)) at 1.
  apply pair_equal_spec. split; [by vm_compute | reflexivity]. }
destruct (sync_success_adopts sampleDemoName sampleQueued (sampleWorld (λ _, false)) _ Hok)
  as (Hsnapshot & Hq & He & _).
split_and!; [|exact Hq | exact He].
apply (f_equal fst) in Hsnapshot. cbn [fst] in Hsnapshot. rewrite Hsnapshot. by vm_compute.
Defined.

(** An update of an event that already has an update queued, while
    degraded: the queue then holds exactly one update of that event, the
    new one. *)
Lemma update_event_replaces_queued_witness :
filter (λ a, isUpdateEventOf "event-1" a)
  (pendingActions (handleUpdateEvent sampleTempName sampleReportEdited None sampleEditing
                     (sampleWorld (λ _, false))).1)
= [UPDATE_EVENT sampleReportEdited None]
∧ pendingActions (handleUpdateEvent sampleTempName sampleReportEdited None sampleEditing
                    (sampleWorld (λ _, false))).1
  = [ADD_TAG "Urgent"; UPDATE_EVENT sampleReportEdited None].
Proof.
destruct (update_event_replaces_queued sampleTempName sampleReportEdited None sampleEditing
            (sampleWorld (λ _, false)) eq_refl) as (_ & Hone & _ & _).
split; [exact Hone | by vm_compute].
Defined.


Lemma insertionSort_sortsPairs :
sortsPairsBy (λ first _, match first with Gt => true | _ => false end) insertionSort.
Proof.
intros cmp x y. unfold insertionSort. simpl. by destruct (cmp x y ?= 0)%Q.
Qed.

(** Two events, the later one with no step done and the earlier one
    finished: listed finished-first, a stable insertion sort leaves them so
    under the ascending progress order. *)
Lemma progress_asc_misorders_witness :
∃ l, (l = [sampleReport; sampleArchive] ∨ l = [sampleArchive; sampleReport])
     ∧ insertionSort (compareEvents (λ _ _, 0) progress_asc) l
       = [sampleArchive; sampleReport].
Proof.
destruct (progress_asc_misorders (λ x, x) (λ x, x) (λ _ _, 0) insertionSort _
            sampleReport sampleArchive insertionSort_sortsPairs
            eq_refl eq_refl eq_refl) as (_ & _ & _ & _ & _ & l & Hl & Hsorted & _).
by exists l.
Defined.

Lemma countingOracle_inj (i j : nat) : stamp countingOracle i = stamp countingOracle j → i = j.
Proof.
simpl. intros Heq. apply (String.app_inj "1700000000000-") in Heq.
by apply (inj pretty) in Heq.
Qed.

(** The round trip of the specification: an exported document with two
    events, imported in volatile mode into an empty snapshot with stamps
    that never repeat, gives two events with distinct generated ids. *)
Lemma import_regenerates_and_merges_witness :
Event.id <$> events (executeImport sampleTempName (λ _, "") countingOracle (0%nat, 0%nat)
                       (jsonOfExport sampleDoc) sampleVolatile firstLaunchWorld).1
= ["event-1700000000000-0"; "event-1700000000000-3"]
∧ NoDup (Event.id <$> events
           (executeImport sampleTempName (λ _, "") countingOracle (0%nat, 0%nat)
              (jsonOfExport sampleDoc) sampleVolatile firstLaunchWorld).1).
Proof.
pose proof (import_regenerates_and_merges sampleTempName (λ _, "") countingOracle
              (0%nat, 0%nat) sampleDoc sampleVolatile firstLaunchWorld
              ltac:(done) (or_introl eq_refl)) as H.
cbv zeta in H.
destruct H as (_ & _ & _ & Hevents & _ & _ & _ & _ & _ & _ & _ & _ & Hdistinct).
split; [by vm_compute|].
rewrite Hevents. simpl app. apply (Hdistinct countingOracle_inj).
Defined.

(** C7 as stated fails when the environment repeats itself: with the same
    clock reading and the same random text at every call, the two events of
    an imported document get the same id; written to an empty database,
    the second replaces the first and one event is left of two. *)
Lemma import_ids_collide :
Event.id <$> events (executeImport sampleTempName (λ _, "") repeatingOracle (0%nat, 0%nat)
                       (jsonOfExport sampleDoc) sampleVolatile firstLaunchWorld).1
= ["event-1700000000000-i"; "event-1700000000000-i"]
∧ length (Snapshot.events (doc_data sampleDoc)) = 2%nat
∧ db_events (theDb (sampleWorld (λ _, false)) sampleHomeName) = ∅
∧ length (getAll (db_events
                    (theDb (executeImport sampleTempName (λ _, "") repeatingOracle
                              (0%nat, 0%nat) (jsonOfExport sampleDoc) sampleImporting
                              (sampleWorld (λ _, false))).2 sampleHomeName))) = 1%nat.
Proof. split_and!; by vm_compute. Qed.

(** C8 as stated fails on a first launch: in a profile that never ran the
    application nothing is stored and no database is discovered, so the
    precedence dictates volatile mode, yet the default database is chosen. *)
Lemma startup_first_launch_differs :
∃ w, localStorage w = ∅ ∧ discoverDatabases w = []
     ∧ ∀ defaultName tempName : string,
         (initializeApp_activeDb defaultName tempName w).1.1 = defaultName
         ∧ startupPrecedence defaultName tempName
             (localStorage w !! "activeDbName") (discoverDatabases w) = tempName.
Proof.
exists firstLaunchWorld. split_and!; [reflexivity | by vm_compute |].
intros defaultName tempName. split; reflexivity.
Qed.

(** C3 as stated fails once memory has moved on from the persisted
    baseline. With one action left from loading in the queue, an event is
    deleted in healthy mode: memory changes at once, nothing is queued and
    nothing is written to the events store. The flush then succeeds. The database
    still held the deleted event, so the fold of the persisted baseline with
    the queue has two events; the snapshot adopted, and written, has one. *)
Lemma sync_adopts_memory_not_baseline :
let w := sampleWorld (λ _, false) in
let r := handleDeleteEvent sampleTempName "event-1" sampleQueued w in
let f := performSync sampleDemoName r.1 r.2 in
mustQueue sampleTempName sampleQueued = false
∧ events sampleQueued = getAll (db_events (theDb w sampleWorkName))
∧ pendingActions r.1 = [ADD_EVENT sampleTrip None]
∧ storedSnapshot (theDb r.2 sampleWorkName)
  = Snapshot.mk [sampleReport] ["Work"] [sampleTemplate] [sampleSet]
∧ (applyPendingActions (Snapshot.events (storedSnapshot (theDb r.2 sampleWorkName)))
     (Snapshot.tags (storedSnapshot (theDb r.2 sampleWorkName))) (pendingActions r.1)).1
  = [sampleTrip; sampleReport]
∧ pendingActions f.1 = [] ∧ dbError f.1 = None
∧ status_type <$> dbStatus f.1 = Some success
∧ events f.1 = [sampleTrip]
∧ getAll (db_events (theDb f.2 sampleWorkName)) = [sampleTrip].
Proof. cbv zeta. split_and!; by vm_compute. Qed.

(** The steps of [sampleReport], emptied while degraded, are set again: the
    queued update gives way to the new one. *)
Lemma update_steps_queue_sound_witness :
pendingActions (handleUpdateEventSteps sampleTempName "event-1" [sampleDraftStep]
                  sampleStepsQueued)
= [ADD_TAG "Urgent"; UPDATE_EVENT_STEPS "event-1" [sampleDraftStep]]
∧ tracks [sampleReport] ["Work"]
    (handleUpdateEventSteps sampleTempName "event-1" [sampleDraftStep] sampleStepsQueued).
Proof.
pose proof (update_steps_queue_sound sampleTempName "event-1" [sampleDraftStep]
              [sampleReport] ["Work"] sampleStepsQueued eq_refl) as H.
cbv zeta in H. destruct H as (Hqueue & _ & _ & Htracks).
split; [by rewrite Hqueue | apply Htracks; reflexivity].
Defined.

(** [sampleReport] is edited again while degraded, with a tag that is new. *)
Lemma update_event_queue_sound_witness :
pendingActions (handleUpdateEvent sampleTempName
                  (Event.with_tags (Some ["Work"; "Q3"]) sampleReportEdited) None
                  sampleEditingTracked firstLaunchWorld).1
= [ ADD_TAG "Urgent"; ADD_TAG "Q3";
    UPDATE_EVENT (Event.with_tags (Some ["Work"; "Q3"]) sampleReportEdited) None ]
∧ tracks [sampleReport] ["Work"]
    (handleUpdateEvent sampleTempName
       (Event.with_tags (Some ["Work"; "Q3"]) sampleReportEdited) None
       sampleEditingTracked firstLaunchWorld).1.
Proof.
assert (Hnd : NoDup ["Work"; "Q3"]) by (apply (bool_decide_unpack _); by vm_compute).
pose proof (update_event_queue_sound sampleTempName
              (Event.with_tags (Some ["Work"; "Q3"]) sampleReportEdited) None
              [sampleReport] ["Work"] sampleEditingTracked firstLaunchWorld eq_refl) as H.
cbv zeta in H. destruct H as (_ & Htracks & _ & _).
split; [by vm_compute | exact (Htracks Hnd eq_refl)].
Defined.

(** The event added while degraded is selected and deleted: the actions on
    it leave the queue. *)
Lemma delete_selection_queue_sound_witness :
pendingActions (executeDeleteSelection sampleTempName sampleSelecting
                  (initialUi |> setSelectedEventIds ["event-2"]) firstLaunchWorld).1.1
= [ADD_TAG "Urgent"; DELETE_EVENT "event-2"]
∧ events (executeDeleteSelection sampleTempName sampleSelecting
            (initialUi |> setSelectedEventIds ["event-2"]) firstLaunchWorld).1.1
  = [sampleReport]
∧ tracks [sampleReport] ["Work"]
    (executeDeleteSelection sampleTempName sampleSelecting
       (initialUi |> setSelectedEventIds ["event-2"]) firstLaunchWorld).1.1.
Proof.
pose proof (delete_selection_queue_sound sampleTempName [sampleReport] ["Work"]
              sampleSelecting (initialUi |> setSelectedEventIds ["event-2"])
              firstLaunchWorld eq_refl) as H.
cbv zeta in H. destruct H as (Hqueue & _ & Htracks & Hev & _ & _).
split_and!; [by rewrite Hqueue | by rewrite Hev | apply Htracks; reflexivity].
Defined.

Lemma insertSorted_perm (cmp : Event.t → Event.t → Q) (x : Event.t) (l : list Event.t) :
insertSorted cmp x l ≡ₚ x :: l.
Proof.
induction l as [|y l IH]; [done|]. simpl.
destruct (cmp x y ?= 0)%Q; [done | done |].
rewrite IH. apply Permutation_swap.
Qed.

Lemma insertionSort_perm (cmp : Event.t → Event.t → Q) (l : list Event.t) :
insertionSort cmp l ≡ₚ l.
Proof.
induction l as [|x l IH]; [done|].
unfold insertionSort in *. simpl. by rewrite insertSorted_perm, IH.
Qed.

(** Of a finished and an unfinished event, the list filtered to the
    completed ones shows the finished one only. *)
Lemma filtered_events_exact_witness :
sampleArchive ∈ filteredEvents (λ x, x) (λ x, x) (λ _ _, 0) insertionSort
                  sampleCompletedOnly
∧ sampleReport ∉ filteredEvents (λ x, x) (λ x, x) (λ _ _, 0) insertionSort
                   sampleCompletedOnly.
Proof.
pose proof (filtered_events_exact (λ x, x) (λ x, x) (λ _ _, 0) insertionSort
              sampleCompletedOnly insertionSort_perm) as (Hiff & _).
split.
- apply Hiff. split_and!.
  + apply (bool_decide_unpack _). by vm_compute.
  + by intros Hq.
  + reflexivity.
  + by intros tag Hin%elem_of_nil.
- intros (_ & _ & Hstatus & _)%Hiff. discriminate Hstatus.
Defined.

Lemma eventsStore_lawful : lawful eventsStore.
Proof. by intros v db. Qed.

(** Two events saved over the work database are read back, in some order. *)
Lemma store_save_then_read_witness :
∃ w1 w2 l,
  saveDataInStore sampleWorkName eventsStore [sampleTrip; sampleReport]
    (sampleWorld (λ _, false)) = (Ok tt, w1)
  ∧ getAllDataFromStore sampleWorkName eventsStore w1 = (Ok l, w2)
  ∧ l ≡ₚ [sampleTrip; sampleReport].
Proof.
destruct (store_save_then_read eventsStore sampleWorkName [sampleTrip; sampleReport]
            (sampleWorld (λ _, false)) eventsStore_lawful
            (sampleWorld_serves sampleWorkName))
  as (w1 & w2 & Hsave & _ & _ & Hread & _ & _ & Hperm).
exists w1, w2, (getAll (putAll [sampleTrip; sampleReport] ∅)).
split_and!; [done | done |]. apply Hperm.
apply (bool_decide_unpack _). by vm_compute.
Defined.

(** An event inserted into the work database joins the one it holds. *)
Lemma store_insert_merges_witness :
∃ w1,
  insertDataInStore sampleWorkName eventsStore [sampleTrip] (sampleWorld (λ _, false))
  = (Ok tt, w1)
  ∧ db_events (theDb w1 sampleWorkName) !! "event-1" = Some sampleReport
  ∧ db_events (theDb w1 sampleWorkName) !! "event-2" = Some sampleTrip.
Proof.
destruct (store_insert_merges eventsStore sampleWorkName [sampleTrip]
            (sampleWorld (λ _, false)) eventsStore_lawful) as [_ Hserved].
destruct (Hserved (sampleWorld_serves sampleWorkName))
  as (w1 & Hrun & _ & Hkept & Hnew & _).
exists w1. split_and!; [done | |].
- change (db_events (theDb w1 sampleWorkName)) with (sr_get eventsStore (theDb w1 sampleWorkName)).
  rewrite Hkept.
  + rewrite sampleWorld_work. by vm_compute.
  + apply (bool_decide_unpack _). by vm_compute.
- apply (Hnew ltac:(apply (bool_decide_unpack _); by vm_compute) sampleTrip).
  by left.
Defined.

(** A tag list saved in the work database is read back in its order. *)
Lemma tags_round_trip_witness :
∃ w1 w2,
  saveTagsInStore sampleWorkName ["Work"; "Job"] (sampleWorld (λ _, false)) = (Ok tt, w1)
  ∧ getTagsFromStore sampleWorkName w1 = (Ok ["Work"; "Job"], w2).
Proof.
destruct (tags_round_trip sampleWorkName ["Work"; "Job"] (sampleWorld (λ _, false))
            (sampleWorld_serves sampleWorkName))
  as [(w1 & w2 & Hsave & Hread & _) _].
by exists w1, w2.
Defined.

Lemma firstLaunchWorld_serves (dbName : string) : serves firstLaunchWorld dbName.
Proof. split; [reflexivity | intros store; split; reflexivity]. Qed.

(** The first load of the default database gives the tutorial event, and so
    does the second. *)
Lemma load_seeds_once_witness :
∃ w1 w2,
  loadData sampleDefaultName sampleDemoName sampleTutorial [] [] [] sampleDefaultName
    firstLaunchWorld
  = (Ok (Snapshot.mk [sampleTutorial] ["教程"] [] []), w1)
  ∧ loadData sampleDefaultName sampleDemoName sampleTutorial [] [] [] sampleDefaultName w1
    = (Ok (Snapshot.mk [sampleTutorial] ["教程"] [] []), w2).
Proof.
destruct (load_seeds_once sampleDefaultName sampleDemoName sampleTutorial [] [] []
            sampleDefaultName firstLaunchWorld ltac:(done)
            (firstLaunchWorld_serves sampleDefaultName))
  as (snapshot & w1 & w2 & Hload & _ & _ & Hfresh & _ & Hload2 & _).
destruct Hfresh as [Hseed _]; [intros Hseeded; by vm_compute in Hseeded|].
exists w1, w2. rewrite Hload, Hload2, Hseed. by vm_compute.
Defined.

(** Two events saved automatically to the work database are loaded back,
    and the settings database holds the density setting. *)
Lemma autosave_then_load_witness :
(∃ snapshot w2,
   loadData sampleDefaultName sampleDemoName sampleTutorial [] [] [] sampleWorkName
     (saveData sampleDemoName sampleTempName initialSettings sampleHealthy
        (sampleWorld (λ _, false)))
   = (Ok snapshot, w2)
   ∧ Snapshot.events snapshot ≡ₚ [sampleTrip; sampleReport]
   ∧ Snapshot.tags snapshot = ["Work"])
∧ db_metadata
    (theDb (saveData sampleDemoName sampleTempName initialSettings sampleHealthy
              (sampleWorld (λ _, false))) SETTINGS_DB_NAME) !! "cardDensity"
  = Some (MetaNumber 75).
Proof.
destruct (autosave_then_load sampleDefaultName sampleDemoName sampleTempName
            sampleTutorial [] [] [] initialSettings sampleHealthy (sampleWorld (λ _, false))
            eq_refl ltac:(done) eq_refl ltac:(done) ltac:(done)
            (sampleWorld_serves sampleWorkName))
  as (_ & _ & _ & Hsettings & _ & snapshot & w2 & Hload & Htags & _ & Hevents & _).
{ unfold seeded. rewrite sampleWorld_work. by vm_compute. }
split.
- exists snapshot, w2. split_and!; [done | | done].
  apply Hevents. apply (bool_decide_unpack _). by vm_compute.
- rewrite (Hsettings (sampleWorld_serves SETTINGS_DB_NAME)). by vm_compute.
Defined.

(** A switch to a database the engine refuses to open: the pending action
    and the active database stay. *)
Lemma switch_failure_keeps_changes_witness :
pendingActions (handleSwitchDb sampleDefaultName sampleDemoName sampleTempName
                  sampleTutorial [] [] [] sampleHomeName sampleQueued
                  (sampleWorld rejectOpenHome)).1
= [ADD_EVENT sampleTrip None]
∧ activeDbName (handleSwitchDb sampleDefaultName sampleDemoName sampleTempName
                  sampleTutorial [] [] [] sampleHomeName sampleQueued
                  (sampleWorld rejectOpenHome)).1
  = sampleWorkName
∧ dbError (handleSwitchDb sampleDefaultName sampleDemoName sampleTempName
             sampleTutorial [] [] [] sampleHomeName sampleQueued
             (sampleWorld rejectOpenHome)).1
  = Some (StorageError (OpenDb sampleHomeName)).
Proof.
assert (Hfail : handleSwitchDb_load sampleDefaultName sampleDemoName sampleTempName
                  sampleTutorial [] [] [] sampleHomeName sampleQueued
                  (sampleWorld rejectOpenHome)
                = (Err (StorageError (OpenDb sampleHomeName)), sampleWorld rejectOpenHome))
  by (by vm_compute).
pose proof (switch_failure_keeps_changes sampleDefaultName sampleDemoName sampleTempName
              sampleTutorial [] [] [] sampleHomeName sampleQueued
              (sampleWorld rejectOpenHome) (sampleWorld rejectOpenHome)
              (StorageError (OpenDb sampleHomeName))
              ltac:(done) ltac:(done) ltac:(done) Hfail) as H.
cbv zeta in H. destruct H as (_ & Hqueue & _ & _ & _ & _ & Hactive & Herror & _).
by rewrite Hqueue, Hactive, Herror.
Defined.

(** A switch, with no error recorded, to a database that does not exist
    yet: it is created empty and adopted, and the pending action is dropped. *)
Lemma switch_plain_adopts_witness :
events (handleSwitchDb sampleDefaultName sampleDemoName sampleTempName
          sampleTutorial [] [] [] sampleHomeName sampleQueued
          (sampleWorld (λ _, false))).1 = []
∧ pendingActions (handleSwitchDb sampleDefaultName sampleDemoName sampleTempName
                    sampleTutorial [] [] [] sampleHomeName sampleQueued
                    (sampleWorld (λ _, false))).1 = []
∧ activeDbName (handleSwitchDb sampleDefaultName sampleDemoName sampleTempName
                  sampleTutorial [] [] [] sampleHomeName sampleQueued
                  (sampleWorld (λ _, false))).1 = sampleHomeName
∧ theDb (handleSwitchDb sampleDefaultName sampleDemoName sampleTempName
           sampleTutorial [] [] [] sampleHomeName sampleQueued
           (sampleWorld (λ _, false))).2 sampleWorkName = sampleWorkDb.
Proof.
pose proof (switch_plain_adopts sampleDefaultName sampleDemoName sampleTempName
              sampleTutorial [] [] [] sampleHomeName sampleQueued
              (sampleWorld (λ _, false)) (or_introl eq_refl)
              ltac:(done) ltac:(done) ltac:(done) (sampleWorld_serves sampleHomeName)) as H.
cbv zeta in H.
destruct H as (Hev & _ & _ & _ & Hactive & Hqueue & _ & _ & _ & _ & _ & Hothers & _).
split_and!; [| done | done |].
- rewrite Hev. by vm_compute.
- rewrite Hothers by done. apply sampleWorld_work.
Defined.

(** The first launch in a fresh profile, then a reload: the default
    database is selected both times, with the tutorial event. *)
Lemma relaunch_finds_default_witness :
events (initializeApp sampleDefaultName sampleDemoName sampleTempName sampleTutorial
          [] [] [] initialState firstLaunchWorld).1 = [sampleTutorial]
∧ activeDbName
    (initializeApp sampleDefaultName sampleDemoName sampleTempName sampleTutorial
       [] [] [] initialState
       (reload (initializeApp sampleDefaultName sampleDemoName sampleTempName
                  sampleTutorial [] [] [] initialState firstLaunchWorld).2)).1
  = sampleDefaultName
∧ events
    (initializeApp sampleDefaultName sampleDemoName sampleTempName sampleTutorial
       [] [] [] initialState
       (reload (initializeApp sampleDefaultName sampleDemoName sampleTempName
                  sampleTutorial [] [] [] initialState firstLaunchWorld).2)).1
  = [sampleTutorial].
Proof.
assert (Hfresh : ¬ seeded (theDb firstLaunchWorld sampleDefaultName)).
{ intros Hseeded. by vm_compute in Hseeded. }
pose proof (relaunch_finds_default sampleDefaultName sampleDemoName sampleTempName
              sampleTutorial [] [] [] firstLaunchWorld eq_refl eq_refl eq_refl
              (firstLaunchWorld_serves sampleDefaultName) Hfresh eq_refl
              ltac:(done) ltac:(done) ltac:(done)) as H.
cbv zeta in H. destruct H as (_ & He1 & _ & _ & Ha2 & He2 & _).
by split_and!.
Defined.

(** The only database there is, the active one, is deleted: the component
    is left in volatile mode with an error recorded, and the database is gone. *)
Lemma delete_db_cases_witness :
activeDbName (handleDeleteDb sampleDefaultName sampleDemoName sampleTempName sampleTutorial
                [] [] [] false sampleLastDb sampleDeleting (sampleWorld (λ _, false))).1.1
= sampleTempName
∧ dbError (handleDeleteDb sampleDefaultName sampleDemoName sampleTempName sampleTutorial
             [] [] [] false sampleLastDb sampleDeleting (sampleWorld (λ _, false))).1.1
  = Some LastDatabaseDeleted
∧ databases (handleDeleteDb sampleDefaultName sampleDemoName sampleTempName sampleTutorial
               [] [] [] false sampleLastDb sampleDeleting (sampleWorld (λ _, false))).2
  !! sampleWorkName = None.
Proof.
pose proof (delete_db_cases sampleDefaultName sampleDemoName sampleTempName sampleTutorial
              [] [] [] false sampleWorkName sampleLastDb sampleDeleting
              (sampleWorld (λ _, false)) eq_refl ltac:(done)) as H.
cbv zeta in H. destruct H as (_ & _ & Hgone & _ & _ & Hlast & _).
destruct (Hgone eq_refl) as (Hnone & _).
destruct Hlast as (Hactive & _ & _ & _ & Herror & _); [done | |].
- intros n Hn. apply list_elem_of_singleton in Hn. exact Hn.
- by split_and!.
Defined.

(** In volatile mode a deletion and an import leave the world as it is. *)
Lemma queueing_never_writes_witness :
(handleDeleteEvent sampleTempName "evt-trip" sampleVolatile (sampleWorld (λ _, false))).2
= sampleWorld (λ _, false)
∧ (executeImport sampleTempName (λ _, "engine") countingOracle (0%nat, 0%nat)
     (jsonOfExport sampleDoc) sampleVolatile (sampleWorld (λ _, false))).2
  = sampleWorld (λ _, false).
Proof.
pose proof (queueing_never_writes sampleDemoName sampleTempName (λ _, "engine") id
              sampleVolatile initialUi (sampleWorld (λ _, false)) sampleReport None
              "evt-trip" 0 0 countingOracle (0%nat, 0%nat) (jsonOfExport sampleDoc)
              initialSettings (λ _, Deleted) "engine" eq_refl) as H.
destruct H as (_ & Hdel & _ & _ & _ & _ & _ & Himp & _).
split; [exact Hdel|]. exact (proj1 (Himp (or_introl eq_refl))).
Defined.

(** Degraded on the home database with two actions pending: the switch to
    the demonstration database waits for confirmation, and the confirmed
    discard empties the queue. *)
Lemma discard_is_explicit_witness :
confirmDiscardChanges
  (handleSwitchDb sampleDefaultName sampleDemoName sampleTempName sampleTutorial [] [] []
     sampleDemoName sampleDegraded (sampleWorld (λ _, false))).1
= Some sampleDemoName
∧ pendingActions
    (handleSwitchDb sampleDefaultName sampleDemoName sampleTempName sampleTutorial [] [] []
       sampleDemoName sampleDegraded (sampleWorld (λ _, false))).1
  = sampleQueue.
Proof.
pose proof (discard_is_explicit sampleDefaultName sampleDemoName sampleTempName
              sampleTutorial [] [] [] sampleDemoName sampleDegraded
              (sampleWorld (λ _, false))
              ltac:(done) ltac:(done) ltac:(done) (or_introl eq_refl)) as H.
cbv zeta in H. destruct H as (_ & Hconfirm & _ & Hqueue & _).
split; [exact Hconfirm | exact Hqueue].
Defined.
